(** * CommunityDesign: the dynamic translation subsystem

    A shallow embedding of the translation pipeline of the repository
    (provider adapter with language detection, server cache and
    orchestrator, client cache, client batching translator, rate-limited
    API route, profile endpoint, language preference state, and the DOM
    translator's target extraction, its calls to apply translations, and
    its revert and reset paths), followed by the properties proved about
    it.

    Conventions.  A JavaScript string is a sequence of UTF-16 code units;
    the embedding uses Rocq's [string], whose characters are read as the
    code units below 256.  Asynchronous functions are embedded by their
    result once every awaited promise has settled, and a promise that is
    left unawaited is named where it is started; the outside world
    (network, database, browser storage) appears as explicit arguments. *)

From Stdlib Require Import ZArith Ascii String List Lia Permutation.
From stdpp Require Import base decidable option list gmap strings.

Local Open Scope Z_scope.

(** ** JavaScript primitives used by the sources *)

Module JS.

(** [s.charCodeAt(i)] of one code unit. *)
Definition charCode (c : ascii) : Z := Z.of_N (N_of_ascii c).

(** White space and line terminators stripped by [String.prototype.trim]
    (those below 256: TAB, LF, VT, FF, CR, SP, NBSP). *)
Definition isWhiteSpace (c : ascii) : bool :=
  match N_of_ascii c with
  | 9 | 10 | 11 | 12 | 13 | 32 | 160 => true
  | _ => false
  end%N.

Fixpoint dropWhile {A} (p : A -> bool) (l : list A) : list A :=
  match l with
  | [] => []
  | x :: r => if p x then dropWhile p r else l
  end.

Definition trim (s : string) : string :=
  string_of_list_ascii
    (rev (dropWhile isWhiteSpace
            (rev (dropWhile isWhiteSpace (list_ascii_of_string s))))).

(** Truthiness of a string value: only the empty string is falsy. *)
Definition truthy (s : string) : bool :=
  match s with EmptyString => false | String _ _ => true end.

(** Truthiness of [string | undefined | null]. *)
Definition truthy_opt (o : option string) : bool :=
  match o with Some s => truthy s | None => false end.

(** [a || b] on strings. *)
Definition or_else (a b : string) : string := if truthy a then a else b.

(** [String.prototype.toLowerCase] on code units below 256: A-Z and the
    Latin-1 capitals U+00C0..U+00DE (without U+00D7) move up by 32. *)
Definition lowerChar (c : ascii) : ascii :=
  let n := N_of_ascii c in
  if ((65 <=? n) && (n <=? 90))%N then ascii_of_N (n + 32)
  else if ((192 <=? n) && (n <=? 222) && negb (n =? 215))%N
       then ascii_of_N (n + 32)
       else c.

Fixpoint toLowerCase (s : string) : string :=
  match s with
  | EmptyString => EmptyString
  | String c r => String (lowerChar c) (toLowerCase r)
  end.

(** [s.split('-')]: the pieces between occurrences of the separator. The
    result is never empty: it is given as its first piece and the rest. *)
Fixpoint splitDash (s : string) : string * list string :=
  match s with
  | EmptyString => (EmptyString, [])
  | String c r =>
      let '(h, t) := splitDash r in
      if Ascii.eqb c "-" then (EmptyString, h :: t) else (String c h, t)
  end.

(** [s.split('-')[0]]. *)
Definition splitDash0 (s : string) : string := fst (splitDash s).

(** ToInt32: the signed 32-bit wrap-around of the bitwise operators. *)
Definition toInt32 (z : Z) : Z := (z + 2 ^ 31) mod 2 ^ 32 - 2 ^ 31.

(** [a << n] for [0 <= n < 32]. *)
Definition shl (a n : Z) : Z := toInt32 (toInt32 a * 2 ^ n).

(** [a & b]. *)
Definition band (a b : Z) : Z := toInt32 (Z.land (toInt32 a) (toInt32 b)).

(** One digit of [Number.prototype.toString(radix)]. *)
Definition digit (d : Z) : ascii :=
  if d <? 10 then ascii_of_N (Z.to_N (48 + d)) else ascii_of_N (Z.to_N (87 + d)).

Fixpoint toString_go (radix : Z) (fuel : nat) (n : Z) (acc : string) : string :=
  match fuel with
  | O => acc
  | S fuel' =>
      let acc' := String (digit (n mod radix)) acc in
      if n / radix =? 0 then acc' else toString_go radix fuel' (n / radix) acc'
  end.

(** [n.toString(radix)] for a non-negative integer [n] and a radix between
    2 and 36; a number below [2^k] has at most [k] digits, so the fuel never
    runs out. *)
Definition toStringRadix (radix n : Z) : string :=
  toString_go radix (S (Z.to_nat (Z.log2 n))) n EmptyString.

Definition toString36 (n : Z) : string := toStringRadix 36 n.
Definition toString10 (n : Z) : string := toStringRadix 10 n.

(** Property names every object literal inherits from
    [Object.prototype]. *)
Definition objectPrototypeKeys : list string :=
  [ "constructor"; "hasOwnProperty"; "isPrototypeOf"; "propertyIsEnumerable";
    "toLocaleString"; "toString"; "valueOf"; "__proto__";
    "__defineGetter__"; "__defineSetter__"; "__lookupGetter__";
    "__lookupSetter__" ].

Definition mem (k : string) (l : list string) : bool :=
  existsb (String.eqb k) l.

(** [key in obj] for an object literal with the given own keys: own and
    inherited properties both count. *)
Definition hasProperty (key : string) (ownKeys : list string) : bool :=
  mem key ownKeys || mem key objectPrototypeKeys.

(** What reading a property of an object literal of strings gives: one of
    its strings, or a member inherited from [Object.prototype] (a function
    or an object, on which string methods raise a [TypeError]). *)
Inductive prop_value :=
| Str (s : string)
| Inherited (key : string).

Fixpoint assoc (k : string) (l : list (string * string)) : option string :=
  match l with
  | [] => None
  | (k', v) :: r => if String.eqb k k' then Some v else assoc k r
  end.

(** [obj[k]] for an object literal with the given own entries; [None] is
    [undefined]. *)
Definition getProp (k : string) (own : list (string * string)) : option prop_value :=
  match assoc k own with
  | Some v => Some (Str v)
  | None => if mem k objectPrototypeKeys then Some (Inherited k) else None
  end.

(** [s.slice(0, n)]: the first [n] code units. *)
Definition slice0 (n : nat) (s : string) : string := String.substring 0 n s.

(** [s.replace(/\s+/g, '_')]: every maximal run of white space becomes one
    underscore. *)
Fixpoint replaceSpaces (s : string) : string :=
  match s with
  | EmptyString => EmptyString
  | String c r =>
      if isWhiteSpace c then
        match r with
        | String c' _ =>
            if isWhiteSpace c' then replaceSpaces r
            else String "_" (replaceSpaces r)
        | EmptyString => String "_" EmptyString
        end
      else String c (replaceSpaces r)
  end.

End JS.

(** ** The provider adapter: src/lib/translation/providers/deepl.ts *)

Module DeepL.

(** The JSON body posted to [/v2/translate]. *)
Record deepl_request := {
  req_text : list string;
  req_source_lang : option string;
  req_target_lang : string
}.

(** One element of [data.translations]. *)
Record deepl_translation := {
  tr_text : string;
  detected_source_language : option string
}.

(** What awaiting [fetch] and [response.json()] can produce. *)
Inductive deepl_reply :=
| NetworkError
| HttpError (status : Z) (errorText : string)
| JsonBody (translations : option (list deepl_translation)).

Section Provider.
(** [process.env.DEEPL_API_KEY]. *)
Variable DEEPL_API_KEY : option string.
(** [String.prototype.toUpperCase] (full Unicode case mapping). *)
Variable toUpperCase : string -> string.
(** The remote service. *)
Variable fetch : deepl_request -> deepl_reply.

Definition toDeepLLanguage (code : string) (isTarget : bool) : string :=
  let upperCode := toUpperCase code in
  if isTarget then
    if String.eqb upperCode "EN" then "EN-US"
    else if String.eqb upperCode "PT" then "PT-BR"
    else upperCode
  else upperCode.

(** [translateText]: the result and the requests sent. *)
Definition translateText (text sourceLang targetLang : string)
  : string * list deepl_request :=
  if negb (JS.truthy_opt DEEPL_API_KEY) then (text, [])
  else if negb (JS.truthy (JS.trim text)) then (text, [])
  else
    let request := {| req_text := [text];
                      req_source_lang := Some (toDeepLLanguage sourceLang false);
                      req_target_lang := toDeepLLanguage targetLang true |} in
    match fetch request with
    | NetworkError => (text, [request])
    | HttpError _ _ => (text, [request])
    | JsonBody (Some (t :: _)) => (tr_text t, [request])
    | JsonBody _ => (text, [request])
    end.

(** The [texts.forEach] that records the non-empty entries and their
    positions. *)
Definition nonEmpty (texts : list string) : list nat * list string :=
  fold_left
    (fun acc it =>
       if JS.truthy (JS.trim it.2)
       then (acc.1 ++ [it.1], acc.2 ++ [it.2])
       else acc)
    (imap pair texts) ([], []).

(** The [data.translations.forEach] that writes the translations back:
    [result[nonEmptyIndices[index]] = translation.text]. *)
Definition reinsert (nonEmptyIndices : list nat)
    (translations : list deepl_translation) (texts : list string)
  : list string :=
  fold_left
    (fun result it =>
       match nonEmptyIndices !! it.1 with
       | Some i => <[i := tr_text it.2]> result
       | None => result
       end)
    (imap pair translations) texts.

(** [translateBatch]: the result and the requests sent. *)
Definition translateBatch (texts : list string) (sourceLang : option string)
    (targetLang : string) : list string * list deepl_request :=
  if negb (JS.truthy_opt DEEPL_API_KEY) then (texts, [])
  else if (length texts =? 0)%nat then ([], [])
  else
    let '(nonEmptyIndices, nonEmptyTexts) := nonEmpty texts in
    if (length nonEmptyTexts =? 0)%nat then (texts, [])
    else
      let request :=
        {| req_text := nonEmptyTexts;
           req_source_lang :=
             if JS.truthy_opt sourceLang
             then Some (toDeepLLanguage (default "" sourceLang) false)
             else None;
           req_target_lang := toDeepLLanguage targetLang true |} in
      match fetch request with
      | NetworkError => (texts, [request])
      | HttpError _ _ => (texts, [request])
      | JsonBody (Some translations) =>
          if (length translations =? length nonEmptyTexts)%nat
          then (reinsert nonEmptyIndices translations texts, [request])
          else (texts, [request])
      | JsonBody None => (texts, [request])
      end.

(** A reply that makes the batch call fail: a network error, a non-OK
    response, or a body whose translations are missing or miscounted. *)
Definition replyFails (request : deepl_request) (reply : deepl_reply) : Prop :=
  match reply with
  | NetworkError | HttpError _ _ | JsonBody None => True
  | JsonBody (Some translations) =>
      length translations <> length (req_text request)
  end.

(** [fromDeepLLanguage]: [code.split('-')[0].toLowerCase()]. *)
Definition fromDeepLLanguage (code : string) : string :=
  JS.toLowerCase (JS.splitDash0 code).

(** [detectLanguageViaTranslation]: the detected code ([None] is [null])
    and the requests sent. *)
Definition detectLanguageViaTranslation (text : string)
  : option string * list deepl_request :=
  if negb (JS.truthy_opt DEEPL_API_KEY) then (None, [])
  else if negb (JS.truthy (JS.trim text)) then (None, [])
  else
    let request := {| req_text := [JS.slice0 200 text];
                      req_source_lang := None;
                      req_target_lang := "EN-US" |} in
    match fetch request with
    | NetworkError => (None, [request])
    | HttpError _ _ => (None, [request])
    | JsonBody (Some (t :: _)) =>
        let detectedLang := detected_source_language t in
        (if JS.truthy_opt detectedLang
         then Some (fromDeepLLanguage (default "" detectedLang))
         else None,
         [request])
    | JsonBody _ => (None, [request])
    end.

(** [detectLanguage] of src/lib/translation/detect.ts. *)
Definition detectLanguage (text : string) : string * list deepl_request :=
  if negb (JS.truthy text) || negb (JS.truthy (JS.trim text)) then ("en", [])
  else
    let sampleText := JS.slice0 200 text in
    let '(detectedLang, requests) := detectLanguageViaTranslation sampleText in
    (JS.or_else (default "" detectedLang) "en", requests).

End Provider.

End DeepL.

(** ** The server-side cache: src/lib/translation/cache.ts *)

Module Cache.

(** A row of the [translation] table without its unique key. *)
Record translation_row := {
  sourceLanguage : string;
  sourceHash : string;
  translatedContent : string;
  modelProvider : string;
  modelVersion : string;
  confidenceScore : option Z
}.

(** The argument of [setCachedTranslation]; the table is unique on
    [(entityType, entityId, fieldName, targetLanguage)]. *)
Record SetCachedTranslationParams := {
  p_entityType : string;
  p_entityId : string;
  p_fieldName : string;
  p_sourceLanguage : string;
  p_sourceHash : string;
  p_targetLanguage : string;
  p_translatedContent : string;
  p_modelProvider : string;
  p_modelVersion : string;
  p_confidenceScore : option Z
}.

(** Whether the database client throws on a read or on a write. *)
Record db_env := { read_throws : bool; write_throws : bool }.

Section Db.
Variable env : db_env.

Definition getCachedTranslationWithHash
    (db : gmap (string * string * string * string) translation_row)
    (entityType entityId fieldName targetLanguage sourceHash_ : string)
  : option string :=
  if read_throws env then None
  else
    match db !! (entityType, entityId, fieldName, targetLanguage) with
    | Some translation =>
        if String.eqb (sourceHash translation) sourceHash_
        then Some (translatedContent translation)
        else None
    | None => None
    end.

(** [db.translation.upsert]: [create] when the key is free, [update]
    otherwise (a field given as [undefined] is left as it was). *)
Definition setCachedTranslation
    (db : gmap (string * string * string * string) translation_row)
    (params : SetCachedTranslationParams)
  : gmap (string * string * string * string) translation_row :=
  if write_throws env then db
  else
    let k := (p_entityType params, p_entityId params,
              p_fieldName params, p_targetLanguage params) in
    let score :=
      match p_confidenceScore params, db !! k with
      | None, Some old => confidenceScore old
      | c, _ => c
      end in
    <[k := {| sourceLanguage := p_sourceLanguage params;
              sourceHash := p_sourceHash params;
              translatedContent := p_translatedContent params;
              modelProvider := p_modelProvider params;
              modelVersion := p_modelVersion params;
              confidenceScore := score |}]> db.

(** [getCachedTranslation]: the stored content whatever its hash. *)
Definition getCachedTranslation
    (db : gmap (string * string * string * string) translation_row)
    (entityType entityId fieldName targetLanguage : string) : option string :=
  if read_throws env then None
  else translatedContent <$> db !! (entityType, entityId, fieldName, targetLanguage).

(** [deleteCachedTranslations]: [deleteMany] on the rows of one entity. *)
Definition deleteCachedTranslations
    (db : gmap (string * string * string * string) translation_row)
    (entityType entityId : string)
  : gmap (string * string * string * string) translation_row :=
  if write_throws env then db
  else
    filter (fun kv => ~ (kv.1.1.1.1 = entityType /\ kv.1.1.1.2 = entityId)) db.

End Db.

End Cache.

(** ** The server-side orchestrator: src/lib/translation/index.ts *)

Module Translation.

Definition MODEL_PROVIDER : string := "deepl".
Definition MODEL_VERSION : string := "v2".

Record TranslateForUserParams := {
  entityType : string;
  entityId : string;
  fieldName : string;
  content : string;
  sourceLanguage : string;
  targetLanguage : string
}.

(** [TranslatablePost]: [rest] stands for the fields the index signature
    admits; [None] is [null] or [undefined]. *)
Record TranslatablePost (R : Type) := {
  post_id : string;
  plainText : option string;
  title : option string;
  post_languageCode : option string;
  post_rest : R
}.
Arguments post_id {R}.
Arguments plainText {R}.
Arguments title {R}.
Arguments post_languageCode {R}.
Arguments post_rest {R}.

(** [TranslatableComment]. *)
Record TranslatableComment (R : Type) := {
  comment_id : string;
  comment_content : string;
  comment_languageCode : option string;
  comment_rest : R
}.
Arguments comment_id {R}.
Arguments comment_content {R}.
Arguments comment_languageCode {R}.
Arguments comment_rest {R}.

Section Orchestrator.
(** [hashContent]: the SHA-256 hex digest of the node crypto library. *)
Variable hashContent : string -> string.
Variable DEEPL_API_KEY : option string.
Variable toUpperCase : string -> string.
Variable fetch : DeepL.deepl_request -> DeepL.deepl_reply.
Variable env : Cache.db_env.

(** [translateForUser]: the returned text and the table once the
    fire-and-forget write has settled. *)
Definition translateForUser
    (db : gmap (string * string * string * string) Cache.translation_row)
    (params : TranslateForUserParams)
  : string * gmap (string * string * string * string) Cache.translation_row :=
  if String.eqb (sourceLanguage params) (targetLanguage params)
  then (content params, db)
  else if negb (JS.truthy (content params))
          || negb (JS.truthy (JS.trim (content params)))
  then (content params, db)
  else
    let contentHashValue := hashContent (content params) in
    let cached :=
      Cache.getCachedTranslationWithHash env db
        (entityType params) (entityId params) (fieldName params)
        (targetLanguage params) contentHashValue in
    if JS.truthy_opt cached then (default "" cached, db)
    else
      let translated :=
        (DeepL.translateText DEEPL_API_KEY toUpperCase fetch
           (content params) (sourceLanguage params) (targetLanguage params)).1 in
      (translated,
       Cache.setCachedTranslation env db
         {| Cache.p_entityType := entityType params;
            Cache.p_entityId := entityId params;
            Cache.p_fieldName := fieldName params;
            Cache.p_sourceLanguage := sourceLanguage params;
            Cache.p_sourceHash := contentHashValue;
            Cache.p_targetLanguage := targetLanguage params;
            Cache.p_translatedContent := translated;
            Cache.p_modelProvider := MODEL_PROVIDER;
            Cache.p_modelVersion := MODEL_VERSION;
            Cache.p_confidenceScore := None |}).

(** [translateForUser] at the moment it returns: the text, and the write
    it has started without awaiting it ([None]: it started none). The
    table is still the one the call has read. *)
Definition translateForUserStarted
    (db : gmap (string * string * string * string) Cache.translation_row)
    (params : TranslateForUserParams)
  : string * option Cache.SetCachedTranslationParams :=
  if String.eqb (sourceLanguage params) (targetLanguage params)
  then (content params, None)
  else if negb (JS.truthy (content params))
          || negb (JS.truthy (JS.trim (content params)))
  then (content params, None)
  else
    let contentHashValue := hashContent (content params) in
    let cached :=
      Cache.getCachedTranslationWithHash env db
        (entityType params) (entityId params) (fieldName params)
        (targetLanguage params) contentHashValue in
    if JS.truthy_opt cached then (default "" cached, None)
    else
      let translated :=
        (DeepL.translateText DEEPL_API_KEY toUpperCase fetch
           (content params) (sourceLanguage params) (targetLanguage params)).1 in
      (translated,
       Some {| Cache.p_entityType := entityType params;
               Cache.p_entityId := entityId params;
               Cache.p_fieldName := fieldName params;
               Cache.p_sourceLanguage := sourceLanguage params;
               Cache.p_sourceHash := contentHashValue;
               Cache.p_targetLanguage := targetLanguage params;
               Cache.p_translatedContent := translated;
               Cache.p_modelProvider := MODEL_PROVIDER;
               Cache.p_modelVersion := MODEL_VERSION;
               Cache.p_confidenceScore := None |}).

(** The table once a started write, if any, has landed. *)
Definition landed (write : option Cache.SetCachedTranslationParams)
    (db : gmap (string * string * string * string) Cache.translation_row)
  : gmap (string * string * string * string) Cache.translation_row :=
  match write with
  | Some params => Cache.setCachedTranslation env db params
  | None => db
  end.

(** The provider call made for [params] fails: no credential, a network
    error, or a non-OK response. *)
Definition providerFails (params : TranslateForUserParams) : Prop :=
  JS.truthy_opt DEEPL_API_KEY = false
  \/ match fetch {| DeepL.req_text := [content params];
                    DeepL.req_source_lang :=
                      Some (DeepL.toDeepLLanguage toUpperCase
                              (sourceLanguage params) false);
                    DeepL.req_target_lang :=
                      DeepL.toDeepLLanguage toUpperCase
                        (targetLanguage params) true |} with
     | DeepL.NetworkError | DeepL.HttpError _ _ => True
     | DeepL.JsonBody _ => False
     end.

(** The call gets as far as the provider: the languages differ, the
    content is not blank and the cache has no entry for its hash. *)
Definition reachesProvider
    (db : gmap (string * string * string * string) Cache.translation_row)
    (params : TranslateForUserParams) : Prop :=
  sourceLanguage params <> targetLanguage params
  /\ JS.truthy (JS.trim (content params)) = true
  /\ JS.truthy_opt
       (Cache.getCachedTranslationWithHash env db
          (entityType params) (entityId params) (fieldName params)
          (targetLanguage params) (hashContent (content params))) = false.

Definition postField {R : Type} (post : TranslatablePost R) (field : string)
    (userLanguage : string) (value : string) : TranslateForUserParams :=
  {| entityType := "Post";
     entityId := post_id post;
     fieldName := field;
     content := value;
     sourceLanguage := JS.or_else (default "" (post_languageCode post)) "en";
     targetLanguage := userLanguage |}.

(** [translatePostForUser]: the two awaits run one after the other. *)
Definition translatePostForUser {R : Type}
    (db : gmap (string * string * string * string) Cache.translation_row)
    (post : TranslatablePost R) (userLanguage : string)
  : TranslatablePost R
    * gmap (string * string * string * string) Cache.translation_row :=
  let sourceLanguage := JS.or_else (default "" (post_languageCode post)) "en" in
  if String.eqb sourceLanguage userLanguage then (post, db)
  else
    let '(plainText', db1) :=
      if JS.truthy_opt (plainText post)
      then
        let '(t, db1) :=
          translateForUser db
            (postField post "plainText" userLanguage
               (default "" (plainText post))) in
        (Some t, db1)
      else (plainText post, db) in
    let '(title', db2) :=
      if JS.truthy_opt (title post)
      then
        let '(t, db2) :=
          translateForUser db1
            (postField post "title" userLanguage (default "" (title post))) in
        (Some t, db2)
      else (title post, db1) in
    ({| post_id := post_id post;
        plainText := plainText';
        title := title';
        post_languageCode := post_languageCode post;
        post_rest := post_rest post |}, db2).

Definition translateCommentForUser {R : Type}
    (db : gmap (string * string * string * string) Cache.translation_row)
    (comment : TranslatableComment R) (userLanguage : string)
  : TranslatableComment R
    * gmap (string * string * string * string) Cache.translation_row :=
  let sourceLanguage :=
    JS.or_else (default "" (comment_languageCode comment)) "en" in
  if String.eqb sourceLanguage userLanguage then (comment, db)
  else
    let '(translatedContent, db1) :=
      translateForUser db
        {| entityType := "Comment";
           entityId := comment_id comment;
           fieldName := "content";
           content := comment_content comment;
           sourceLanguage := sourceLanguage;
           targetLanguage := userLanguage |} in
    ({| comment_id := comment_id comment;
        comment_content := translatedContent;
        comment_languageCode := comment_languageCode comment;
        comment_rest := comment_rest comment |}, db1).

(** [translateUIText] of src/lib/translation/ui.ts. *)
Definition uiFieldName (text : string) : string :=
  JS.slice0 50 (JS.replaceSpaces (JS.toLowerCase text)).

Definition translateUIText
    (db : gmap (string * string * string * string) Cache.translation_row)
    (text sourceLanguage targetLanguage context : string)
  : string * gmap (string * string * string * string) Cache.translation_row :=
  if String.eqb sourceLanguage targetLanguage
     || negb (JS.truthy text) || negb (JS.truthy (JS.trim text))
  then (text, db)
  else
    translateForUser db
      {| entityType := "UI";
         entityId := context;
         fieldName := uiFieldName text;
         content := text;
         sourceLanguage := sourceLanguage;
         targetLanguage := targetLanguage |}.
End Orchestrator.

End Translation.

(** ** The client-side cache: src/lib/translation/client/cache-client.ts *)

Module CacheClient.

Definition CACHE_PREFIX : string := "deepl_cache_".
Definition CACHE_VERSION : string := "v1".

(** The module-level [MEMORY_CACHE] and the browser's [localStorage];
    [localStorage = None] stands for [typeof window === 'undefined']. *)
Record client_cache := {
  MEMORY_CACHE : gmap string string;
  localStorage : option (gmap string string)
}.

(** The string hashed by both key functions. *)
Definition keyInput (text targetLang : string) : string :=
  text +:+ "||" +:+ targetLang.

(** One turn of the loop of [generateSyncCacheKey]:
    [hash = ((hash << 5) - hash) + char; hash = hash & hash]. *)
Definition hashStep (hash : Z) (c : ascii) : Z :=
  let hash' := (JS.shl hash 5 - hash) + JS.charCode c in
  JS.band hash' hash'.

Definition syncHash (input : string) : Z :=
  fold_left hashStep (list_ascii_of_string input) 0.

Definition generateSyncCacheKey (text targetLang : string) : string :=
  let hash := syncHash (keyInput text targetLang) in
  CACHE_VERSION +:+ "_" +:+ JS.toString36 (Z.abs hash).

(** [getFromCache]; [getItemThrows] says whether reading the storage
    raises (private browsing and the like). *)
Definition getFromCache (getItemThrows : bool) (c : client_cache)
    (text targetLang : string) : option string * client_cache :=
  let key := generateSyncCacheKey text targetLang in
  let memoryResult := MEMORY_CACHE c !! key in
  if JS.truthy_opt memoryResult then (memoryResult, c)
  else
    match localStorage c with
    | Some items =>
        if getItemThrows then (None, c)
        else
          let stored := items !! (CACHE_PREFIX +:+ key) in
          if JS.truthy_opt stored
          then (stored,
                {| MEMORY_CACHE := <[key := default "" stored]> (MEMORY_CACHE c);
                   localStorage := localStorage c |})
          else (None, c)
    | None => (None, c)
    end.

(** [setToCache]; [setItemThrows] says whether writing the storage raises
    (quota exceeded and the like). *)
Definition setToCache (setItemThrows : bool) (c : client_cache)
    (text targetLang translation : string) : client_cache :=
  let key := generateSyncCacheKey text targetLang in
  let memory := <[key := translation]> (MEMORY_CACHE c) in
  match localStorage c with
  | Some items =>
      if setItemThrows
      then {| MEMORY_CACHE := memory; localStorage := Some items |}
      else {| MEMORY_CACHE := memory;
              localStorage := Some (<[CACHE_PREFIX +:+ key := translation]> items) |}
  | None => {| MEMORY_CACHE := memory; localStorage := None |}
  end.

(** [setBatchToCache]. *)
Definition setBatchToCache (setItemThrows : bool) (c : client_cache)
    (items : list (string * string * string)) : client_cache :=
  fold_left
    (fun c it => setToCache setItemThrows c it.1.1 it.1.2 it.2)
    items c.

(** [getBatchFromCache]: the [Map] from text to cached translation
    ([None] is [null]) and the cache after the lookups. *)
Definition getBatchFromCache (getItemThrows : bool) (c : client_cache)
    (texts : list string) (targetLang : string)
  : gmap string (option string) * client_cache :=
  fold_left
    (fun acc text =>
       let '(r, c') := getFromCache getItemThrows acc.2 text targetLang in
       (<[text := r]> acc.1, c'))
    texts (∅, c).

(** [clearCache]; [storageThrows] says whether the storage raises when
    it is accessed, in which case the [catch] leaves it as it is. *)
Definition clearCache (storageThrows : bool) (c : client_cache) : client_cache :=
  {| MEMORY_CACHE := ∅;
     localStorage :=
       match localStorage c with
       | Some items =>
           if storageThrows then Some items
           else Some (filter (fun kv => String.prefix CACHE_PREFIX kv.1 = false)
                        items)
       | None => None
       end |}.

(** [getCacheStats]: [memorySize] and [localStorageSize]. *)
Definition getCacheStats (storageThrows : bool) (c : client_cache) : nat * nat :=
  (size (MEMORY_CACHE c),
   match localStorage c with
   | Some items =>
       if storageThrows then 0%nat
       else size (filter (fun kv => String.prefix CACHE_PREFIX kv.1 = true) items)
   | None => 0%nat
   end).

End CacheClient.

(** ** The language registry: src/lib/translation/client/language-codes.ts *)

Module LanguageCodes.

(** An entry of [SUPPORTED_LANGUAGES] (the native display names, which
    no operation reads, are left out). *)
Record language_info := { name : string; deeplCode : string }.

Definition SUPPORTED_LANGUAGES : list (string * language_info) :=
  [ ("en", {| name := "English"; deeplCode := "EN-US" |});
    ("de", {| name := "German"; deeplCode := "DE" |});
    ("es", {| name := "Spanish"; deeplCode := "ES" |});
    ("fr", {| name := "French"; deeplCode := "FR" |});
    ("it", {| name := "Italian"; deeplCode := "IT" |});
    ("ja", {| name := "Japanese"; deeplCode := "JA" |});
    ("ko", {| name := "Korean"; deeplCode := "KO" |});
    ("nl", {| name := "Dutch"; deeplCode := "NL" |});
    ("pl", {| name := "Polish"; deeplCode := "PL" |});
    ("pt", {| name := "Portuguese"; deeplCode := "PT-BR" |});
    ("ru", {| name := "Russian"; deeplCode := "RU" |});
    ("zh", {| name := "Chinese"; deeplCode := "ZH-HANS" |});
    ("ar", {| name := "Arabic"; deeplCode := "AR" |});
    ("bg", {| name := "Bulgarian"; deeplCode := "BG" |});
    ("cs", {| name := "Czech"; deeplCode := "CS" |});
    ("da", {| name := "Danish"; deeplCode := "DA" |});
    ("el", {| name := "Greek"; deeplCode := "EL" |});
    ("et", {| name := "Estonian"; deeplCode := "ET" |});
    ("fi", {| name := "Finnish"; deeplCode := "FI" |});
    ("hu", {| name := "Hungarian"; deeplCode := "HU" |});
    ("id", {| name := "Indonesian"; deeplCode := "ID" |});
    ("lt", {| name := "Lithuanian"; deeplCode := "LT" |});
    ("lv", {| name := "Latvian"; deeplCode := "LV" |});
    ("nb", {| name := "Norwegian"; deeplCode := "NB" |});
    ("ro", {| name := "Romanian"; deeplCode := "RO" |});
    ("sk", {| name := "Slovak"; deeplCode := "SK" |});
    ("sl", {| name := "Slovenian"; deeplCode := "SL" |});
    ("sv", {| name := "Swedish"; deeplCode := "SV" |});
    ("tr", {| name := "Turkish"; deeplCode := "TR" |});
    ("uk", {| name := "Ukrainian"; deeplCode := "UK" |}) ].

(** The language codes of the registry. *)
Definition registryCodes : list string := SUPPORTED_LANGUAGES.*1.

Definition getBaseLanguage (locale : string) : string :=
  JS.splitDash0 (JS.toLowerCase locale).

(** [base in SUPPORTED_LANGUAGES]. *)
Definition isLanguageSupported (locale : string) : bool :=
  let base := getBaseLanguage locale in
  JS.hasProperty base registryCodes.

Definition DEEPL_TARGET_MAP : list (string * string) :=
  [ ("en", "EN-US"); ("en-us", "EN-US"); ("en-gb", "EN-GB"); ("en-au", "EN-US");
    ("pt", "PT-BR"); ("pt-br", "PT-BR"); ("pt-pt", "PT-PT");
    ("zh", "ZH-HANS"); ("zh-cn", "ZH-HANS"); ("zh-tw", "ZH-HANT");
    ("zh-hans", "ZH-HANS"); ("zh-hant", "ZH-HANT");
    ("de", "DE"); ("de-de", "DE"); ("de-at", "DE"); ("de-ch", "DE");
    ("es", "ES"); ("es-es", "ES"); ("es-mx", "ES"); ("es-ar", "ES");
    ("fr", "FR"); ("fr-fr", "FR"); ("fr-ca", "FR"); ("fr-be", "FR");
    ("ja", "JA"); ("ko", "KO"); ("it", "IT"); ("nl", "NL"); ("pl", "PL");
    ("ru", "RU"); ("ar", "AR"); ("bg", "BG"); ("cs", "CS"); ("da", "DA");
    ("el", "EL"); ("et", "ET"); ("fi", "FI"); ("hu", "HU"); ("id", "ID");
    ("lt", "LT"); ("lv", "LV"); ("nb", "NB"); ("no", "NB"); ("ro", "RO");
    ("sk", "SK"); ("sl", "SL"); ("sv", "SV"); ("tr", "TR"); ("uk", "UK") ].

(** [if (DEEPL_TARGET_MAP[k]) return DEEPL_TARGET_MAP[k]]: every own value
    is a non-empty string and every inherited member is truthy. *)
Definition toDeepLTarget (locale : string) : JS.prop_value :=
  let normalized := JS.trim (JS.toLowerCase locale) in
  match JS.getProp normalized DEEPL_TARGET_MAP with
  | Some v => v
  | None =>
      let baseLang := JS.splitDash0 normalized in
      match JS.getProp baseLang DEEPL_TARGET_MAP with
      | Some v => v
      | None => JS.Str "EN-US"
      end
  end.

(** [fromDeepLCode]: [code.split('-')[0].toLowerCase()]. *)
Definition fromDeepLCode (code : string) : string :=
  JS.toLowerCase (JS.splitDash0 code).

End LanguageCodes.

(** ** The language preference state:
       src/components/translation/TranslationContext.tsx *)

Module TranslationContext.
Import LanguageCodes.

Definition STORAGE_KEY : string := "preferred_language".

(** What the provider lets the outside see besides its state. *)
Inductive effect :=
| Warn (message : string)            (* console.warn *)
| SyncToProfile (lang : string)      (* POST /api/user/language, result ignored *)
| Persist (lang : string).           (* localStorage.setItem(STORAGE_KEY, lang) attempted *)

(** The browser as [getInitialLanguage] reads it. *)
Record window_env := {
  storedItem : option (option string);  (* [None]: [getItem] throws *)
  navigatorLanguage : option string;
  navigatorUserLanguage : option string
}.

(** The React state of [TranslationProvider], the browser storage it
    persists to ([None]: no [window]) and the effects emitted so far. *)
Record provider := {
  currentLanguage : string;
  isTranslating : bool;
  translationVersion : nat;
  localStorage : option (gmap string string);
  effects : list effect
}.

Definition getInitialLanguage (serverLanguage : option string)
    (window : option window_env) : string :=
  if JS.truthy_opt serverLanguage && isLanguageSupported (default "" serverLanguage)
  then getBaseLanguage (default "" serverLanguage)
  else
    match window with
    | None => "en"
    | Some w =>
        let stored := default None (storedItem w) in
        if JS.truthy_opt stored && isLanguageSupported (default "" stored)
        then getBaseLanguage (default "" stored)
        else
          let browserLang :=
            if JS.truthy_opt (navigatorLanguage w) then navigatorLanguage w
            else navigatorUserLanguage w in
          if JS.truthy_opt browserLang && isLanguageSupported (default "" browserLang)
          then getBaseLanguage (default "" browserLang)
          else "en"
    end.

(** The effect [useEffect(..., [currentLanguage])]: the storage write, in
    a [try] whose failure is ignored. *)
Definition persistEffect (setItemThrows : bool) (p : provider) : provider :=
  match localStorage p with
  | None => p
  | Some items =>
      {| currentLanguage := currentLanguage p;
         isTranslating := isTranslating p;
         translationVersion := translationVersion p;
         localStorage :=
           if setItemThrows then Some items
           else Some (<[STORAGE_KEY := currentLanguage p]> items);
         effects := effects p ++ [Persist (currentLanguage p)] |}
  end.

(** The state update [setCurrentLanguage(l)]. *)
Definition setCurrentLanguage (l : string) (p : provider) : provider :=
  {| currentLanguage := l;
     isTranslating := isTranslating p;
     translationVersion := translationVersion p;
     localStorage := localStorage p;
     effects := effects p |}.

(** The render that follows the state updates of an event handler: the
    persistence effect runs when [currentLanguage] differs from its value
    [previous] at the last render. *)
Definition render (setItemThrows : bool) (previous : string) (p : provider)
  : provider :=
  if String.eqb (currentLanguage p) previous then p
  else persistEffect setItemThrows p.

Definition emit (e : effect) (p : provider) : provider :=
  {| currentLanguage := currentLanguage p;
     isTranslating := isTranslating p;
     translationVersion := translationVersion p;
     localStorage := localStorage p;
     effects := effects p ++ [e] |}.

Definition bumpVersion (p : provider) : provider :=
  {| currentLanguage := currentLanguage p;
     isTranslating := isTranslating p;
     translationVersion := S (translationVersion p);
     localStorage := localStorage p;
     effects := effects p |}.

(** The mounted provider: state initialised from [getInitialLanguage],
    then the persistence effect of the first render. *)
Definition mount (setItemThrows : bool) (serverLanguage : option string)
    (window : option window_env) (storage : option (gmap string string))
  : provider :=
  persistEffect setItemThrows
    {| currentLanguage := getInitialLanguage serverLanguage window;
       isTranslating := false;
       translationVersion := 0;
       localStorage := storage;
       effects := [] |}.

(** [setLanguage], called through the closure of the last render (the
    [currentLanguage] it compares with is the state) and followed by the
    render its state updates ask for. *)
Definition setLanguage (setItemThrows : bool) (lang : string) (p : provider)
  : provider :=
  let normalized := getBaseLanguage lang in
  if negb (isLanguageSupported normalized) then
    render setItemThrows (currentLanguage p)
      (setCurrentLanguage "en"
         (emit (Warn ("Language '" +:+ lang +:+
                      "' is not supported, defaulting to English")) p))
  else if negb (String.eqb normalized (currentLanguage p)) then
    render setItemThrows (currentLanguage p)
      (bumpVersion
         (emit (SyncToProfile normalized)
            (setCurrentLanguage normalized p)))
  else p.

(** One call of the [setLanguage] closure made at a render where the
    current language was [captured], with no render in between: the state
    updates are queued on [p], and the comparison is with [captured]
    whatever has been queued since. *)
Definition setLanguageCall (captured lang : string) (p : provider) : provider :=
  let normalized := getBaseLanguage lang in
  if negb (isLanguageSupported normalized) then
    setCurrentLanguage "en"
      (emit (Warn ("Language '" +:+ lang +:+
                   "' is not supported, defaulting to English")) p)
  else if negb (String.eqb normalized captured) then
    bumpVersion
      (emit (SyncToProfile normalized)
         (setCurrentLanguage normalized p))
  else p.

(** An event handler that calls [setLanguage] with each of [langs] in
    turn: the updates are batched and one render follows the handler. *)
Definition handler (setItemThrows : bool) (langs : list string) (p : provider)
  : provider :=
  render setItemThrows (currentLanguage p)
    (fold_left (fun q lang => setLanguageCall (currentLanguage p) lang q)
       langs p).

Definition triggerRetranslation (p : provider) : provider := bumpVersion p.

Definition setIsTranslating (value : bool) (p : provider) : provider :=
  {| currentLanguage := currentLanguage p;
     isTranslating := value;
     translationVersion := translationVersion p;
     localStorage := localStorage p;
     effects := effects p |}.

(** The states a mounted provider can be in: the mounted state, and what
    the operations of the context value lead to. *)
Inductive reachable : provider -> Prop :=
| reach_mount setItemThrows serverLanguage window storage :
    reachable (mount setItemThrows serverLanguage window storage)
| reach_setLanguage setItemThrows lang p :
    reachable p -> reachable (setLanguage setItemThrows lang p)
| reach_triggerRetranslation p :
    reachable p -> reachable (triggerRetranslation p)
| reach_setIsTranslating value p :
    reachable p -> reachable (setIsTranslating value p).

End TranslationContext.

(** ** The client batching translator:
       src/lib/translation/client/deepl-client.ts *)

Module DeepLClient.
Import LanguageCodes.

Definition BATCH_DELAY : Z := 50.
Definition MAX_BATCH_SIZE : nat := 50.

(** A queued request; [promise] names the promise whose [resolve] and
    [reject] functions the record carries. *)
Record QueuedRequest := {
  text : string;
  targetLang : string;
  promise : nat
}.

(** A call of [resolve] or of [reject]. *)
Inductive settlement :=
| Resolved (translation : string)
| Rejected (error : string).

(** The body posted to [/api/translate]. *)
Record api_request := {
  body_texts : list string;
  body_targetLang : JS.prop_value;
  body_sourceLang : option JS.prop_value
}.

(** What the awaited [fetch] and [response.json()] produce: a rejection,
    or a response with its [ok] flag and the fields [error], [fallback] and
    [translations] of its body. *)
Inductive api_reply :=
| FetchRejects
| Reply (ok : bool) (error : option string) (fallback : bool)
    (translations : option (list string)).

(** An invocation of [flushQueue] suspended at its [await]: the chunks it
    still has to process, each with its target language; the request of the
    first one is under way. *)
Abbreviation flush := (list (string * list QueuedRequest)).

(** The module state ([requestQueue], [flushTimeout], the cache), the
    invocations of [flushQueue] in flight, and what the module did to the
    outside: the calls of [resolve]/[reject] and the requests sent. *)
Record client := {
  requestQueue : list QueuedRequest;
  flushTimeout : bool;                 (* [flushTimeout !== null] *)
  cache : CacheClient.client_cache;
  inflight : list flush;
  settled : list (nat * settlement);
  sent : list api_request;
  nextPromise : nat
}.

(** The part of [fetchTranslations] before the [await]: the request body. *)
Definition requestBody (texts : list string) (targetLang : string)
    (sourceLang : option string) : api_request :=
  {| body_texts := texts;
     body_targetLang := toDeepLTarget targetLang;
     body_sourceLang :=
       if JS.truthy_opt sourceLang
       then Some (toDeepLTarget (default "" sourceLang)) else None |}.

(** The part of [fetchTranslations] after the [await]: [None] when it
    throws, the translations otherwise. *)
Definition fetchTranslations (texts : list string) (reply : api_reply)
  : option (list string) :=
  match reply with
  | FetchRejects => None
  | Reply ok error fallback translations =>
      if negb ok then None
      else if JS.truthy_opt error && negb fallback then None
      else Some (default texts translations)
  end.

(** [byLanguage.get(req.targetLang) || []; group.push(req);
    byLanguage.set(req.targetLang, group)] on a map in insertion order. *)
Fixpoint addToGroup (req : QueuedRequest) (groups : flush) : flush :=
  match groups with
  | [] => [(targetLang req, [req])]
  | (lang, group) :: rest =>
      if String.eqb lang (targetLang req)
      then (lang, group ++ [req]) :: rest
      else (lang, group) :: addToGroup req rest
  end.

Definition byLanguage (requests : list QueuedRequest) : flush :=
  fold_left (fun groups req => addToGroup req groups) requests [].

(** [for (let i = 0; i < langRequests.length; i += MAX_BATCH_SIZE)
    langRequests.slice(i, i + MAX_BATCH_SIZE)]. *)
Fixpoint chunksFrom (fuel i : nat) (langRequests : list QueuedRequest)
  : list (list QueuedRequest) :=
  match fuel with
  | O => []
  | S fuel' =>
      if (i <? length langRequests)%nat
      then take MAX_BATCH_SIZE (drop i langRequests)
             :: chunksFrom fuel' (i + MAX_BATCH_SIZE) langRequests
      else []
  end.

Definition chunksOf (langRequests : list QueuedRequest) : list (list QueuedRequest) :=
  chunksFrom (length langRequests) 0 langRequests.

(** The chunks of a flush in the order of the two nested loops. *)
Definition chunksOfFlush (requests : list QueuedRequest) : flush :=
  flat_map (fun g => pair g.1 <$> chunksOf g.2) (byLanguage requests).

(** The request sent for a chunk. *)
Definition chunkRequest (c : string * list QueuedRequest) : api_request :=
  requestBody (text <$> c.2) c.1 None.

(** [translations[index] || req.text]. *)
Definition translationAt (translations : list string) (index : nat)
    (req : QueuedRequest) : string :=
  JS.or_else (default "" (translations !! index)) (text req).

(** The body of the inner loop once the request of a chunk has settled:
    the [try] branch caches and resolves, the [catch] branch resolves with
    the original text. The result is the calls of [resolve] and the cache. *)
Definition processChunk (setItemThrows : bool) (reply : api_reply)
    (c : string * list QueuedRequest) (cache : CacheClient.client_cache)
  : list (nat * settlement) * CacheClient.client_cache :=
  match fetchTranslations (text <$> c.2) reply with
  | Some translations =>
      (imap (fun index req =>
               (promise req, Resolved (translationAt translations index req))) c.2,
       CacheClient.setBatchToCache setItemThrows cache
         (imap (fun index req =>
                  (text req, c.1, translationAt translations index req)) c.2))
  | None =>
      ((fun req => (promise req, Resolved (text req))) <$> c.2, cache)
  end.

(** [cacheResults.get(text) || text]. *)
Definition cachedOr (cacheResults : gmap string (option string))
    (text : string) : string :=
  JS.or_else (default "" (mjoin (cacheResults !! text))) text.

(** The texts [translateBatch] sends: not blank and with
    [cacheResults.get(text) === null]. *)
Definition uncachedTexts (cacheResults : gmap string (option string))
    (texts : list string) : list string :=
  filter (fun text => JS.truthy (JS.trim text) = true
                      /\ cacheResults !! text = Some None) texts.

(** [translations.forEach((translation, i) => ...)]: the cache items and
    the updated [Map]. Past the end of [toTranslate] the original text is
    [undefined]: the cache key is built from the string "undefined", and
    the [Map] entry under the key [undefined] is never read. *)
Definition recordTranslations (toTranslate translations : list string)
    (targetLang : string) (cacheResults : gmap string (option string))
  : list (string * string * string) * gmap string (option string) :=
  (imap (fun i translation =>
           (default "undefined" (toTranslate !! i), targetLang, translation))
     translations,
   fold_left
     (fun m it =>
        match toTranslate !! it.1 with
        | Some originalText => <[originalText := Some it.2]> m
        | None => m
        end)
     (imap pair translations) cacheResults).

(** [translateBatch] of the client: the result, the cache and the request
    sent, given the settled [reply] to that request. *)
Definition translateBatch (getItemThrows setItemThrows : bool)
    (reply : api_reply) (c : CacheClient.client_cache)
    (texts : list string) (targetLang : string) (sourceLang : option string)
  : list string * CacheClient.client_cache * list api_request :=
  if bool_decide (length texts = 0%nat) then ([], c, [])
  else if JS.truthy_opt sourceLang
          && String.eqb (getBaseLanguage (default "" sourceLang))
                        (getBaseLanguage targetLang)
  then (texts, c, [])
  else
    let '(cacheResults, c1) :=
      CacheClient.getBatchFromCache getItemThrows c texts targetLang in
    let toTranslate := uncachedTexts cacheResults texts in
    if bool_decide (length toTranslate = 0%nat)
    then (cachedOr cacheResults <$> texts, c1, [])
    else
      let request := requestBody toTranslate targetLang sourceLang in
      match fetchTranslations toTranslate reply with
      | Some translations =>
          let '(cacheItems, cacheResults') :=
            recordTranslations toTranslate translations targetLang cacheResults in
          ((fun text =>
              if negb (JS.truthy (JS.trim text)) then text
              else cachedOr cacheResults' text) <$> texts,
           CacheClient.setBatchToCache setItemThrows c1 cacheItems,
           [request])
      | None => (texts, c1, [request])
      end.

(** What can happen to the module: a caller invokes [translateText], the
    flush timer fires, or the request awaited by the [k]-th invocation of
    [flushQueue] in flight settles. *)
Inductive event :=
| Translate (text targetLang : string) (sourceLang : option string)
    (getItemThrows : bool)
| TimerFires
| FetchSettles (k : nat) (reply : api_reply) (setItemThrows : bool).

(** What [translateText] hands to its caller: a value at once, or the
    promise of a queued request. *)
Inductive translation_result :=
| Immediate (value : string)
| Queued (promise : nat).

(** [scheduleFlush]. *)
Definition scheduleFlush (s : client) : client :=
  {| requestQueue := requestQueue s;
     flushTimeout := true;
     cache := cache s;
     inflight := inflight s;
     settled := settled s;
     sent := sent s;
     nextPromise := nextPromise s |}.

Definition translateText (getItemThrows : bool) (text_ targetLang_ : string)
    (sourceLang : option string) (s : client) : translation_result * client :=
  if negb (JS.truthy (JS.trim text_)) then (Immediate text_, s)
  else if String.eqb (getBaseLanguage (default "en" sourceLang))
                     (getBaseLanguage targetLang_)
  then (Immediate text_, s)
  else
    let '(cached, cache') :=
      CacheClient.getFromCache getItemThrows (cache s) text_ targetLang_ in
    match cached with
    | Some value =>
        (Immediate value,
         {| requestQueue := requestQueue s;
            flushTimeout := flushTimeout s;
            cache := cache';
            inflight := inflight s;
            settled := settled s;
            sent := sent s;
            nextPromise := nextPromise s |})
    | None =>
        (Queued (nextPromise s),
         scheduleFlush
           {| requestQueue :=
                requestQueue s ++ [{| text := text_; targetLang := targetLang_;
                                      promise := nextPromise s |}];
              flushTimeout := flushTimeout s;
              cache := cache';
              inflight := inflight s;
              settled := settled s;
              sent := sent s;
              nextPromise := S (nextPromise s) |})
    end.

(** The timer callback [flushQueue(); flushTimeout = null], up to the first
    [await] of [flushQueue]. *)
Definition timerCallback (s : client) : client :=
  match requestQueue s with
  | [] =>
      {| requestQueue := [];
         flushTimeout := false;
         cache := cache s;
         inflight := inflight s;
         settled := settled s;
         sent := sent s;
         nextPromise := nextPromise s |}
  | requests =>
      let chunks := chunksOfFlush requests in
      {| requestQueue := [];
         flushTimeout := false;
         cache := cache s;
         inflight :=
           match chunks with [] => inflight s | _ => inflight s ++ [chunks] end;
         settled := settled s;
         sent :=
           match chunks with [] => sent s | c :: _ => sent s ++ [chunkRequest c] end;
         nextPromise := nextPromise s |}
  end.

(** [flushQueue] resumed after the [await] of its first pending chunk. *)
Definition resumeFlush (k : nat) (reply : api_reply) (setItemThrows : bool)
    (s : client) : client :=
  match inflight s !! k with
  | Some (c :: rest) =>
      let '(calls, cache') := processChunk setItemThrows reply c (cache s) in
      {| requestQueue := requestQueue s;
         flushTimeout := flushTimeout s;
         cache := cache';
         inflight :=
           match rest with
           | [] => delete k (inflight s)
           | _ => <[k := rest]> (inflight s)
           end;
         settled := settled s ++ calls;
         sent :=
           match rest with [] => sent s | c' :: _ => sent s ++ [chunkRequest c'] end;
         nextPromise := nextPromise s |}
  | _ => s
  end.

Definition step (s : client) (e : event) : client :=
  match e with
  | Translate text_ targetLang_ sourceLang getItemThrows =>
      (translateText getItemThrows text_ targetLang_ sourceLang s).2
  | TimerFires => if flushTimeout s then timerCallback s else s
  | FetchSettles k reply setItemThrows => resumeFlush k reply setItemThrows s
  end.

(** The module as loaded, over some cache. *)
Definition init (cache_ : CacheClient.client_cache) : client :=
  {| requestQueue := [];
     flushTimeout := false;
     cache := cache_;
     inflight := [];
     settled := [];
     sent := [];
     nextPromise := 0 |}.

Definition run (s : client) (events : list event) : client :=
  fold_left step events s.

(** The chunks still owed by the flushes in flight. *)
Definition pendingChunks (s : client) : nat :=
  length (concat (inflight s)).

(** The promises not yet settled: those of the queue and those of the
    chunks still to be processed. *)
Definition pendingPromises (s : client) : list nat :=
  (promise <$> requestQueue s)
  ++ (promise <$> concat (snd <$> concat (inflight s))).

Definition settledPromises (s : client) : list nat := (settled s).*1.

(** Letting the flushes in flight run to their end: the request awaited by
    the first one settles with the next reply, as long as any is left. *)
Fixpoint settleAll (fuel : nat) (replies : nat -> api_reply)
    (setItemThrows : bool) (s : client) : client :=
  match fuel with
  | O => s
  | S fuel' =>
      match inflight s with
      | [] => s
      | _ => settleAll fuel' (fun i => replies (S i)) setItemThrows
               (step s (FetchSettles 0 (replies 0%nat) setItemThrows))
      end
  end.

(** The timer fires if one is pending, then every request sent settles. *)
Definition quiesce (replies : nat -> api_reply) (setItemThrows : bool)
    (s : client) : client :=
  let s' := step s TimerFires in
  settleAll (pendingChunks s') replies setItemThrows s'.

End DeepLClient.

(** ** The translation endpoint: src/app/api/translate/route.ts *)

Module Route.

Definition RATE_LIMIT : Z := 100.
Definition RATE_WINDOW : Z := 60 * 1000.

(** A value of the [requestCounts] map. *)
Record rate_record := { count : Z; resetTime : Z }.

Record rate_info := { allowed : bool; remaining : Z }.

(** [getRateLimitInfo], with [Date.now()] as the argument [now]; the
    second component is [requestCounts] after the call. *)
Definition getRateLimitInfo (now : Z) (requestCounts : gmap string rate_record)
    (ip : string) : rate_info * gmap string rate_record :=
  let fresh :=
    ({| allowed := true; remaining := RATE_LIMIT - 1 |},
     <[ip := {| count := 1; resetTime := now + RATE_WINDOW |}]> requestCounts) in
  match requestCounts !! ip with
  | None => fresh
  | Some record =>
      if now >? resetTime record then fresh
      else if count record >=? RATE_LIMIT
      then ({| allowed := false; remaining := 0 |}, requestCounts)
      else
        let count' := count record + 1 in
        ({| allowed := true; remaining := RATE_LIMIT - count' |},
         <[ip := {| count := count'; resetTime := resetTime record |}]> requestCounts)
  end.

Definition DEEPL_TARGET_MAP : list (string * string) :=
  [ ("en", "EN-US"); ("en-us", "EN-US"); ("en-gb", "EN-GB");
    ("pt", "PT-BR"); ("pt-br", "PT-BR"); ("pt-pt", "PT-PT");
    ("zh", "ZH-HANS"); ("zh-cn", "ZH-HANS"); ("zh-tw", "ZH-HANT");
    ("de", "DE"); ("es", "ES"); ("fr", "FR"); ("ja", "JA"); ("ko", "KO");
    ("it", "IT"); ("nl", "NL"); ("pl", "PL"); ("ru", "RU"); ("ar", "AR");
    ("bg", "BG"); ("cs", "CS"); ("da", "DA"); ("el", "EL"); ("et", "ET");
    ("fi", "FI"); ("hu", "HU"); ("id", "ID"); ("lt", "LT"); ("lv", "LV");
    ("nb", "NB"); ("ro", "RO"); ("sk", "SK"); ("sl", "SL"); ("sv", "SV");
    ("tr", "TR"); ("uk", "UK") ].

Abbreviation map_value := JS.prop_value.
Abbreviation Str := JS.Str.
Abbreviation Inherited := JS.Inherited.

(** [DEEPL_TARGET_MAP[k]]. *)
Definition targetMapGet (k : string) : option map_value :=
  JS.getProp k DEEPL_TARGET_MAP.

Definition toDeepLTarget (locale : string) : map_value :=
  let normalized := JS.toLowerCase locale in
  match targetMapGet normalized with
  | Some v => v
  | None =>
      match targetMapGet (JS.splitDash0 normalized) with
      | Some v => v
      | None => Str "EN-US"
      end
  end.

(** The parsed JSON body, as far as the handler looks at it: [texts] is
    [None] when missing or not an array, [targetLang] is [None] when missing
    or not a string. *)
Record TranslateRequest := {
  texts : option (list string);
  targetLang : option string;
  sourceLang : option string
}.

(** The request: [hasBody] is [request.body !== null], and [json] is what
    [request.json()] gives for a body the handler can destructure; [None]
    when it rejects (no body, or a body that is not JSON) or gives [null].
    A request whose [json] is not [None] has a body. *)
Record request := {
  x_forwarded_for : option string;
  x_real_ip : option string;
  hasBody : bool;
  json : option TranslateRequest
}.

(** What the handler answers. [Unavailable] is the body built by the
    [catch] block, with its [translations] (and [fallback: true]).
    [Rejected] stands for no answer of the handler at all: the [catch]
    block itself raises and the promise of [POST] rejects. *)
Inductive response_body :=
| ErrorBody (error : string)
| Skipped (translations : list string)
| Translated (translations : list string) (targetLang : map_value)
    (sourceLang : option map_value)
| Unavailable (translations : list string)
| Rejected.

Record response := {
  status : Z;
  headers : list (string * string);
  body : response_body
}.

(** The client address the handler counts against. *)
Definition clientIp (req : request) : string :=
  if JS.truthy_opt (x_forwarded_for req) then default "" (x_forwarded_for req)
  else if JS.truthy_opt (x_real_ip req) then default "" (x_real_ip req)
  else "unknown".

Section Handler.
Variable DEEPL_API_KEY : option string.
Variable toUpperCase : string -> string.
Variable fetch : DeepL.deepl_request -> DeepL.deepl_reply.

(** [POST] rejects. The handler builds no response; the record holds the
    status with which the framework answers a handler that failed. *)
Definition rejects : response :=
  {| status := 500; headers := []; body := Rejected |}.

(** The [catch] block. It is entered after [request.json()] has been
    called, so that a body, if there is one, has been read: then
    [request.clone()] raises, outside the promise chain that [.catch]
    guards. Without a body the clone has none either, [clone.json()]
    rejects, and [body] is the [{ texts: [] }] of the [.catch]. *)
Definition serverError (req : request) : response :=
  if hasBody req then rejects
  else
    let body :=
      {| texts := Some []; targetLang := None; sourceLang := None |} in
    {| status := 500; headers := [];
       body := Unavailable (default [] (texts body)) |}.

(** [s.split('-')[0].toLowerCase()] on a map value; [None] is the
    [TypeError] raised on a value that is not a string. *)
Definition baseOf (v : map_value) : option string :=
  match v with
  | Str s => Some (JS.toLowerCase (JS.splitDash0 s))
  | Inherited _ => None
  end.

(** The provider call of the handler. A target or source that is not a
    string makes [toUpperCase] raise inside the [try] of [translateBatch],
    which then returns its input. *)
Definition callProvider (texts : list string) (source : option map_value)
    (target : map_value) : list string :=
  match target, source with
  | Str t, None =>
      (DeepL.translateBatch DEEPL_API_KEY toUpperCase fetch texts None t).1
  | Str t, Some (Str s) =>
      (DeepL.translateBatch DEEPL_API_KEY toUpperCase fetch texts (Some s) t).1
  | _, _ => texts
  end.

(** What the handler does once the rate limit let the request through. *)
Definition handleAllowed (rateLimit : rate_info) (req : request) : response :=
  match json req with
  | None => serverError req
  | Some body =>
      match texts body with
      | None | Some [] =>
          {| status := 400; headers := [];
             body := ErrorBody "texts must be a non-empty array of strings" |}
      | Some texts =>
          if negb (JS.truthy_opt (targetLang body)) then
            {| status := 400; headers := [];
               body := ErrorBody "targetLang is required and must be a string" |}
          else if (100 <? length texts)%nat then
            {| status := 400; headers := [];
               body := ErrorBody "Maximum 100 texts per request" |}
          else
            let deeplTargetLang := toDeepLTarget (default "" (targetLang body)) in
            let deeplSourceLang :=
              if JS.truthy_opt (sourceLang body)
              then Some (toDeepLTarget (default "" (sourceLang body)))
              else None in
            let translated :=
              {| status := 200;
                 headers := [("X-RateLimit-Remaining",
                              JS.toString10 (remaining rateLimit))];
                 body := Translated (callProvider texts deeplSourceLang deeplTargetLang)
                           deeplTargetLang deeplSourceLang |} in
            match deeplSourceLang with
            | None => translated
            | Some source =>
                match baseOf deeplTargetLang, baseOf source with
                | Some normalizedTarget, Some normalizedSource =>
                    if String.eqb normalizedTarget normalizedSource
                    then {| status := 200; headers := []; body := Skipped texts |}
                    else translated
                | _, _ => rejects   (* the body has been read *)
                end
            end
      end
  end.

(** [POST], at time [now]: the response and [requestCounts] afterwards. *)
Definition POST (now : Z) (requestCounts : gmap string rate_record)
    (req : request) : response * gmap string rate_record :=
  let ip := clientIp req in
  let '(rateLimit, requestCounts') := getRateLimitInfo now requestCounts ip in
  if negb (allowed rateLimit) then
    ({| status := 429;
        headers := [("X-RateLimit-Remaining", "0"); ("Retry-After", "60")];
        body := ErrorBody "Rate limit exceeded. Please try again later." |},
     requestCounts')
  else (handleAllowed rateLimit req, requestCounts').

(** The server handling the requests of a trace one after the other, each
    at its own time. The handler reads and writes [requestCounts] before
    its first [await], so the order in which requests arrive is the order
    in which they are counted. *)
Fixpoint serve (requestCounts : gmap string rate_record)
    (trace : list (Z * request)) : list response :=
  match trace with
  | [] => []
  | (now, req) :: rest =>
      let '(resp, requestCounts') := POST now requestCounts req in
      resp :: serve requestCounts' rest
  end.

End Handler.

End Route.

(** ** The profile endpoint: src/app/api/user/language/route.ts

    The [user] table is a map from user id to the nullable column
    [languageCode]; [session] is [session?.user?.id]. *)

Module UserLanguage.

Inductive response :=
| Success (saved : bool)                  (* status 200 *)
| Failure (status : Z) (error : string).

Definition isAsciiLetter (c : ascii) : bool :=
  let n := N_of_ascii c in
  ((65 <=? n) && (n <=? 90) || (97 <=? n) && (n <=? 122))%N.

(** [/^[a-z]{2,3}$/i.test(languageCode)]. *)
Definition validFormat (languageCode : string) : bool :=
  ((String.length languageCode =? 2) || (String.length languageCode =? 3))%nat
  && forallb isAsciiLetter (list_ascii_of_string languageCode).

(** [POST]; [body] is [None] when [request.json()] rejects, and holds
    [None] when [languageCode] is missing or not a string; [dbThrows]
    says whether the database client raises. [db.user.update] also raises
    when the user has no row. *)
Definition POST (session : option string) (body : option (option string))
    (dbThrows : bool) (users : gmap string (option string))
  : response * gmap string (option string) :=
  if negb (JS.truthy_opt session) then (Success false, users)
  else
    match body with
    | None => (Failure 500 "Failed to update language preference", users)
    | Some languageCode =>
        if negb (JS.truthy_opt languageCode)
        then (Failure 400 "languageCode is required", users)
        else if negb (validFormat (default "" languageCode))
        then (Failure 400 "Invalid language code format", users)
        else
          match users !! default "" session with
          | Some _ =>
              if dbThrows
              then (Failure 500 "Failed to update language preference", users)
              else (Success true,
                    <[default "" session :=
                        Some (JS.toLowerCase (default "" languageCode))]> users)
          | None => (Failure 500 "Failed to update language preference", users)
          end
    end.

(** [GET]: the [languageCode] of the response ([None] is [null]). *)
Definition GET (session : option string) (dbThrows : bool)
    (users : gmap string (option string)) : option string :=
  if negb (JS.truthy_opt session) then None
  else if dbThrows then Some "en"
  else
    match users !! default "" session with
    | Some languageCode => Some (JS.or_else (default "" languageCode) "en")
    | None => Some "en"
    end.

End UserLanguage.

(** ** The DOM translator: src/components/translation/GlobalTranslator.tsx

    The document is a tree of text nodes and elements. Every element has an
    identity [id] (the object identity of the DOM node), which is what the
    static list returned by [querySelectorAll] holds and what its [forEach]
    acts on. The module-level [pendingOurMutations], which only tells the
    mutation observer which records to skip, is not part of the document
    and is left out. *)

Module Dom.

Local Set Warnings "-register-all".

Inductive node :=
| Text (data : string)
| Element (id : nat) (tagName : string) (attributes : gmap string string)
    (classList : list string) (childNodes : list node).

Definition TRANSLATABLE_ATTRS : list string :=
  ["placeholder"; "title"; "aria-label"; "aria-placeholder";
   "aria-description"; "alt"].

(** [node.textContent]: the text of the node's descendants, in order. *)
Fixpoint textContent (n : node) : string :=
  match n with
  | Text data => data
  | Element _ _ _ _ childNodes =>
      fold_right (fun child acc => textContent child +:+ acc) "" childNodes
  end.

(** [element.textContent = value]: every child is removed and, unless the
    value is empty, one text node holding it is put in their place. *)
Definition setTextContent (value : string) (n : node) : node :=
  match n with
  | Text _ => Text value
  | Element id tagName attributes classList _ =>
      Element id tagName attributes classList
        (if JS.truthy value then [Text value] else [])
  end.

Definition getAttribute (name : string) (n : node) : option string :=
  match n with
  | Text _ => None
  | Element _ _ attributes _ _ => attributes !! name
  end.

Definition hasAttribute (name : string) (n : node) : bool :=
  match getAttribute name n with Some _ => true | None => false end.

Definition setAttribute (name value : string) (n : node) : node :=
  match n with
  | Text _ => n
  | Element id tagName attributes classList childNodes =>
      Element id tagName (<[name := value]> attributes) classList childNodes
  end.

Definition removeAttribute (name : string) (n : node) : node :=
  match n with
  | Text _ => n
  | Element id tagName attributes classList childNodes =>
      Element id tagName (delete name attributes) classList childNodes
  end.

(** [element.classList.remove(token)]. *)
Definition classListRemove (token : string) (n : node) : node :=
  match n with
  | Text _ => n
  | Element id tagName attributes classList childNodes =>
      Element id tagName attributes
        (List.filter (fun c => negb (String.eqb c token)) classList) childNodes
  end.

(** [document.querySelectorAll('[name]')]: the elements carrying the
    attribute, in document order, as a static list of their identities. *)
Fixpoint querySelectorAll (name : string) (n : node) : list nat :=
  match n with
  | Text _ => []
  | Element id _ _ _ childNodes =>
      (if hasAttribute name n then [id] else [])
      ++ (childNodes ≫= querySelectorAll name)
  end.

(** Running a callback on the element of identity [target]: the document
    changes where that element is; an element that is no longer attached
    is changed outside the document, which stays as it is. *)
Fixpoint updateElement (target : nat) (callback : node -> node) (n : node) : node :=
  match n with
  | Text _ => n
  | Element id tagName attributes classList childNodes =>
      if Nat.eqb id target then callback n
      else Element id tagName attributes classList
             (updateElement target callback <$> childNodes)
  end.

(** [list.forEach(callback)] over a static list of elements. *)
Definition forEachElement (elements : list nat) (callback : node -> node)
    (document : node) : node :=
  fold_left (fun doc target => updateElement target callback doc) elements document.

(** The callback of the first loop of [revertTranslations]. *)
Definition revertText (element : node) : node :=
  let original := getAttribute "data-original-text" element in
  let element1 :=
    if JS.truthy_opt original
       && negb (String.eqb (textContent element) (default "" original))
    then setTextContent (default "" original) element
    else element in
  classListRemove "translated" (removeAttribute "data-original-text" element1).

(** The callback of the second loop of [revertTranslations], for [attr]. *)
Definition revertAttribute (attr : string) (element : node) : node :=
  let original := getAttribute ("data-original-" +:+ attr) element in
  if JS.truthy_opt original
  then removeAttribute ("data-original-" +:+ attr)
         (setAttribute attr (default "" original) element)
  else element.

Definition revertTranslations (document : node) : node :=
  let document1 :=
    forEachElement (querySelectorAll "data-original-text" document)
      revertText document in
  fold_left
    (fun doc attr =>
       forEachElement (querySelectorAll ("data-original-" +:+ attr) doc)
         (revertAttribute attr) doc)
    TRANSLATABLE_ATTRS document1.

(** The callbacks of [resetToOriginalForRetranslation], which keep the
    markers. *)
Definition resetText (element : node) : node :=
  let original := getAttribute "data-original-text" element in
  let element1 :=
    if JS.truthy_opt original
       && negb (String.eqb (textContent element) (default "" original))
    then setTextContent (default "" original) element
    else element in
  classListRemove "translated" element1.

Definition resetAttribute (attr : string) (element : node) : node :=
  let original := getAttribute ("data-original-" +:+ attr) element in
  if JS.truthy_opt original
  then setAttribute attr (default "" original) element
  else element.

Definition resetToOriginalForRetranslation (document : node) : node :=
  let document1 :=
    forEachElement (querySelectorAll "data-original-text" document)
      resetText document in
  fold_left
    (fun doc attr =>
       forEachElement (querySelectorAll ("data-original-" +:+ attr) doc)
         (resetAttribute attr) doc)
    TRANSLATABLE_ATTRS document1.

(** What the language-change effect schedules besides touching the
    document. *)
Inductive scheduled :=
| ScanAfterPaintAndAgainLater     (* requestAnimationFrame, then 200 ms *)
| ScanAfterDelay                  (* setTimeout(scanFullPage, 50) *)
| ScanNow.

(** The refs of [GlobalTranslator] that the effect reads and the
    document. *)
Record translator := {
  document : node;
  previousLanguageRef : string;
  isInitialMountRef : bool
}.

(** The effect that handles language changes, run for [currentLanguage]. *)
Definition languageEffect (currentLanguage : string) (t : translator)
  : translator * list scheduled :=
  let previousLanguage := previousLanguageRef t in
  let isInitialMount := isInitialMountRef t in
  let refs doc :=
    {| document := doc;
       previousLanguageRef := currentLanguage;
       isInitialMountRef := false |} in
  if String.eqb currentLanguage "en" then
    if negb isInitialMount
    then (refs (revertTranslations (document t)), [])
    else (refs (document t), [])
  else if isInitialMount then
    (refs (document t), [ScanAfterPaintAndAgainLater])
  else if negb (String.eqb previousLanguage currentLanguage) then
    if negb (String.eqb previousLanguage "en")
    then (refs (resetToOriginalForRetranslation (document t)), [ScanAfterDelay])
    else (refs (document t), [ScanNow])
  else (refs (document t), []).

(** The identities of the elements of a tree, in document order. *)
Fixpoint elementIds (n : node) : list nat :=
  match n with
  | Text _ => []
  | Element id _ _ _ childNodes => id :: (childNodes ≫= elementIds)
  end.

(** The elements of a tree, in document order. *)
Fixpoint elementsOf (n : node) : list node :=
  match n with
  | Text _ => []
  | Element _ _ _ _ childNodes => n :: (childNodes ≫= elementsOf)
  end.

Definition idOf (n : node) : option nat :=
  match n with Text _ => None | Element id _ _ _ _ => Some id end.

Definition classListOf (n : node) : list string :=
  match n with Text _ => [] | Element _ _ _ classList _ => classList end.

Definition childNodesOf (n : node) : list node :=
  match n with Text _ => [] | Element _ _ _ _ childNodes => childNodes end.

End Dom.

(** ** Regular expressions of the sources

    [RegExp.prototype.test] decides whether some part of the string
    matches; for a pattern anchored at both ends that is whether the whole
    string matches, which is decided here by derivatives. *)

Module Regex.

Inductive regex :=
| Never
| Empty
| Class (p : ascii -> bool)
| Seq (r s : regex)
| Alt (r s : regex)
| Star (r : regex).

Fixpoint nullable (r : regex) : bool :=
  match r with
  | Never => false
  | Empty => true
  | Class _ => false
  | Seq r s => nullable r && nullable s
  | Alt r s => nullable r || nullable s
  | Star _ => true
  end.

Fixpoint deriv (c : ascii) (r : regex) : regex :=
  match r with
  | Never => Never
  | Empty => Never
  | Class p => if p c then Empty else Never
  | Seq r s =>
      if nullable r then Alt (Seq (deriv c r) s) (deriv c s)
      else Seq (deriv c r) s
  | Alt r s => Alt (deriv c r) (deriv c s)
  | Star r => Seq (deriv c r) (Star r)
  end.

(** Whether the whole of [s] matches [r]. *)
Fixpoint matches (r : regex) (s : string) : bool :=
  match s with
  | EmptyString => nullable r
  | String c s' => matches (deriv c r) s'
  end.

(** [r+], [r?], a literal, and any code unit. *)
Definition Plus (r : regex) : regex := Seq r (Star r).
Definition Opt (r : regex) : regex := Alt r Empty.
Fixpoint Lit (s : string) : regex :=
  match s with
  | EmptyString => Empty
  | String c s' => Seq (Class (Ascii.eqb c)) (Lit s')
  end.
Definition Any : regex := Class (fun _ => true).

(** [\d] and [\w]. *)
Definition isDigit (c : ascii) : bool :=
  let n := N_of_ascii c in ((48 <=? n) && (n <=? 57))%N.
Definition isWord (c : ascii) : bool :=
  let n := N_of_ascii c in
  ((48 <=? n) && (n <=? 57) || (65 <=? n) && (n <=? 90)
   || (97 <=? n) && (n <=? 122) || (n =? 95))%N.

(** [\p{P}] below 256: the general categories Pc, Pd, Ps, Pe, Pi, Pf and
    Po. *)
Definition isPunctuation (c : ascii) : bool :=
  match N_of_ascii c with
  | 33 | 34 | 35 | 37 | 38 | 39 | 40 | 41 | 42 | 44 | 45 | 46 | 47
  | 58 | 59 | 63 | 64 | 91 | 92 | 93 | 95 | 123 | 125
  | 161 | 167 | 171 | 182 | 183 | 187 | 191 => true
  | _ => false
  end%N.

(** [\p{S}] below 256: the general categories Sc, Sk, Sm and So. *)
Definition isSymbol (c : ascii) : bool :=
  match N_of_ascii c with
  | 36 | 43 | 60 | 61 | 62 | 94 | 96 | 124 | 126
  | 162 | 163 | 164 | 165 | 166 | 168 | 169 | 172 | 174 | 175 | 176 | 177
  | 180 | 184 | 215 | 247 => true
  | _ => false
  end%N.

End Regex.

(** ** Finding what to translate:
    src/components/translation/GlobalTranslator.tsx

    A node is named by its path, the positions of the child to take at
    each level below the root of the walk: [extractTargets] reads the
    document without changing it, so that the path of a node stands for
    its identity. [translatedNodes] is the [WeakMap] of the component,
    keyed the same way. *)

Module Targets.
Import Dom Regex.

Definition SKIP_ELEMENTS : list string :=
  ["SCRIPT"; "STYLE"; "CODE"; "PRE"; "KBD"; "SAMP"; "VAR";
   "TEXTAREA"; "INPUT"; "NOSCRIPT"; "IFRAME"; "SVG"; "MATH"].

Definition MIN_TEXT_LENGTH : nat := 2.

Inductive target_type := text | attribute.

(** A [TranslationTarget]: [node] and [element] are paths. *)
Record TranslationTarget := {
  type : target_type;
  node : list nat;
  element : option (list nat);
  attribute_ : option string;
  originalText : string
}.

Definition tagNameOf (n : Dom.node) : string :=
  match n with Text _ => "" | Element _ tagName _ _ _ => tagName end.

(** The test [shouldSkipElement] applies to the ancestors of an element. *)
Definition skipsBelow (parent : Dom.node) : bool :=
  hasAttribute "data-no-translate" parent
  || JS.mem "notranslate" (classListOf parent)
  || JS.mem (tagNameOf parent) SKIP_ELEMENTS.

(** [shouldSkipElement]; [blocked] says whether the loop over the
    ancestors finds one to skip below. *)
Definition shouldSkipElement (blocked : bool) (element : Dom.node) : bool :=
  if JS.mem (tagNameOf element) SKIP_ELEMENTS then true
  else if hasAttribute "data-no-translate" element then true
  else if JS.mem "notranslate" (classListOf element) then true
  else if match getAttribute "contenteditable" element with
          | Some v => String.eqb v "true"
          | None => false
          end then true
  else blocked.

(** [/^[\d\s\p{P}\p{S}]+$/u]. *)
Definition onlyMarks : regex :=
  Plus (Class (fun c => isDigit c || JS.isWhiteSpace c
                        || isPunctuation c || isSymbol c)).

(** [/^https?:\/\//] and [/^www\./]. *)
Definition urlStart : regex :=
  Seq (Lit "http") (Seq (Opt (Lit "s")) (Seq (Lit "://") (Star Any))).
Definition wwwStart : regex := Seq (Lit "www.") (Star Any).

(** [/^[\w.-]+@[\w.-]+\.\w+$/]. *)
Definition emailLike : regex :=
  let part := Class (fun c => isWord c || Ascii.eqb c "." || Ascii.eqb c "-") in
  Seq (Plus part)
    (Seq (Lit "@") (Seq (Plus part) (Seq (Lit ".") (Plus (Class isWord))))).

Definition shouldTranslateText (text_ : string) : bool :=
  let trimmed := JS.trim text_ in
  if (String.length trimmed <? MIN_TEXT_LENGTH)%nat then false
  else if matches onlyMarks trimmed then false
  else if matches urlStart trimmed || matches wwwStart trimmed then false
  else if matches emailLike trimmed then false
  else true.

Section Walk.
Variable translatedNodes : gmap (list nat) string.
Variable currentLanguage : string.

(** The attribute targets of an element, in the order of
    [TRANSLATABLE_ATTRS]. *)
Definition attributeTargets (path : list nat) (element : Dom.node)
  : list TranslationTarget :=
  TRANSLATABLE_ATTRS ≫= fun attr =>
    let value := getAttribute attr element in
    if JS.truthy_opt value && shouldTranslateText (default "" value)
    then [ {| type := attribute;
              node := path;
              element := Some path;
              attribute_ := Some attr;
              originalText :=
                JS.or_else
                  (default "" (getAttribute ("data-original-" +:+ attr) element))
                  (default "" value) |} ]
    else [].

(** The extra target of an [OPTION] element. *)
Definition optionTargets (path : list nat) (element : Dom.node)
  : list TranslationTarget :=
  if String.eqb (tagNameOf element) "OPTION"
     && shouldTranslateText (textContent element)
  then [ {| type := text;
            node := match childNodesOf element with
                    | [] => path
                    | _ :: _ => path ++ [0%nat]
                    end;
            element := Some path;
            attribute_ := None;
            originalText :=
              JS.or_else
                (default "" (getAttribute "data-original-text" element))
                (textContent element) |} ]
  else [].

(** The targets the walk collects at the node [n] and below it; [parent]
    is the parent element of [n] and [blocked] says whether the walk is
    below an element to skip. A rejected element hides its subtree. *)
Fixpoint walk (blocked : bool) (parent : Dom.node) (path : list nat)
    (n : Dom.node) {struct n} : list TranslationTarget :=
  match n with
  | Text data =>
      if shouldTranslateText data then
        if bool_decide (translatedNodes !! path = Some currentLanguage) then []
        else [ {| type := text;
                  node := path;
                  element := None;
                  attribute_ := None;
                  originalText :=
                    JS.or_else
                      (default "" (getAttribute "data-original-text" parent))
                      data |} ]
      else []
  | Element _ _ _ _ childNodes =>
      if shouldSkipElement blocked n then []
      else
        attributeTargets path n ++ optionTargets path n
        ++ (fix children (i : nat) (ks : list Dom.node) {struct ks}
              : list TranslationTarget :=
              match ks with
              | [] => []
              | k :: ks' =>
                  walk (blocked || skipsBelow n) n (path ++ [i]) k
                  ++ children (S i) ks'
              end) 0%nat childNodes
  end.

(** [extractTargets(root)]: the walk never yields its root. [blocked]
    says whether an ancestor of [root] is to be skipped below. *)
Definition extractTargets (blocked : bool) (root : Dom.node)
  : list TranslationTarget :=
  (fix children (i : nat) (ks : list Dom.node) {struct ks}
     : list TranslationTarget :=
     match ks with
     | [] => []
     | k :: ks' =>
         walk (blocked || skipsBelow root) root [i] k ++ children (S i) ks'
     end) 0%nat (childNodesOf root).

End Walk.

(** [[...new Set(targets.map(t => t.originalText))]]: the first
    occurrences, in order. *)
Fixpoint uniqueFrom (seen texts : list string) : list string :=
  match texts with
  | [] => []
  | t :: rest =>
      if JS.mem t seen then uniqueFrom seen rest
      else t :: uniqueFrom (t :: seen) rest
  end.

Definition uniqueTexts (targets : list TranslationTarget) : list string :=
  uniqueFrom [] (originalText <$> targets).

(** [translationMap]: [uniqueTexts[i]] is mapped to [translations[i]],
    which is [undefined] ([None]) past the end of [translations]. *)
Definition translationMap (uniqueTexts_ translations : list string)
  : gmap string (option string) :=
  fold_left (fun m it => <[it.2 := translations !! it.1]> m)
    (imap pair uniqueTexts_) ∅.

(** The translation [applyTranslations] applies to a target, if any:
    none when the lookup is [undefined] or empty, or equals the original
    text. *)
Definition translationFor (translationMap_ : gmap string (option string))
    (target : TranslationTarget) : option string :=
  match mjoin (translationMap_ !! originalText target) with
  | Some translation =>
      if negb (JS.truthy translation)
         || String.eqb translation (originalText target)
      then None else Some translation
  | None => None
  end.

(** What [applyTranslations] does to the outside, call by call, console
    output apart. The calls on the document are recorded, not performed:
    a node is named as its target names it, and what a call does to the
    node is left to the DOM. *)
Inductive effect :=
| SetIsTranslating (value : bool)
| StoreOriginalText (textNode : list nat) (original : string)
    (* on the parent element of [textNode], if it has one and that does
       not carry [data-original-text]: [setAttribute] *)
| PendingOurMutation (textNode : list nat)    (* [pendingOurMutations.add] *)
| SetTextContent (textNode : list nat) (translation : string)
| MarkTranslated (textNode : list nat) (language : string)
    (* [translatedNodes.set] *)
| AddTranslatedClass (textNode : list nat)
    (* on the parent element of [textNode], if it has one *)
| StoreOriginalAttribute (element_ : list nat) (attr original : string)
    (* unless the element carries [data-original-<attr>] *)
| SetAttribute (element_ : list nat) (attr translation : string).

(** The body of [targets.forEach] for a target with a translation to
    apply. *)
Definition applyTo (currentLanguage : string) (target : TranslationTarget)
    (translation : string) : list effect :=
  match type target with
  | text =>
      [ StoreOriginalText (node target) (originalText target);
        PendingOurMutation (node target);
        SetTextContent (node target) translation;
        MarkTranslated (node target) currentLanguage;
        AddTranslatedClass (node target) ]
  | attribute =>
      match element target with
      | Some element_ =>
          if JS.truthy_opt (attribute_ target) then
            let attr := default "" (attribute_ target) in
            [ StoreOriginalAttribute element_ attr (originalText target);
              SetAttribute element_ attr translation ]
          else []
      | None => []
      end
  end.

(** [applyTranslations]: its calls in order, the client cache afterwards
    and the requests sent, given the settled [reply] to the request of
    [translateBatch]. Nothing inside the [try] raises, so that the [catch]
    block is not entered. *)
Definition applyTranslations (getItemThrows setItemThrows : bool)
    (reply : DeepLClient.api_reply) (cache : CacheClient.client_cache)
    (currentLanguage : string) (targets : list TranslationTarget)
  : list effect * CacheClient.client_cache * list DeepLClient.api_request :=
  if bool_decide (length targets = 0%nat) || String.eqb currentLanguage "en"
  then ([], cache, [])
  else
    let uniqueTexts_ := uniqueTexts targets in
    let '(translations, cache', requests) :=
      DeepLClient.translateBatch getItemThrows setItemThrows reply cache
        uniqueTexts_ currentLanguage None in
    let translationMap_ := translationMap uniqueTexts_ translations in
    (SetIsTranslating true
       :: (targets ≫= fun target =>
             match translationFor translationMap_ target with
             | Some translation => applyTo currentLanguage target translation
             | None => []
             end)
       ++ [SetIsTranslating false],
     cache', requests).

End Targets.

(** * Properties *)

(** ** Provider adapter *)

Section ProviderFacts.
Import DeepL.

Definition nonBlank (t : string) : bool := JS.truthy (JS.trim t).

(** Positions of the non-blank entries, counted from [n]. *)
Fixpoint positions (n : nat) (l : list string) : list nat :=
  match l with
  | [] => []
  | t :: r => if nonBlank t then n :: positions (S n) r else positions (S n) r
  end.

(** The non-blank entries, in order. *)
Fixpoint keepNonBlank (l : list string) : list string :=
  match l with
  | [] => []
  | t :: r => if nonBlank t then t :: keepNonBlank r else keepNonBlank r
  end.

(** Reading of "same order, blanks reinserted at their positions": walk
    the input, keep each blank entry, and replace the non-blank entries by
    the translations in the order received. *)
Fixpoint merge (texts translations : list string) : list string :=
  match texts with
  | [] => []
  | t :: r =>
      if nonBlank t then
        match translations with
        | [] => t :: merge r []
        | x :: xs => x :: merge r xs
        end
      else t :: merge r translations
  end.

Lemma nonEmpty_go (l : list string) : forall n acc,
  fold_left
    (fun (acc : list nat * list string) (it : nat * string) =>
       if JS.truthy (JS.trim it.2)
       then (acc.1 ++ [it.1], acc.2 ++ [it.2]) else acc)
    (imap (fun i => pair (n + i)%nat) l) acc
  = (acc.1 ++ positions n l, acc.2 ++ keepNonBlank l).
Proof.
  induction l as [|t r IH]; intros n [a b]; simpl.
  - by rewrite !app_nil_r.
  - rewrite (imap_ext _ (fun i => pair (S n + i)%nat) r)
      by (intros; simpl; f_equal; lia).
    rewrite IH. unfold nonBlank. rewrite Nat.add_0_r.
    destruct (JS.truthy (JS.trim t)); simpl; [|done].
    by rewrite <- !app_assoc.
Qed.

Lemma nonEmpty_spec (texts : list string) :
  nonEmpty texts = (positions 0 texts, keepNonBlank texts).
Proof.
  unfold nonEmpty.
  rewrite (imap_ext _ (fun i => pair (0 + i)%nat) texts) by done.
  by rewrite nonEmpty_go.
Qed.

Lemma merge_nil (l : list string) : merge l [] = l.
Proof. induction l as [|t r IH]; simpl; [done|]. rewrite IH. by destruct (nonBlank t). Qed.

Lemma merge_length (l trs : list string) : length (merge l trs) = length l.
Proof.
  revert trs. induction l as [|t r IH]; intros trs; simpl; [done|].
  destruct (nonBlank t); [destruct trs|]; simpl; by rewrite IH.
Qed.

Lemma merge_blank (l : list string) : forall trs i t,
  l !! i = Some t -> nonBlank t = false -> merge l trs !! i = Some t.
Proof.
  induction l as [|x r IH]; intros trs i t Hi Hb; [done|].
  destruct i as [|i]; simpl in *.
  - injection Hi as ->. by rewrite Hb.
  - destruct (nonBlank x); [destruct trs|]; simpl; eauto.
Qed.

Lemma reinsert_skip (idxs : list nat) (trs : list deepl_translation) :
  forall k (result : list string), (length idxs <= k)%nat ->
  fold_left
    (fun (result : list string) (it : nat * deepl_translation) =>
       match idxs !! it.1 with
       | Some i => <[i := tr_text it.2]> result
       | None => result
       end)
    (imap (fun j => pair (k + j)%nat) trs) result = result.
Proof.
  induction trs as [|x xs IH]; intros k result Hk; simpl; [done|].
  rewrite (lookup_ge_None_2 idxs (k + 0)) by lia.
  rewrite (imap_ext _ (fun j => pair (S k + j)%nat) xs)
    by (intros; simpl; f_equal; lia).
  apply IH. lia.
Qed.

Lemma reinsert_go (l : list string) :
  forall (pre : list string) (ipre : list nat) (trs : list deepl_translation),
  fold_left
    (fun (result : list string) (it : nat * deepl_translation) =>
       match (ipre ++ positions (length pre) l) !! it.1 with
       | Some i => <[i := tr_text it.2]> result
       | None => result
       end)
    (imap (fun j => pair (length ipre + j)%nat) trs) (pre ++ l)
  = pre ++ merge l (tr_text <$> trs).
Proof.
  induction l as [|t r IH]; intros pre ipre trs.
  - simpl. rewrite app_nil_r. apply reinsert_skip. done.
  - simpl. destruct (nonBlank t) eqn:Ht.
    + destruct trs as [|x xs]; simpl.
      * by rewrite merge_nil.
      * rewrite Nat.add_0_r.
        rewrite lookup_app_r by lia. rewrite Nat.sub_diag. simpl.
        rewrite insert_app_r_alt by lia. rewrite Nat.sub_diag. simpl.
        rewrite (imap_ext _ (fun j => pair (length (ipre ++ [length pre]) + j)%nat) xs)
          by (intros; simpl; rewrite length_app; simpl; f_equal; lia).
        specialize (IH (pre ++ [x.(tr_text)]) (ipre ++ [length pre]) xs).
        rewrite !length_app in IH. simpl in IH.
        rewrite !Nat.add_1_r in IH.
        rewrite <- !app_assoc in IH. simpl in IH.
        rewrite length_app, Nat.add_1_r. simpl.
        exact IH.
    + specialize (IH (pre ++ [t]) ipre trs).
      rewrite length_app in IH. simpl in IH. rewrite Nat.add_1_r in IH.
      rewrite <- !app_assoc in IH. simpl in IH. exact IH.
Qed.

Lemma reinsert_spec (texts : list string) (trs : list deepl_translation) :
  reinsert (positions 0 texts) trs texts = merge texts (tr_text <$> trs).
Proof.
  unfold reinsert.
  pose proof (reinsert_go texts [] [] trs) as H. simpl in H.
  rewrite (imap_ext _ (fun j => pair (0 + j)%nat) trs) by done.
  exact H.
Qed.

Lemma keepNonBlank_all (l : list string) :
  Forall (fun t => JS.truthy (JS.trim t) = true) (keepNonBlank l).
Proof.
  induction l as [|t r IH]; simpl; [constructor|].
  destruct (nonBlank t) eqn:Ht; [constructor|]; done.
Qed.

Variable DEEPL_API_KEY : option string.
Variable toUpperCase : string -> string.
Variable fetch : deepl_request -> deepl_reply.

Local Abbreviation translateBatch := (translateBatch DEEPL_API_KEY toUpperCase fetch).

(** What [translateBatch] returns, by cases on what it met. *)
Lemma translateBatch_cases (texts : list string) (sourceLang : option string)
    (targetLang : string) :
  (translateBatch texts sourceLang targetLang = (texts, [])
   /\ (JS.truthy_opt DEEPL_API_KEY = false \/ keepNonBlank texts = []))
  \/ exists request,
       req_text request = keepNonBlank texts
       /\ req_target_lang request = toDeepLLanguage toUpperCase targetLang true
       /\ req_source_lang request =
            (if JS.truthy_opt sourceLang
             then Some (toDeepLLanguage toUpperCase (default "" sourceLang) false)
             else None)
       /\ JS.truthy_opt DEEPL_API_KEY = true
       /\ ((translateBatch texts sourceLang targetLang = (texts, [request])
            /\ replyFails request (fetch request))
           \/ exists translations,
                fetch request = JsonBody (Some translations)
                /\ length translations = length (req_text request)
                /\ translateBatch texts sourceLang targetLang
                   = (merge texts (tr_text <$> translations), [request])).
Proof.
  unfold DeepL.translateBatch.
  destruct (JS.truthy_opt DEEPL_API_KEY) eqn:Hk; simpl; [|by left; split; [|left]].
  destruct texts as [|t0 r0] eqn:Ht; [by left; split; [|right]|].
  rewrite <- Ht. replace (length texts =? 0)%nat with false
    by (subst; done).
  rewrite nonEmpty_spec.
  destruct (keepNonBlank texts) as [|k ks] eqn:Hne; simpl; [by left; split; [|right]|].
  right. eexists {| req_text := k :: ks |}. simpl.
  split; [done|]. split; [done|]. split; [done|]. split; [done|].
  match goal with |- context [fetch ?r] => destruct (fetch r) as [| |[trs|]] eqn:Hf end;
    try (by left).
  destruct (length trs =? S (length ks))%nat eqn:Hlen.
  - right. exists trs. apply Nat.eqb_eq in Hlen.
    split; [done|]. split; [done|]. by rewrite reinsert_spec.
  - left. split; [done|]. simpl. by apply Nat.eqb_neq in Hlen.
Qed.

(** C2: [translateBatch] returns an array of the length and order of
    [texts]; empty and whitespace-only entries are left out of the request
    sent to the provider and come back unchanged at their own index; and
    with ["Hi"] translated to ["Salut"], the input [""; "Hi"; "   "]
    for target "fr" gives [""; "Salut"; "   "]. *)
Theorem translateBatch_length_order_blanks (texts : list string)
    (sourceLang : option string) (targetLang : string) :
  let out := translateBatch texts sourceLang targetLang in
  length out.1 = length texts
  /\ (forall i t, texts !! i = Some t -> JS.truthy (JS.trim t) = false ->
        out.1 !! i = Some t)
  /\ (forall request, request ∈ out.2 ->
        req_text request = keepNonBlank texts
        /\ Forall (fun t => JS.truthy (JS.trim t) = true) (req_text request))
  /\ (exists translations, out.1 = merge texts translations)
  /\ (forall request translations,
        out.2 = [request] ->
        fetch request = JsonBody (Some translations) ->
        length translations = length (req_text request) ->
        out.1 = merge texts (tr_text <$> translations))
  /\ (JS.truthy_opt DEEPL_API_KEY = true ->
      (forall request, req_text request = ["Hi"] ->
         fetch request =
           JsonBody (Some [{| tr_text := "Salut";
                              detected_source_language := Some "EN" |}])) ->
      (translateBatch [""; "Hi"; "   "] None "fr").1 = [""; "Salut"; "   "]).
Proof.
  intros out. subst out.
  destruct (translateBatch_cases texts sourceLang targetLang)
    as [[-> _]|(request & Hreq & _ & _ & _ & [[-> Hfail]|(trs & Hf & Hlen & ->)])];
    simpl.
  - split; [done|]. split; [by intros|]. split; [by intros ? ?%elem_of_nil|].
    split; [exists []; by rewrite merge_nil|]. split; [done|].
    intros Hk Hfetch. unfold DeepL.translateBatch. rewrite Hk. simpl.
    rewrite Hfetch by done. done.
  - split; [done|]. split; [by intros|].
    split.
    { intros ? ->%list_elem_of_singleton. rewrite Hreq.
      split; [done|]. apply keepNonBlank_all. }
    split; [exists []; by rewrite merge_nil|].
    split.
    { intros r trs [= <-] Hf Hlen. rewrite Hf in Hfail. simpl in Hfail. done. }
    intros Hk Hfetch. unfold DeepL.translateBatch. rewrite Hk. simpl.
    rewrite Hfetch by done. done.
  - split; [apply merge_length|]. split; [intros; by apply merge_blank|].
    split.
    { intros ? ->%list_elem_of_singleton. rewrite Hreq.
      split; [done|]. apply keepNonBlank_all. }
    split; [by eexists|].
    split.
    { intros r trs' [= <-] Hf'. rewrite Hf in Hf'. by injection Hf' as ->. }
    intros Hk Hfetch. unfold DeepL.translateBatch. rewrite Hk. simpl.
    rewrite Hfetch by done. done.
Qed.

(** C3: whenever the batch call fails (no API key, a thrown exception, a
    non-OK response, or a reply whose translation count differs from the
    number of non-empty texts sent), [translateBatch] returns the whole
    input array unchanged. *)
Theorem translateBatch_failure_returns_input (texts : list string)
    (sourceLang : option string) (targetLang : string) :
  (JS.truthy_opt DEEPL_API_KEY = false
   \/ forall request,
        request ∈ (translateBatch texts sourceLang targetLang).2 ->
        replyFails request (fetch request)) ->
  (translateBatch texts sourceLang targetLang).1 = texts.
Proof.
  intros Hfail.
  destruct (translateBatch_cases texts sourceLang targetLang)
    as [[-> _]|(request & Hreq & _ & _ & Hk & [[-> _]|(trs & Hf & Hlen & Heq)])];
    [done|done|].
  destruct Hfail as [Hno|Hall]; [congruence|].
  rewrite Heq in Hall. specialize (Hall request). simpl in Hall.
  rewrite Hf in Hall. simpl in Hall. exfalso. apply Hall; [|done].
  by apply list_elem_of_singleton.
Qed.

End ProviderFacts.

Lemma translateBatch_length_order_blanks_witness :
  (DeepL.translateBatch (Some "key") id
     (fun _ => DeepL.JsonBody
                 (Some [{| DeepL.tr_text := "Salut";
                           DeepL.detected_source_language := Some "EN" |}]))
     [""; "Hi"; "   "] None "fr").1 = [""; "Salut"; "   "].
Proof.
  apply (translateBatch_length_order_blanks (Some "key") id
           (fun _ => DeepL.JsonBody
                 (Some [{| DeepL.tr_text := "Salut";
                           DeepL.detected_source_language := Some "EN" |}]))
           [""; "Hi"; "   "] None "fr"); [reflexivity | intros; reflexivity].
Defined.

Lemma translateBatch_failure_returns_input_witness :
  (DeepL.translateBatch (Some "key") id (fun _ => DeepL.HttpError 503 "busy")
     ["Hello"; ""; "World"] (Some "en") "de").1 = ["Hello"; ""; "World"].
Proof.
  apply (translateBatch_failure_returns_input (Some "key") id
           (fun _ => DeepL.HttpError 503 "busy")).
  right. intros request _. exact I.
Defined.

(** ** Server-side orchestrator *)

Section OrchestratorFacts.
Import Translation.

Variable hashContent : string -> string.
Variable DEEPL_API_KEY : option string.
Variable toUpperCase : string -> string.
Variable fetch : DeepL.deepl_request -> DeepL.deepl_reply.
Variable env : Cache.db_env.

Local Abbreviation translateForUser :=
  (translateForUser hashContent DEEPL_API_KEY toUpperCase fetch env).

(** On a provider failure [translateText] hands back its input. *)
Lemma translateText_failure (params : TranslateForUserParams) :
  providerFails DEEPL_API_KEY toUpperCase fetch params ->
  (DeepL.translateText DEEPL_API_KEY toUpperCase fetch
     (content params) (sourceLanguage params) (targetLanguage params)).1
  = content params.
Proof.
  intros [Hk|Hf]; unfold DeepL.translateText.
  - by rewrite Hk.
  - destruct (JS.truthy_opt DEEPL_API_KEY); simpl; [|done].
    destruct (JS.truthy (JS.trim (content params))); simpl; [|done].
    unfold DeepL.toDeepLLanguage in *. simpl in Hf.
    match type of Hf with context [fetch ?r] => destruct (fetch r) as [| |[[|]|]] end;
      simpl in *; done.
Qed.

(** The entry that a failed call leaves in the cache. *)
Definition fallbackEntry (params : TranslateForUserParams)
  : Cache.SetCachedTranslationParams :=
  {| Cache.p_entityType := entityType params;
     Cache.p_entityId := entityId params;
     Cache.p_fieldName := fieldName params;
     Cache.p_sourceLanguage := sourceLanguage params;
     Cache.p_sourceHash := hashContent (content params);
     Cache.p_targetLanguage := targetLanguage params;
     Cache.p_translatedContent := content params;
     Cache.p_modelProvider := MODEL_PROVIDER;
     Cache.p_modelVersion := MODEL_VERSION;
     Cache.p_confidenceScore := None |}.

(** C1 (amended): when the provider fails, [translateForUser] returns the
    original [content] unchanged, and the fire-and-forget cache write still
    happens: unless the database write itself throws, the entry of
    [(entityType, entityId, fieldName, targetLanguage)] is upserted with
    the original content as its translated content and the hash of the
    content as its source hash. *)
Theorem translateForUser_failure_returns_content
    (db : gmap (string * string * string * string) Cache.translation_row)
    (params : TranslateForUserParams) :
  reachesProvider hashContent env db params ->
  providerFails DEEPL_API_KEY toUpperCase fetch params ->
  translateForUser db params
    = (content params, Cache.setCachedTranslation env db (fallbackEntry params))
  /\ (Cache.write_throws env = false ->
      exists row,
        (translateForUser db params).2
          !! (entityType params, entityId params, fieldName params,
              targetLanguage params) = Some row
        /\ Cache.translatedContent row = content params
        /\ Cache.sourceHash row = hashContent (content params)).
Proof.
  intros (Hlang & Hblank & Hmiss) Hfail.
  assert (translateForUser db params
          = (content params,
             Cache.setCachedTranslation env db (fallbackEntry params))) as Heq.
  { unfold Translation.translateForUser.
    apply String.eqb_neq in Hlang. rewrite Hlang.
    assert (JS.truthy (content params) = true) as ->
      by (destruct (content params); [discriminate Hblank | reflexivity]).
    rewrite Hblank. simpl. rewrite Hmiss.
    by rewrite (translateText_failure params Hfail). }
  split; [exact Heq|].
  intros Hw. rewrite Heq. simpl. unfold Cache.setCachedTranslation.
  rewrite Hw. eexists. rewrite lookup_insert_eq. simpl. done.
Qed.

End OrchestratorFacts.

Definition sampleParams : Translation.TranslateForUserParams :=
  {| Translation.entityType := "Post";
     Translation.entityId := "p1";
     Translation.fieldName := "plainText";
     Translation.content := "Hello world";
     Translation.sourceLanguage := "en";
     Translation.targetLanguage := "de" |}.

Definition dbUp : Cache.db_env :=
  {| Cache.read_throws := false; Cache.write_throws := false |}.

Lemma translateForUser_failure_returns_content_witness :
  (Translation.translateForUser id (Some "key") id (fun _ => DeepL.NetworkError)
     dbUp ∅ sampleParams).1 = "Hello world".
Proof.
  pose proof (translateForUser_failure_returns_content id (Some "key") id
                (fun _ => DeepL.NetworkError) dbUp ∅ sampleParams) as H.
  destruct H as [H _].
  - split; [discriminate | split; reflexivity].
  - right. exact I.
  - rewrite H. reflexivity.
Defined.

(** C1 as stated fails: with an empty table, a working database and a
    provider that raises a network error, the call returns the content but
    leaves an entry for the field in the cache. *)
Lemma translateForUser_failure_writes_cache :
  ~ (forall hashContent key up fetch env db params,
       Translation.reachesProvider hashContent env db params ->
       Translation.providerFails key up fetch params ->
       Translation.translateForUser hashContent key up fetch env db params
       = (Translation.content params, db)).
Proof.
  intros H.
  specialize (H id (Some "key") id (fun _ => DeepL.NetworkError) dbUp ∅ sampleParams).
  assert (Hin : (Translation.translateForUser id (Some "key") id
                   (fun _ => DeepL.NetworkError) dbUp ∅ sampleParams).2
                !! ("Post", "p1", "plainText", "de") = None).
  { rewrite H; [apply lookup_empty | | right; exact I].
    split; [discriminate | split; reflexivity]. }
  vm_compute in Hin. discriminate Hin.
Qed.

(** ** Client-side cache *)

Section CacheClientFacts.
Import CacheClient.

Lemma toInt32_range (z : Z) : - 2 ^ 31 <= JS.toInt32 z < 2 ^ 31.
Proof.
  unfold JS.toInt32.
  pose proof (Z.mod_pos_bound (z + 2 ^ 31) (2 ^ 32) ltac:(lia)). lia.
Qed.

Lemma hashStep_range (h : Z) (c : ascii) : - 2 ^ 31 <= hashStep h c < 2 ^ 31.
Proof. unfold hashStep, JS.band. apply toInt32_range. Qed.

Lemma syncHash_range (input : string) : - 2 ^ 31 <= syncHash input < 2 ^ 31.
Proof.
  unfold syncHash.
  assert (forall l h, - 2 ^ 31 <= h < 2 ^ 31 ->
                      - 2 ^ 31 <= fold_left hashStep l h < 2 ^ 31) as H.
  { induction l as [|c l IH]; intros h Hh; simpl; [done|].
    apply IH, hashStep_range. }
  apply H. lia.
Qed.

Lemma toString_go_S (radix : Z) (fuel : nat) (n : Z) (acc : string) :
  JS.toString_go radix (S fuel) n acc
  = if n / radix =? 0 then String (JS.digit (n mod radix)) acc
    else JS.toString_go radix fuel (n / radix) (String (JS.digit (n mod radix)) acc).
Proof. reflexivity. Qed.

Lemma toString_go_stable (radix : Z) :
  2 <= radix ->
  forall fuel n acc, 0 <= n < 2 ^ Z.of_nat (S fuel) ->
  JS.toString_go radix (S fuel) n acc = JS.toString_go radix (S (S fuel)) n acc.
Proof.
  intros Hr. induction fuel as [|fuel IH]; intros n acc Hn.
  - rewrite !toString_go_S.
    assert (n / radix = 0) as -> by (apply Z.div_small; simpl in Hn; lia). done.
  - rewrite (toString_go_S radix (S fuel)), (toString_go_S radix (S (S fuel))).
    destruct (n / radix =? 0) eqn:Hq; [done|].
    apply IH. split; [apply Z.div_pos; lia|].
    rewrite (Nat2Z.inj_succ (S fuel)), Z.pow_succ_r in Hn by lia.
    assert (0 < 2 ^ Z.of_nat (S fuel)) by (apply Z.pow_pos_nonneg; lia).
    apply Z.div_lt_upper_bound; [lia|]. nia.
Qed.

(** The fuel of [toStringRadix] is enough: any amount of extra fuel gives
    the same string. *)
Lemma toStringRadix_fuel (radix n : Z) (extra : nat) :
  2 <= radix -> 0 <= n ->
  JS.toString_go radix (S (Z.to_nat (Z.log2 n)) + extra) n EmptyString
  = JS.toStringRadix radix n.
Proof.
  intros Hr Hn. unfold JS.toStringRadix.
  assert (n < 2 ^ Z.of_nat (S (Z.to_nat (Z.log2 n)))) as Hlt.
  { rewrite Nat2Z.inj_succ, Z2Nat.id by apply Z.log2_nonneg.
    destruct (decide (n = 0)) as [->|Hne]; [done|].
    by destruct (Z.log2_spec n ltac:(lia)) as [_ Hlt]. }
  induction extra as [|k IH]; [by rewrite Nat.add_0_r|].
  rewrite <- IH.
  replace (S (Z.to_nat (Z.log2 n)) + S k)%nat
    with (S (S (Z.to_nat (Z.log2 n) + k))) by lia.
  symmetry. apply toString_go_stable; [done|]. split; [done|].
  eapply Z.lt_le_trans; [exact Hlt|]. apply Z.pow_le_mono_r; lia.
Qed.


(** C8 (amended): key derivation is deterministic, and it is a 32-bit
    hash: the key of a pair depends only on the concatenation
    [text || targetLang] and is the cache version followed by the base-36
    form of a number between 0 and 2^31. *)
Theorem generateSyncCacheKey_deterministic
    (text1 targetLang1 text2 targetLang2 : string) :
  ((text1, targetLang1) = (text2, targetLang2) ->
   generateSyncCacheKey text1 targetLang1 = generateSyncCacheKey text2 targetLang2)
  /\ (keyInput text1 targetLang1 = keyInput text2 targetLang2 ->
      generateSyncCacheKey text1 targetLang1 = generateSyncCacheKey text2 targetLang2)
  /\ (exists n, 0 <= n <= 2 ^ 31
                /\ generateSyncCacheKey text1 targetLang1 = "v1_" +:+ JS.toString36 n).
Proof.
  split; [by intros [= -> ->]|].
  split; [unfold generateSyncCacheKey; by intros ->|].
  exists (Z.abs (syncHash (keyInput text1 targetLang1))).
  split; [|done].
  pose proof (syncHash_range (keyInput text1 targetLang1)). lia.
Qed.

End CacheClientFacts.

Definition emptyCache : CacheClient.client_cache :=
  {| CacheClient.MEMORY_CACHE := ∅; CacheClient.localStorage := Some ∅ |}.



Lemma generateSyncCacheKey_deterministic_witness :
  CacheClient.generateSyncCacheKey "a||b" "c" = CacheClient.generateSyncCacheKey "a" "b||c".
Proof.
  apply (generateSyncCacheKey_deterministic "a||b" "c" "a" "b||c").
  reflexivity.
Defined.

(** C8 as stated fails: distinct pairs share a key, both through the
    delimiter (["a||b"] with ["c"] against ["a"] with ["b||c"]) and through
    the hash (["Aa"] against ["BB"] for the same language). *)
Lemma generateSyncCacheKey_collisions :
  ("Aa", "fr") <> ("BB", "fr")
  /\ CacheClient.generateSyncCacheKey "Aa" "fr" = CacheClient.generateSyncCacheKey "BB" "fr"
  /\ ("a||b", "c") <> ("a", "b||c")
  /\ CacheClient.generateSyncCacheKey "a||b" "c" = CacheClient.generateSyncCacheKey "a" "b||c"
  /\ ~ (forall text1 targetLang1 text2 targetLang2,
         (text1, targetLang1) <> (text2, targetLang2) ->
         CacheClient.generateSyncCacheKey text1 targetLang1
         <> CacheClient.generateSyncCacheKey text2 targetLang2).
Proof.
  split; [discriminate|]. split; [vm_compute; reflexivity|].
  split; [discriminate|]. split; [vm_compute; reflexivity|].
  intros H. apply (H "Aa" "fr" "BB" "fr"); [discriminate | vm_compute; reflexivity].
Qed.

Example generateSyncCacheKey_sample :
  CacheClient.generateSyncCacheKey "Hello world" "es" = "v1_rt53qm".
Proof. vm_compute. reflexivity. Qed.

(** ** Language preference state *)

Section LanguageFacts.
Import LanguageCodes TranslationContext.

Lemma lowerChar_idem (c : ascii) : JS.lowerChar (JS.lowerChar c) = JS.lowerChar c.
Proof. destruct c as [[] [] [] [] [] [] [] []]; reflexivity. Qed.

Lemma lowerChar_dash (c : ascii) :
  Ascii.eqb (JS.lowerChar c) "-" = Ascii.eqb c "-".
Proof. destruct c as [[] [] [] [] [] [] [] []]; reflexivity. Qed.

Lemma splitDash0_cons (c : ascii) (r : string) :
  JS.splitDash0 (String c r)
  = if Ascii.eqb c "-" then EmptyString else String c (JS.splitDash0 r).
Proof.
  unfold JS.splitDash0. simpl. destruct (JS.splitDash r) as [h t].
  by destruct (Ascii.eqb c "-").
Qed.

Lemma getBaseLanguage_cons (c : ascii) (r : string) :
  getBaseLanguage (String c r)
  = if Ascii.eqb c "-" then EmptyString
    else String (JS.lowerChar c) (getBaseLanguage r).
Proof.
  unfold getBaseLanguage. simpl. rewrite splitDash0_cons.
  by rewrite lowerChar_dash.
Qed.

(** Normalising twice is normalising once. *)
Lemma getBaseLanguage_idem (locale : string) :
  getBaseLanguage (getBaseLanguage locale) = getBaseLanguage locale.
Proof.
  induction locale as [|c r IH]; [done|].
  rewrite getBaseLanguage_cons.
  destruct (Ascii.eqb c "-") eqn:Hc; [done|].
  rewrite getBaseLanguage_cons, lowerChar_dash, Hc, lowerChar_idem.
  by rewrite IH.
Qed.

Lemma toLowerCase_getBaseLanguage (locale : string) :
  JS.toLowerCase (getBaseLanguage locale) = getBaseLanguage locale.
Proof.
  induction locale as [|c r IH]; [done|].
  rewrite getBaseLanguage_cons.
  destruct (Ascii.eqb c "-"); [done|]. simpl.
  by rewrite lowerChar_idem, IH.
Qed.

Lemma isLanguageSupported_base (locale : string) :
  isLanguageSupported (getBaseLanguage locale) = isLanguageSupported locale.
Proof. unfold isLanguageSupported. by rewrite getBaseLanguage_idem. Qed.

Lemma mem_true (k : string) (l : list string) : JS.mem k l = true <-> k ∈ l.
Proof.
  unfold JS.mem. rewrite existsb_exists. split.
  - intros (x & Hin & ->%String.eqb_eq). by apply list_elem_of_In.
  - intros Hin. exists k. split; [by apply list_elem_of_In | apply String.eqb_refl].
Qed.

(** What the support test lets through: the registry codes, and the two
    lower-case property names inherited from [Object.prototype]. *)
Lemma isLanguageSupported_inv (locale : string) :
  isLanguageSupported locale = true ->
  getBaseLanguage locale ∈ registryCodes
  \/ getBaseLanguage locale = "constructor"
  \/ getBaseLanguage locale = "__proto__".
Proof.
  unfold isLanguageSupported, JS.hasProperty.
  intros [H|H]%orb_true_iff; [left; by apply mem_true|].
  apply mem_true in H. pose proof (toLowerCase_getBaseLanguage locale) as Hl.
  unfold JS.objectPrototypeKeys in H.
  repeat (apply elem_of_cons in H as [H|H];
          [rewrite H in Hl |- *; first [discriminate Hl | tauto]|]).
  by apply elem_of_nil in H.
Qed.

Lemma getInitialLanguage_supported (serverLanguage : option string)
    (window : option window_env) :
  let l := getInitialLanguage serverLanguage window in
  isLanguageSupported l = true /\ getBaseLanguage l = l.
Proof.
  unfold getInitialLanguage.
  repeat match goal with
         | |- context [if ?b && ?c then _ else _] =>
             destruct b; simpl; [destruct c eqn:?; simpl|]
         | |- context [match ?w with Some _ => _ | None => _ end] =>
             destruct w; simpl
         | |- context [if ?b then _ else _] => destruct b; simpl
         end;
    try (split; [reflexivity | reflexivity]);
    (split; [by rewrite isLanguageSupported_base | apply getBaseLanguage_idem]).
Qed.

(** The invariant the code maintains: the current language passes the
    support test and is its own base code. *)
Definition checked (p : provider) : Prop :=
  isLanguageSupported (currentLanguage p) = true
  /\ getBaseLanguage (currentLanguage p) = currentLanguage p.

Lemma persistEffect_language (f : bool) (p : provider) :
  currentLanguage (persistEffect f p) = currentLanguage p.
Proof. unfold persistEffect. by destruct (localStorage p). Qed.

Lemma render_language (f : bool) (prev : string) (p : provider) :
  currentLanguage (render f prev p) = currentLanguage p.
Proof.
  unfold render. destruct (String.eqb _ _); [done|apply persistEffect_language].
Qed.

Lemma setLanguage_language (f : bool) (lang : string) (p : provider) :
  currentLanguage (setLanguage f lang p)
  = if negb (isLanguageSupported lang) then "en"
    else getBaseLanguage lang.
Proof.
  unfold setLanguage. rewrite isLanguageSupported_base.
  destruct (isLanguageSupported lang); simpl.
  - destruct (String.eqb (getBaseLanguage lang) (currentLanguage p)) eqn:He; simpl.
    + by apply String.eqb_eq in He.
    + by rewrite render_language.
  - by rewrite render_language.
Qed.

Lemma reachable_checked (p : provider) : reachable p -> checked p.
Proof.
  induction 1 as [f sl w st|f lang p _ IH|p _ IH|v p _ IH]; unfold checked in *.
  - unfold mount. rewrite persistEffect_language. simpl.
    apply getInitialLanguage_supported.
  - rewrite setLanguage_language.
    destruct (isLanguageSupported lang) eqn:Hs; simpl; [|done].
    split; [by rewrite isLanguageSupported_base | apply getBaseLanguage_idem].
  - exact IH.
  - exact IH.
Qed.

Ltac in_log := rewrite ?elem_of_app, ?elem_of_cons; auto 8.

Local Arguments String.eqb : simpl never.

(** What one call of [setLanguage] does, by the code's own support test.
    The call is total (no exceptional outcome: the only raising
    operation, the storage write, sits in a [try]). For a code that fails
    the support test it sets the current language to "en" and emits the
    warning, without touching the version; for a code that passes it and
    whose base differs from the current language it makes the base code
    current, starts the profile sync, persists the value (the storage
    holds it whenever the write does not raise) and adds one to
    [translationVersion]; for the current language itself it changes
    nothing. Every code whose base is in the registry passes the support
    test. *)
Theorem setLanguage_behaviour (setItemThrows : bool) (lang : string)
    (p : provider) :
  let p' := setLanguage setItemThrows lang p in
  let normalized := getBaseLanguage lang in
  (isLanguageSupported lang = false ->
     currentLanguage p' = "en"
     /\ Warn ("Language '" +:+ lang +:+
              "' is not supported, defaulting to English") ∈ effects p'
     /\ translationVersion p' = translationVersion p)
  /\ (isLanguageSupported lang = true -> normalized <> currentLanguage p ->
       currentLanguage p' = normalized
       /\ translationVersion p' = S (translationVersion p)
       /\ SyncToProfile normalized ∈ effects p'
       /\ (forall items, localStorage p = Some items ->
             Persist normalized ∈ effects p'
             /\ (setItemThrows = false ->
                 localStorage p' = Some (<[STORAGE_KEY := normalized]> items))))
  /\ (isLanguageSupported lang = true -> normalized = currentLanguage p ->
       p' = p)
  /\ (reachable p -> setLanguage setItemThrows (currentLanguage p) p = p)
  /\ (normalized ∈ registryCodes -> isLanguageSupported lang = true).
Proof.
  intros p' normalized. subst p' normalized.
  split; [|split; [|split; [|split]]].
  - intros Hs. rewrite setLanguage_language, Hs. simpl. split; [done|].
    unfold setLanguage. rewrite isLanguageSupported_base, Hs. simpl.
    unfold render, persistEffect. simpl.
    destruct (String.eqb "en" (currentLanguage p)); simpl;
      [split; [in_log|done]|].
    destruct (localStorage p); simpl; (split; [in_log|done]).
  - intros Hs Hne. rewrite setLanguage_language, Hs. simpl. split; [done|].
    unfold setLanguage. rewrite isLanguageSupported_base, Hs. simpl.
    apply String.eqb_neq in Hne. rewrite Hne. simpl.
    unfold render, persistEffect. simpl. rewrite Hne.
    destruct (localStorage p) as [items|] eqn:Hst; simpl.
    + split; [done|]. split; [in_log|].
      intros items' [= <-]. split; [in_log|]. by intros ->.
    + split; [done|]. split; [in_log|]. intros items' [=].
  - intros Hs He. unfold setLanguage.
    rewrite isLanguageSupported_base, Hs. simpl.
    apply String.eqb_eq in He. by rewrite He.
  - intros [Hs Hb]%reachable_checked. unfold setLanguage.
    rewrite isLanguageSupported_base, Hs, Hb. simpl.
    by rewrite String.eqb_refl.
  - intros Hin%mem_true. unfold isLanguageSupported, JS.hasProperty.
    by rewrite Hin.
Qed.

(** A handler with one call is the call followed by its render. *)
Lemma setLanguage_handler (setItemThrows : bool) (lang : string) (p : provider) :
  setLanguage setItemThrows lang p = handler setItemThrows [lang] p.
Proof.
  unfold setLanguage, handler, setLanguageCall. cbn [fold_left].
  destruct (negb (isLanguageSupported _)); [done|].
  destruct (negb (String.eqb _ _)) eqn:He; [done|].
  unfold render. by rewrite String.eqb_refl.
Qed.

(** Two calls in one handler both compare with the language of the last
    render: asking twice for the same new language syncs and bumps the
    version twice, and asking for the rendered language after another one
    changes nothing, so that the other one stays. *)
Lemma handler_two_calls :
  let p := mount false None None (Some ∅) in
  currentLanguage p = "en" /\ translationVersion p = 0%nat
  /\ translationVersion (handler false ["fr"; "fr"] p) = 2%nat
  /\ effects (handler false ["fr"; "fr"] p)
     = effects p ++ [SyncToProfile "fr"; SyncToProfile "fr"; Persist "fr"]
  /\ currentLanguage (handler false ["fr"; "en"] p) = "fr".
Proof. cbv zeta. repeat split; vm_compute; reflexivity. Qed.

(** C9, at an input where the code departs from it. "constructor" is not
    a code of the registry, so that [setLanguage] should warn and fall back
    to "en". But the support test uses [in], which also finds the
    properties that [SUPPORTED_LANGUAGES] inherits from [Object.prototype]:
    the call emits no warning, makes "constructor" the current language,
    sends it to the profile endpoint, persists it and bumps the version.
    "__proto__" fares the same. *)
Theorem setLanguage_accepts_unregistered :
  let p := mount false None None (Some ∅) in
  currentLanguage p = "en"
  /\ Forall (fun lang =>
              let p' := setLanguage false lang p in
              getBaseLanguage lang = lang
              /\ JS.mem lang registryCodes = false
              /\ lang <> "en"
              /\ currentLanguage p' = lang
              /\ effects p' = effects p ++ [SyncToProfile lang; Persist lang]
              /\ localStorage p' ≫= (.!! STORAGE_KEY) = Some lang
              /\ translationVersion p' = S (translationVersion p))
       ["constructor"; "__proto__"]
  /\ ~ (forall setItemThrows lang q,
          reachable q -> getBaseLanguage lang ∉ registryCodes ->
          let q' := setLanguage setItemThrows lang q in
          currentLanguage q' = "en" /\ exists message, Warn message ∈ effects q').
Proof.
  cbv zeta. split; [reflexivity|]. split.
  - repeat constructor; try discriminate; vm_compute; reflexivity.
  - intros H.
    destruct (H false "constructor" (mount false None None (Some ∅))
                (reach_mount _ _ _ _)) as [Hen _].
    + intros Hin%mem_true. vm_compute in Hin. discriminate Hin.
    + vm_compute in Hen. discriminate Hen.
Qed.

(** C10, at the input where the code departs from it: the support test
    uses [in], which also finds the properties that [SUPPORTED_LANGUAGES]
    inherits from [Object.prototype], so "constructor" passes it. Both
    [getInitialLanguage] and [setLanguage] then make "constructor" the
    current language, which is neither "en" nor a code of the registry. *)
Theorem currentLanguage_outside_registry :
  let p := mount false None None (Some ∅) in
  currentLanguage p = "en"
  /\ isLanguageSupported "constructor" = true
  /\ currentLanguage (setLanguage false "constructor" p) = "constructor"
  /\ getInitialLanguage (Some "constructor") None = "constructor"
  /\ "constructor" <> "en"
  /\ JS.mem "constructor" registryCodes = false
  /\ ~ (forall q, reachable q ->
          currentLanguage q = "en" \/ currentLanguage q ∈ registryCodes).
Proof.
  assert (JS.mem "constructor" registryCodes = false) as Hm by reflexivity.
  repeat (split; [first [reflexivity | discriminate]|]).
  intros H.
  specialize (H (setLanguage false "constructor" (mount false None None (Some ∅)))
                (reach_setLanguage _ _ _ (reach_mount _ _ _ _))).
  change (currentLanguage _) with "constructor" in H.
  destruct H as [H|H]; [discriminate H|].
  apply mem_true in H. congruence.
Qed.

End LanguageFacts.

Definition spanishProvider : TranslationContext.provider :=
  TranslationContext.mount false (Some "es-MX") None (Some ∅).

Lemma setLanguage_behaviour_witness :
  TranslationContext.currentLanguage
    (TranslationContext.setLanguage false "xx" spanishProvider) = "en"
  /\ TranslationContext.currentLanguage
       (TranslationContext.setLanguage false "fr-CA" spanishProvider) = "fr"
  /\ TranslationContext.setLanguage false "ES" spanishProvider = spanishProvider.
Proof.
  split; [|split].
  - apply (setLanguage_behaviour false "xx" spanishProvider). reflexivity.
  - apply (setLanguage_behaviour false "fr-CA" spanishProvider);
      [reflexivity | discriminate].
  - destruct (setLanguage_behaviour false "ES" spanishProvider) as (_ & _ & H & _ & _).
    apply H; reflexivity.
Defined.

(** ** Rate limiting of the translation endpoint *)

Section RouteFacts.
Import Route.

Variable DEEPL_API_KEY : option string.
Variable toUpperCase : string -> string.
Variable fetch : DeepL.deepl_request -> DeepL.deepl_reply.

Local Abbreviation POST := (POST DEEPL_API_KEY toUpperCase fetch).
Local Abbreviation serve := (serve DEEPL_API_KEY toUpperCase fetch).

Local Arguments String.eqb : simpl never.

(** The requests of a trace that come from [ip]. *)
Definition fromIp (ip : string) (trace : list (Z * request)) : list (Z * request) :=
  filter (fun x => clientIp x.2 = ip) trace.

Lemma handleAllowed_status (rateLimit : rate_info) (req : request) :
  status (handleAllowed DEEPL_API_KEY toUpperCase fetch rateLimit req) <> 429.
Proof.
  unfold handleAllowed.
  destruct (json req) as [b|]; [|unfold serverError; by destruct (hasBody req)].
  destruct (texts b) as [[|x l]|]; [done| |done].
  destruct (negb _); [done|]. destruct (_ <? _)%nat; [done|].
  destruct (if JS.truthy_opt (sourceLang b) then _ else _); [|done].
  destruct (baseOf _); [|done]. destruct (baseOf _); [|done].
  by destruct (String.eqb _ _).
Qed.

(** A request that passed the limiter with a well-formed payload and no
    source language is answered with status 200. *)
Lemma handleAllowed_valid (rateLimit : rate_info) (req : request)
    (x : string) (l : list string) (target : string) :
  json req = Some {| texts := Some (x :: l); targetLang := Some target;
                     sourceLang := None |} ->
  JS.truthy target = true -> (length (x :: l) <= 100)%nat ->
  status (handleAllowed DEEPL_API_KEY toUpperCase fetch rateLimit req) = 200.
Proof.
  intros Hj Ht Hlen. unfold handleAllowed. rewrite Hj. cbn [texts targetLang sourceLang].
  cbn [JS.truthy_opt]. rewrite Ht. cbn [negb].
  replace (100 <? length (x :: l))%nat with false
    by (symmetry; apply Nat.ltb_ge; lia).
  done.
Qed.

(** A request from another address leaves the record of [ip] alone. *)
Lemma getRateLimitInfo_other (now : Z) (counts : gmap string rate_record)
    (ip ip' : string) :
  ip' <> ip -> (getRateLimitInfo now counts ip').2 !! ip = counts !! ip.
Proof.
  intros Hne. unfold getRateLimitInfo.
  destruct (counts !! ip') as [rec|]; simpl; [|by rewrite lookup_insert_ne].
  destruct (now >? resetTime rec); simpl; [by rewrite lookup_insert_ne|].
  destruct (count rec >=? RATE_LIMIT); simpl; [done|by rewrite lookup_insert_ne].
Qed.

(** A request from [ip] inside its window: refused when the count has
    reached the limit, counted otherwise. *)
Lemma getRateLimitInfo_in_window (now : Z) (counts : gmap string rate_record)
    (ip : string) (c T : Z) :
  counts !! ip = Some {| count := c; resetTime := T |} -> now <= T ->
  getRateLimitInfo now counts ip
  = if c >=? RATE_LIMIT
    then ({| allowed := false; remaining := 0 |}, counts)
    else ({| allowed := true; remaining := RATE_LIMIT - (c + 1) |},
          <[ip := {| count := c + 1; resetTime := T |}]> counts).
Proof.
  intros Hc Hnow. unfold getRateLimitInfo. rewrite Hc. simpl.
  by replace (now >? T) with false by lia.
Qed.

(** The first request past the expiry of a window, or from an unknown
    address, is let through and starts a new window. *)
Lemma getRateLimitInfo_fresh (now : Z) (counts : gmap string rate_record)
    (ip : string) :
  (counts !! ip = None
   \/ exists rec, counts !! ip = Some rec /\ resetTime rec < now) ->
  getRateLimitInfo now counts ip
  = ({| allowed := true; remaining := RATE_LIMIT - 1 |},
     <[ip := {| count := 1; resetTime := now + RATE_WINDOW |}]> counts).
Proof.
  intros [Hn|(rec & Hr & Hlt)]; unfold getRateLimitInfo.
  - by rewrite Hn.
  - rewrite Hr. by replace (now >? resetTime rec) with true by lia.
Qed.

Lemma fromIp_cons (ip : string) (x : Z * request) (l : list (Z * request)) :
  fromIp ip (x :: l)
  = if decide (clientIp x.2 = ip) then x :: fromIp ip l else fromIp ip l.
Proof. unfold fromIp. by rewrite filter_cons. Qed.

Lemma serve_in_window (ip : string) (trace : list (Z * request)) :
  forall (counts : gmap string rate_record) (c T : Z),
  counts !! ip = Some {| count := c; resetTime := T |} ->
  (forall t r, (t, r) ∈ trace -> clientIp r = ip -> t <= T) ->
  forall (i : nat) t r resp,
  trace !! i = Some (t, r) -> clientIp r = ip ->
  serve counts trace !! i = Some resp ->
  let k := c + Z.of_nat (length (fromIp ip (take i trace))) in
  (k < 100 -> status resp <> 429)
  /\ (100 <= k -> status resp = 429 /\ ("Retry-After", "60") ∈ headers resp).
Proof.
  induction trace as [|[t0 r0] rest IH]; intros counts c T Hc Hwin i t r resp Hi Hip Hs;
    [done|].
  destruct i as [|i]; simpl in Hi, Hs.
  - injection Hi as -> ->. unfold Route.POST in Hs. rewrite Hip in Hs.
    assert (t <= T) as Ht by (apply (Hwin t r); [apply list_elem_of_here|exact Hip]).
    rewrite (getRateLimitInfo_in_window _ _ _ c T Hc Ht) in Hs.
    simpl. rewrite Z.add_0_r. unfold RATE_LIMIT in Hs.
    destruct (c >=? 100) eqn:Hge; simpl in Hs; injection Hs as <-.
    + split; [lia|]. intros _. simpl. split; [done|]. right. left.
    + split; [intros _; apply handleAllowed_status | lia].
  - unfold Route.POST in Hs.
    destruct (getRateLimitInfo t0 counts (clientIp r0)) as [info counts'] eqn:Hg.
    assert (exists c', counts' !! ip = Some {| count := c'; resetTime := T |}
                       /\ c' = (if decide (clientIp r0 = ip)
                                then (if c >=? 100 then c else c + 1) else c))
      as (c' & Hc' & Hval).
    { destruct (decide (clientIp r0 = ip)) as [He|Hne].
      - rewrite He in Hg.
        assert (t0 <= T) as Ht
            by (apply (Hwin t0 r0); [apply list_elem_of_here|exact He]).
        rewrite (getRateLimitInfo_in_window _ _ _ c T Hc Ht) in Hg.
        unfold RATE_LIMIT in Hg.
        destruct (c >=? 100); injection Hg as <- <-; eexists; split; try done.
        by rewrite lookup_insert_eq.
      - exists c. split; [|done].
        replace counts' with (getRateLimitInfo t0 counts (clientIp r0)).2
          by (by rewrite Hg).
        by rewrite getRateLimitInfo_other. }
    assert (serve counts' rest !! i = Some resp) as Hs'.
    { destruct (negb (allowed info)); simpl in Hs; exact Hs. }
    specialize (IH counts' c' T Hc'
                  (fun t' r' Hin => Hwin t' r' (list_elem_of_further _ _ _ Hin))
                  i t r resp Hi Hip Hs').
    simpl in IH. simpl. rewrite fromIp_cons. simpl.
    destruct (decide (clientIp r0 = ip)); simpl; subst c'.
    + destruct (c >=? 100) eqn:Hge; split; intros Hk; apply IH; lia.
    + exact IH.
Qed.

Lemma serve_length (trace : list (Z * request)) :
  forall counts, length (serve counts trace) = length trace.
Proof.
  induction trace as [|[t r] rest IH]; intros counts; simpl; [done|].
  destruct (POST t counts r) as [resp counts']. simpl. by rewrite IH.
Qed.

Lemma fromIp_all (ip : string) (l : list (Z * request)) :
  Forall (fun x => clientIp x.2 = ip) l -> fromIp ip l = l.
Proof.
  induction 1 as [|x l Hx _ IH]; [done|].
  rewrite fromIp_cons. rewrite decide_True by done. by rewrite IH.
Qed.

(** C6: once an address has started a window, its requests inside that
    window are answered by position: a request preceded by fewer than 100
    requests of the same address (the window's first one included) passes
    the limiter, and every later one gets status 429 with a [Retry-After]
    header; so of 101 requests of one address in one window the first 100
    are allowed and the 101st is refused. The window is restarted by the
    first request that arrives after [resetTime], and only by a request:
    such a request is let through with a fresh count of 1, and a request
    inside the window never moves [resetTime]. *)
Theorem rate_limit_window (counts : gmap string rate_record) (ip : string)
    (t1 : Z) (r1 : request) (rest : list (Z * request)) :
  clientIp r1 = ip ->
  (counts !! ip = None \/ exists rec, counts !! ip = Some rec /\ resetTime rec < t1) ->
  (forall t r, (t, r) ∈ rest -> clientIp r = ip -> t <= t1 + RATE_WINDOW) ->
  let trace := (t1, r1) :: rest in
  (forall (i : nat) t r resp,
     trace !! i = Some (t, r) -> clientIp r = ip ->
     serve counts trace !! i = Some resp ->
     let earlier := length (fromIp ip (take i trace)) in
     ((earlier < 100)%nat -> status resp <> 429)
     /\ ((100 <= earlier)%nat ->
         status resp = 429 /\ ("Retry-After", "60") ∈ headers resp))
  /\ (length rest = 100%nat -> Forall (fun x => clientIp x.2 = ip) rest ->
      Forall (fun resp => status resp <> 429) (take 100 (serve counts trace))
      /\ exists resp, serve counts trace !! 100%nat = Some resp
                      /\ status resp = 429
                      /\ ("Retry-After", "60") ∈ headers resp)
  /\ (getRateLimitInfo t1 counts ip
      = ({| allowed := true; remaining := RATE_LIMIT - 1 |},
         <[ip := {| count := 1; resetTime := t1 + RATE_WINDOW |}]> counts))
  /\ (forall t counts' rec, counts' !! ip = Some rec -> t <= resetTime rec ->
        exists rec', (getRateLimitInfo t counts' ip).2 !! ip = Some rec'
                     /\ resetTime rec' = resetTime rec).
Proof.
  intros Hip1 Hfresh Hwin trace.
  pose proof (getRateLimitInfo_fresh t1 counts ip Hfresh) as Hg.
  assert (Hgen : forall (i : nat) t r resp,
     trace !! i = Some (t, r) -> clientIp r = ip ->
     serve counts trace !! i = Some resp ->
     let earlier := length (fromIp ip (take i trace)) in
     ((earlier < 100)%nat -> status resp <> 429)
     /\ ((100 <= earlier)%nat ->
         status resp = 429 /\ ("Retry-After", "60") ∈ headers resp)).
  { intros i t r resp Hi Hip Hs. subst trace. simpl in Hs.
    unfold Route.POST in Hs. rewrite Hip1, Hg in Hs. simpl in Hs.
    destruct i as [|i]; simpl in Hi, Hs.
    - injection Hs as <-. simpl.
      split; [intros _; apply handleAllowed_status | lia].
    - simpl. rewrite fromIp_cons. simpl. rewrite decide_True by done. simpl.
      pose proof (serve_in_window ip rest _ 1 (t1 + RATE_WINDOW)
                    (lookup_insert_eq _ _ _) Hwin i t r resp Hi Hip Hs) as H.
      simpl in H. split; intros Hk; apply H; lia. }
  split; [exact Hgen|]. split; [|split; [exact Hg|]].
  - intros Hlen Hall.
    assert (Forall (fun x => clientIp x.2 = ip) trace) as Hall'
      by (subst trace; by constructor).
    assert (length trace = 101%nat) as Hlen' by (subst trace; simpl; lia).
    assert (forall i : nat, (i <= 101)%nat -> length (fromIp ip (take i trace)) = i)
      as Hcount.
    { intros i Hi. rewrite fromIp_all by (by apply Forall_take).
      rewrite length_take. lia. }
    split.
    + apply Forall_lookup. intros i resp [Hr Hi]%lookup_take_Some.
      destruct (lookup_lt_is_Some_2 trace i ltac:(lia)) as [[t r] Htr].
      assert (clientIp r = ip) as Hipr
        by (apply (Forall_lookup_1 _ _ _ _ Hall' Htr)).
      destruct (Hgen i t r resp Htr Hipr Hr) as [Hok _].
      apply Hok. rewrite Hcount; lia.
    + destruct (lookup_lt_is_Some_2 (serve counts trace) 100%nat) as [resp Hr];
        [rewrite serve_length; lia|].
      destruct (lookup_lt_is_Some_2 trace 100%nat ltac:(lia)) as [[t r] Htr].
      assert (clientIp r = ip) as Hipr
        by (apply (Forall_lookup_1 _ _ _ _ Hall' Htr)).
      exists resp. split; [done|].
      destruct (Hgen 100%nat t r resp Htr Hipr Hr) as [_ Hno].
      apply Hno. rewrite Hcount; lia.
  - intros t counts' rec Hc Ht. unfold getRateLimitInfo. rewrite Hc.
    replace (t >? resetTime rec) with false by lia.
    destruct (count rec >=? RATE_LIMIT); simpl.
    + by exists rec.
    + rewrite lookup_insert_eq. by eexists.
Qed.

End RouteFacts.

Definition sampleRequest : Route.request :=
  {| Route.x_forwarded_for := Some "203.0.113.7";
     Route.x_real_ip := None;
     Route.hasBody := true;
     Route.json := Some {| Route.texts := Some ["Hello"];
                           Route.targetLang := Some "de";
                           Route.sourceLang := None |} |}.

Lemma rate_limit_window_witness :
  exists resp,
    Route.serve None id (fun _ => DeepL.NetworkError) ∅
      ((0, sampleRequest) :: replicate 100 (59999, sampleRequest)) !! 100%nat
    = Some resp
    /\ Route.status resp = 429
    /\ ("Retry-After", "60") ∈ Route.headers resp.
Proof.
  destruct (rate_limit_window None id (fun _ => DeepL.NetworkError) ∅
              "203.0.113.7" 0 sampleRequest
              (replicate 100 (59999, sampleRequest))) as (_ & H & _).
  - reflexivity.
  - left. apply lookup_empty.
  - intros t r [[= -> ->] _]%elem_of_replicate _. vm_compute. discriminate.
  - apply H.
    + apply length_replicate.
    + apply Forall_replicate. reflexivity.
Defined.

(** ** Client batching translator *)

Section ClientFacts.
Import DeepLClient.

Local Arguments String.eqb : simpl never.

Lemma chunksFrom_concat (l : list QueuedRequest) :
  forall fuel i, (length l - i <= fuel)%nat ->
  concat (chunksFrom fuel i l) = drop i l.
Proof.
  induction fuel as [|fuel IH]; intros i Hf; simpl.
  - rewrite drop_ge; [done|lia].
  - destruct (i <? length l)%nat eqn:Hi.
    + apply Nat.ltb_lt in Hi. simpl. rewrite IH by (unfold MAX_BATCH_SIZE; lia).
      rewrite <- drop_drop. apply take_drop.
    + apply Nat.ltb_ge in Hi. rewrite drop_ge; [done|lia].
Qed.

(** Chunking loses and duplicates nothing. *)
Lemma chunksOf_concat (l : list QueuedRequest) : concat (chunksOf l) = l.
Proof. unfold chunksOf. rewrite chunksFrom_concat by lia. done. Qed.

Lemma addToGroup_perm (req : QueuedRequest) (groups : flush) :
  concat (addToGroup req groups).*2 ≡ₚ concat groups.*2 ++ [req].
Proof.
  induction groups as [|[lang group] rest IH]; simpl; [done|].
  destruct (String.eqb lang (targetLang req)); simpl.
  - rewrite <- !app_assoc. apply Permutation_app_head.
    apply Permutation_app_comm.
  - rewrite IH. by rewrite app_assoc.
Qed.

(** Grouping by language loses and duplicates nothing. *)
Lemma byLanguage_perm (requests : list QueuedRequest) :
  concat (byLanguage requests).*2 ≡ₚ requests.
Proof.
  unfold byLanguage.
  assert (forall l groups,
            concat (fold_left (fun groups req => addToGroup req groups) l groups).*2
            ≡ₚ concat groups.*2 ++ l) as H.
  { induction l as [|r l IH]; intros groups; simpl; [by rewrite app_nil_r|].
    rewrite IH, addToGroup_perm. by rewrite <- app_assoc. }
  apply (H requests []).
Qed.

Lemma chunksOfFlush_concat (requests : list QueuedRequest) :
  concat (chunksOfFlush requests).*2 = concat (byLanguage requests).*2.
Proof.
  unfold chunksOfFlush.
  induction (byLanguage requests) as [|[lang group] rest IH]; simpl; [done|].
  rewrite fmap_app, concat_app, IH. f_equal.
  rewrite <- list_fmap_compose.
  replace (snd ∘ pair lang) with (@id (list QueuedRequest)) by done.
  rewrite list_fmap_id. apply chunksOf_concat.
Qed.

(** The chunks of a flush hold exactly the requests taken from the queue. *)
Lemma chunksOfFlush_perm (requests : list QueuedRequest) :
  concat (chunksOfFlush requests).*2 ≡ₚ requests.
Proof. rewrite chunksOfFlush_concat. apply byLanguage_perm. Qed.

Lemma fst_imap_pair {A B C} (f : A -> B) (l : list A) :
  forall (g : nat -> A -> C), (imap (fun i x => (f x, g i x)) l).*1 = f <$> l.
Proof.
  induction l as [|x l IH]; intros g; simpl; [done|].
  f_equal. apply (IH (g ∘ S)).
Qed.

(** Processing a chunk calls [resolve] once for each of its requests, in
    order, and never [reject]. *)
Lemma processChunk_calls (f : bool) (reply : api_reply)
    (c : string * list QueuedRequest) (cache_ : CacheClient.client_cache) :
  (processChunk f reply c cache_).1.*1 = promise <$> c.2
  /\ Forall (fun x => exists v, x.2 = Resolved v) (processChunk f reply c cache_).1.
Proof.
  unfold processChunk.
  destruct (fetchTranslations (text <$> c.2) reply) as [trs|]; simpl.
  - split.
    + apply (fst_imap_pair promise c.2
               (fun index req => Resolved (translationAt trs index req))).
    + apply Forall_lookup. intros i x Hx.
      apply list_lookup_imap_Some in Hx as (req & _ & ->). by eexists.
  - split.
    + by rewrite <- list_fmap_compose.
    + apply Forall_fmap, Forall_true. intros req. by eexists.
Qed.

(** The invariant of the module: every promise handed out is either still
    pending (in the queue or in a chunk of a flush in flight) or was settled
    by one call, never both and never twice; every call was a [resolve]; a
    non-empty queue has its timer running; no flush in flight is idle. *)
Definition clientInv (s : client) : Prop :=
  pendingPromises s ++ settledPromises s ≡ₚ seq 0 (nextPromise s)
  /\ Forall (fun x => exists v, x.2 = Resolved v) (settled s)
  /\ (requestQueue s <> [] -> flushTimeout s = true)
  /\ Forall (fun f : flush => f <> []) (inflight s).

Lemma init_inv (cache_ : CacheClient.client_cache) : clientInv (init cache_).
Proof. repeat split; simpl; try done; constructor. Qed.

Lemma translateText_inv (f : bool) (t l : string) (sl : option string)
    (s : client) :
  clientInv s -> clientInv (translateText f t l sl s).2.
Proof.
  intros (Hp & Hr & Hq & Hf). unfold translateText.
  destruct (negb (JS.truthy (JS.trim t))); [done|].
  destruct (String.eqb _ _); [done|].
  destruct (CacheClient.getFromCache f (cache s) t l) as [[v|] cache'].
  - done.
  - unfold clientInv, pendingPromises, settledPromises in *. simpl.
    split; [|done].
    change (0%nat :: seq 1 (nextPromise s)) with (seq 0 (S (nextPromise s))).
    rewrite fmap_app, seq_S. simpl. rewrite <- Hp.
    rewrite <- !app_assoc. apply Permutation_app_head.
    etrans; [apply Permutation_app_comm|]. by rewrite <- app_assoc.
Qed.

Lemma timerCallback_inv (s : client) : clientInv s -> clientInv (timerCallback s).
Proof.
  intros (Hp & Hr & Hq & Hf). unfold timerCallback.
  destruct (requestQueue s) as [|r q] eqn:Hqueue.
  - unfold clientInv, pendingPromises, settledPromises in *.
    rewrite Hqueue in Hp. done.
  - pose proof (chunksOfFlush_perm (r :: q)) as Hperm.
    destruct (chunksOfFlush (r :: q)) as [|c cs] eqn:Hchunks.
    { simpl in Hperm. by apply Permutation_nil_cons in Hperm. }
    assert (promise <$> concat (concat (inflight s ++ [c :: cs])).*2
            ≡ₚ (promise <$> r :: q)
               ++ (promise <$> concat (concat (inflight s)).*2)) as Hpend.
    { rewrite concat_app, fmap_app, concat_app, fmap_app.
      change (concat [c :: cs]) with ((c :: cs) ++ []). rewrite app_nil_r.
      rewrite Hperm. apply Permutation_app_comm. }
    unfold clientInv, pendingPromises, settledPromises in *.
    rewrite Hqueue in Hp. cbn [requestQueue inflight settled nextPromise flushTimeout].
    split; [|split; [done|split; [done|]]].
    + rewrite <- Hp. apply Permutation_app_tail. exact Hpend.
    + apply Forall_app. split; [done|]. by constructor.
Qed.

Lemma inflight_split (fs : list flush) (k : nat)
    (c : string * list QueuedRequest) (rest : flush) :
  fs !! k = Some (c :: rest) ->
  concat fs = concat (take k fs) ++ c :: rest ++ concat (drop (S k) fs)
  /\ concat (match rest with [] => delete k fs | _ => <[k := rest]> fs end)
     = concat (take k fs) ++ rest ++ concat (drop (S k) fs).
Proof.
  intros Hk. split.
  - rewrite <- (take_drop_middle fs k (c :: rest) Hk) at 1.
    by rewrite concat_app.
  - destruct rest as [|c' rest'].
    + rewrite delete_take_drop. by rewrite concat_app.
    + rewrite insert_take_drop by (by eapply lookup_lt_Some).
      by rewrite concat_app.
Qed.

Lemma resumeFlush_inv (k : nat) (reply : api_reply) (f : bool) (s : client) :
  clientInv s -> clientInv (resumeFlush k reply f s).
Proof.
  intros (Hp & Hr & Hq & Hf). unfold resumeFlush.
  destruct (inflight s !! k) as [[|c rest]|] eqn:Hk; [done| |done].
  pose proof (processChunk_calls f reply c (cache s)) as [Hids Hres].
  destruct (processChunk f reply c (cache s)) as [calls cache'].
  destruct (inflight_split _ _ _ _ Hk) as [Hold Hnew].
  unfold clientInv, pendingPromises, settledPromises in *. simpl in *.
  split; [|split; [by apply Forall_app|split; [done|]]].
  - rewrite <- Hp. rewrite Hold, Hnew.
    rewrite !fmap_app, !concat_app, !fmap_app, Hids.
    rewrite fmap_cons, concat_cons, !fmap_app, !concat_app, !fmap_app.
    solve_Permutation.
  - destruct rest as [|c' rest'].
    + rewrite delete_take_drop. apply Forall_app.
      split; [by apply Forall_take | by apply Forall_drop].
    + apply Forall_insert; done.
Qed.

Lemma step_inv (s : client) (e : event) : clientInv s -> clientInv (step s e).
Proof.
  intros H. destruct e as [t l sl f| |k reply f]; simpl.
  - by apply translateText_inv.
  - destruct (flushTimeout s); [by apply timerCallback_inv | done].
  - by apply resumeFlush_inv.
Qed.

Lemma run_inv (events : list event) :
  forall s, clientInv s -> clientInv (run s events).
Proof.
  induction events as [|e events IH]; intros s H; simpl; [done|].
  apply IH. by apply step_inv.
Qed.

Lemma resumeFlush_head (reply : api_reply) (f : bool) (s : client)
    (c : string * list QueuedRequest) (rest : flush) (fs : list flush) :
  inflight s = (c :: rest) :: fs ->
  let s' := resumeFlush 0 reply f s in
  pendingChunks s = S (pendingChunks s')
  /\ requestQueue s' = requestQueue s
  /\ nextPromise s' = nextPromise s
  /\ settled s `prefix_of` settled s'.
Proof.
  intros Hin. unfold resumeFlush, pendingChunks. rewrite Hin. simpl.
  destruct (processChunk f reply c (cache s)) as [calls cache'].
  destruct rest; simpl; (split; [done|split; [done|split; [done|]]]);
    by exists calls.
Qed.

(** Fuel enough for the chunks owed lets every flush in flight finish. *)
Lemma settleAll_spec (f : bool) :
  forall fuel replies s,
  clientInv s -> (pendingChunks s <= fuel)%nat ->
  let s' := settleAll fuel replies f s in
  inflight s' = []
  /\ requestQueue s' = requestQueue s
  /\ nextPromise s' = nextPromise s
  /\ clientInv s'
  /\ settled s `prefix_of` settled s'.
Proof.
  induction fuel as [|fuel IH]; intros replies s Hinv Hfuel; simpl.
  - destruct (inflight s) as [|fl fs] eqn:Hin; [done|].
    destruct Hinv as (_ & _ & _ & Hne). rewrite Hin in Hne.
    apply Forall_cons in Hne as [Hne _].
    destruct fl as [|c rest]; [done|].
    unfold pendingChunks in Hfuel. rewrite Hin in Hfuel. simpl in Hfuel. lia.
  - destruct (inflight s) as [|fl fs] eqn:Hin; [done|].
    pose proof Hinv as (_ & _ & _ & Hne). rewrite Hin in Hne.
    apply Forall_cons in Hne as [Hne _].
    destruct fl as [|c rest]; [done|].
    destruct (resumeFlush_head (replies 0%nat) f s c rest fs Hin)
      as (Hch & Hq & Hn & Hpre).
    destruct (IH (fun i => replies (S i)) (resumeFlush 0 (replies 0%nat) f s))
      as (H1 & H2 & H3 & H4 & H5); [by apply resumeFlush_inv | lia |].
    split; [done|]. split; [congruence|]. split; [congruence|].
    split; [done|]. by etrans.
Qed.

(** C5: every request that [translateText] queues gets a fresh promise, and
    in every state the module can reach each promise handed out is either
    pending (in the queue, whose timer then runs, or in a chunk of a flush
    in flight) or settled by exactly one call, which is a [resolve]; once
    the timer has fired and the requests sent have settled, whatever the
    replies, every promise handed out has been resolved exactly once; and a
    chunk whose request fails has each of its promises resolved with the
    original text of its request. *)
Theorem every_queued_promise_settles_once (cache0 : CacheClient.client_cache)
    (events : list event) :
  let s := run (init cache0) events in
  NoDup (pendingPromises s ++ settledPromises s)
  /\ (forall p, p ∈ pendingPromises s ++ settledPromises s <-> (p < nextPromise s)%nat)
  /\ Forall (fun x => exists v, x.2 = Resolved v) (settled s)
  /\ (requestQueue s <> [] -> flushTimeout s = true)
  /\ (forall f t l sl p,
        (translateText f t l sl s).1 = Queued p ->
        p = nextPromise s
        /\ {| text := t; targetLang := l; promise := p |}
             ∈ requestQueue (translateText f t l sl s).2
        /\ flushTimeout (translateText f t l sl s).2 = true)
  /\ (forall replies f,
        let s' := quiesce replies f s in
        settledPromises s' ≡ₚ seq 0 (nextPromise s)
        /\ pendingPromises s' = []
        /\ settled s `prefix_of` settled s'
        /\ Forall (fun x => exists v, x.2 = Resolved v) (settled s'))
  /\ (forall k reply f c rest,
        inflight s !! k = Some (c :: rest) ->
        fetchTranslations (text <$> c.2) reply = None ->
        settled (step s (FetchSettles k reply f))
        = settled s ++ ((fun req => (promise req, Resolved (text req))) <$> c.2)).
Proof.
  intros s.
  assert (clientInv s) as Hinv by (apply run_inv, init_inv).
  pose proof Hinv as (Hp & Hr & Hq & Hf).
  split; [rewrite Hp; apply NoDup_seq|].
  split; [intros p; rewrite Hp, elem_of_seq; lia|].
  split; [done|]. split; [done|].
  split; [|split].
  - intros f t l sl p. unfold translateText.
    destruct (negb (JS.truthy (JS.trim t))); [done|].
    destruct (String.eqb _ _); [done|].
    destruct (CacheClient.getFromCache f (cache s) t l) as [[v|] cache']; [done|].
    simpl. intros [= <-]. split; [done|]. split; [|done].
    apply elem_of_app. right. apply list_elem_of_here.
  - intros replies f s'. subst s'. unfold quiesce.
    set (s1 := step s TimerFires).
    assert (clientInv s1) as Hinv1 by (by apply step_inv).
    assert (requestQueue s1 = [] /\ nextPromise s1 = nextPromise s
            /\ settled s1 = settled s) as (Hq1 & Hn1 & Hs1).
    { subst s1. simpl. destruct (flushTimeout s) eqn:Ht.
      - unfold timerCallback. by destruct (requestQueue s).
      - split; [|done]. destruct (requestQueue s) eqn:Hqueue; [done|].
        exfalso. assert (false = true) as Habs by (by apply Hq).
        discriminate Habs. }
    destruct (settleAll_spec f (pendingChunks s1) replies s1 Hinv1 (le_n _))
      as (Hin & Hq2 & Hn2 & (Hp2 & Hr2 & _) & Hpre).
    assert (pendingPromises (settleAll (pendingChunks s1) replies f s1) = [])
      as Hnone by (unfold pendingPromises; rewrite Hin, Hq2, Hq1; done).
    rewrite Hnone in Hp2. simpl in Hp2.
    split; [by rewrite Hp2, Hn2, Hn1|]. split; [done|].
    split; [by rewrite <- Hs1|done].
  - intros k reply f c rest Hk Hfail. simpl. unfold resumeFlush. rewrite Hk.
    unfold processChunk. rewrite Hfail. done.
Qed.

End ClientFacts.

Lemma every_queued_promise_settles_once_witness :
  let s := DeepLClient.run (DeepLClient.init emptyCache)
             [DeepLClient.Translate "Hello" "es" None false;
              DeepLClient.Translate "World" "es" None false;
              DeepLClient.TimerFires] in
  DeepLClient.settled
    (DeepLClient.step s (DeepLClient.FetchSettles 0 DeepLClient.FetchRejects false))
  = [(0%nat, DeepLClient.Resolved "Hello"); (1%nat, DeepLClient.Resolved "World")].
Proof.
  intros s.
  destruct (every_queued_promise_settles_once emptyCache
              [DeepLClient.Translate "Hello" "es" None false;
               DeepLClient.Translate "World" "es" None false;
               DeepLClient.TimerFires]) as (_ & _ & _ & _ & _ & _ & H).
  apply (H 0%nat DeepLClient.FetchRejects false
           ("es", [ {| DeepLClient.text := "Hello"; DeepLClient.targetLang := "es";
                       DeepLClient.promise := 0 |};
                    {| DeepLClient.text := "World"; DeepLClient.targetLang := "es";
                       DeepLClient.promise := 1 |} ]) []);
    reflexivity.
Defined.

(** Two texts queued for Spanish, the timer fires, and the reply holds one
    translation only: the first promise is resolved with it, the second
    with its original text. *)
Example short_reply_resolves_with_original :
  DeepLClient.settled
    (DeepLClient.run (DeepLClient.init emptyCache)
       [DeepLClient.Translate "Hello" "es" None false;
        DeepLClient.Translate "World" "es" None false;
        DeepLClient.TimerFires;
        DeepLClient.FetchSettles 0
          (DeepLClient.Reply true None false (Some ["Hola"])) false])
  = [(0%nat, DeepLClient.Resolved "Hola"); (1%nat, DeepLClient.Resolved "World")].
Proof. vm_compute. reflexivity. Qed.

(** ** Reverting the document *)

Section DomFacts.
Import Dom.

Local Arguments String.eqb : simpl never.

(** Induction on documents, with the hypothesis for every child. *)
Lemma node_ind' (P : node -> Prop) :
  (forall data, P (Text data)) ->
  (forall id tagName attributes classList childNodes,
     Forall P childNodes ->
     P (Element id tagName attributes classList childNodes)) ->
  forall n, P n.
Proof.
  intros HT HE. fix IH 1. intros [d|i t a c ks]; [apply HT|].
  apply HE. revert ks. fix IHks 1. intros [|k ks]; constructor.
  - apply IH.
  - apply IHks.
Qed.

Definition withChildren (ks : list node) (n : node) : node :=
  match n with
  | Text _ => n
  | Element i t a c _ => Element i t a c ks
  end.

(** The [forEach] over a whole forest. *)
Definition forEachForest (elements : list nat) (callback : node -> node)
    (ks : list node) : list node :=
  fold_left (fun ks target => updateElement target callback <$> ks) elements ks.

Lemma updateElement_absent (target : nat) (f : node -> node) (n : node) :
  target ∉ elementIds n -> updateElement target f n = n.
Proof.
  induction n as [d|i t a c ks IH] using node_ind'; intros Hnot; simpl; [done|].
  simpl in Hnot. apply not_elem_of_cons in Hnot as [Hne Hks].
  replace (i =? target)%nat with false by (symmetry; apply Nat.eqb_neq; congruence).
  f_equal. induction IH as [|k ks Hk _ IHks]; simpl; [done|].
  simpl in Hks. rewrite elem_of_app in Hks.
  f_equal; [apply Hk | apply IHks]; tauto.
Qed.

Lemma forEachElement_absent (elements : list nat) (f : node -> node) (n : node) :
  (forall x, x ∈ elements -> x ∉ elementIds n) -> forEachElement elements f n = n.
Proof.
  unfold forEachElement. induction elements as [|x l IH]; intros H; simpl; [done|].
  rewrite updateElement_absent by (apply H; left). apply IH.
  intros y Hy. apply H. by right.
Qed.

Lemma forEachForest_cons (elements : list nat) (f : node -> node) :
  forall (n : node) (ks : list node),
  forEachForest elements f (n :: ks)
  = forEachElement elements f n :: forEachForest elements f ks.
Proof.
  unfold forEachForest, forEachElement.
  induction elements as [|x l IH]; intros n ks; simpl; [done|]. apply IH.
Qed.

Lemma forEachForest_absent (elements : list nat) (f : node -> node)
    (ks : list node) :
  (forall x, x ∈ elements -> x ∉ ks ≫= elementIds) ->
  forEachForest elements f ks = ks.
Proof.
  induction ks as [|k ks IH]; intros H.
  - unfold forEachForest. induction elements as [|x l IHl]; simpl; [done|].
    apply IHl. intros y Hy. apply H. by right.
  - rewrite forEachForest_cons. f_equal.
    + apply forEachElement_absent. intros x Hx Hin. apply (H x Hx).
      simpl. apply elem_of_app. by left.
    + apply IH. intros x Hx Hin. apply (H x Hx).
      simpl. apply elem_of_app. by right.
Qed.

Lemma forEachElement_below (elements : list nat) (f : node -> node)
    (i : nat) (t : string) (a : gmap string string) (c : list string) :
  forall ks, i ∉ elements ->
  forEachElement elements f (Element i t a c ks)
  = Element i t a c (forEachForest elements f ks).
Proof.
  unfold forEachElement, forEachForest.
  induction elements as [|x l IH]; intros ks Hnot; simpl; [done|].
  apply not_elem_of_cons in Hnot as [Hne Hl].
  replace (i =? x)%nat with false by (symmetry; apply Nat.eqb_neq; congruence).
  by apply IH.
Qed.

Lemma forEachElement_app (l1 l2 : list nat) (f : node -> node) (n : node) :
  forEachElement (l1 ++ l2) f n = forEachElement l2 f (forEachElement l1 f n).
Proof. unfold forEachElement. apply fold_left_app. Qed.

Lemma forEachForest_app (l1 l2 : list nat) (f : node -> node) (ks : list node) :
  forEachForest (l1 ++ l2) f ks = forEachForest l2 f (forEachForest l1 f ks).
Proof. unfold forEachForest. apply fold_left_app. Qed.

Lemma querySelectorAll_ids (name : string) (n : node) :
  forall x, x ∈ querySelectorAll name n -> x ∈ elementIds n.
Proof.
  induction n as [d|i t a c ks IH] using node_ind'; intros x; simpl; [done|].
  rewrite elem_of_app, elem_of_cons. intros [Hx|Hx].
  - destruct (hasAttribute name _); [|by apply elem_of_nil in Hx].
    apply list_elem_of_singleton in Hx. by left.
  - right. apply list_elem_of_bind in Hx as (k & Hxk & Hk).
    apply list_elem_of_bind. exists k. split; [|done].
    rewrite Forall_forall in IH. by apply IH.
Qed.

(** *** One [querySelectorAll(...).forEach(...)] as a sweep of the tree

    A callback that keeps the identity of its element and either keeps the
    children or puts element-free children in their place acts, over the
    static list in document order, like one top-down sweep: below an
    element whose children were replaced nothing of the old subtree is in
    the document any more. *)

Section Sweep.
Variable name : string.
Variable callback : node -> node.
Variable keeps : node -> bool.

Hypothesis callback_shape :
  forall i t a c ks,
  exists a' c' ks',
    callback (Element i t a c ks) = Element i t a' c' ks'
    /\ (if keeps (Element i t a c ks) then ks' = ks else ks' ≫= elementIds = []).

Fixpoint sweep (n : node) : node :=
  match n with
  | Text _ => n
  | Element i t a c ks =>
      if hasAttribute name n then
        if keeps n then withChildren (sweep <$> ks) (callback n) else callback n
      else Element i t a c (sweep <$> ks)
  end.

Lemma sweep_ids (n : node) : elementIds (sweep n) `sublist_of` elementIds n.
Proof.
  induction n as [d|i t a c ks IH] using node_ind'; simpl; [done|].
  assert ((sweep <$> ks) ≫= elementIds `sublist_of` ks ≫= elementIds) as Hks.
  { induction IH as [|k ks Hk _ IHks]; simpl; [done|]. by apply sublist_app. }
  destruct (callback_shape i t a c ks) as (a' & c' & ks' & Hcb & Hkeep).
  destruct (hasAttribute name _); [|by apply sublist_skip].
  rewrite Hcb. destruct (keeps _); simpl.
  - by apply sublist_skip.
  - rewrite Hkeep. apply sublist_skip, sublist_nil_l.
Qed.

Lemma sweep_NoDup (n : node) : NoDup (elementIds n) -> NoDup (elementIds (sweep n)).
Proof. intros H. eapply sublist_NoDup; [exact H | apply sweep_ids]. Qed.

Lemma sweep_id_absent (n : node) (x : nat) :
  x ∉ elementIds n -> x ∉ elementIds (sweep n).
Proof.
  intros Hx Hin. apply Hx. eapply elem_of_sublist; [exact Hin | apply sweep_ids].
Qed.

(** The loop over the static list is the sweep. *)
Lemma forEachElement_sweep (n : node) :
  NoDup (elementIds n) ->
  forEachElement (querySelectorAll name n) callback n = sweep n.
Proof.
  induction n as [d|i t a c ks IH] using node_ind'; intros Hnd; [done|].
  simpl in Hnd. apply NoDup_cons in Hnd as [Hi Hks].
  assert (forEachForest (ks ≫= querySelectorAll name) callback ks = sweep <$> ks)
    as Hforest.
  { clear Hi. induction IH as [|k ks Hk _ IHks]; [done|].
    simpl in Hks. apply NoDup_app in Hks as (Hk1 & Hdisj & Hk2).
    simpl. rewrite forEachForest_app, !forEachForest_cons. f_equal.
    + rewrite Hk by done. apply forEachElement_absent.
      intros x Hx. apply sweep_id_absent. intros Hin.
      apply (Hdisj x Hin).
      apply list_elem_of_bind in Hx as (k' & Hxk & Hk').
      apply list_elem_of_bind. exists k'. split; [|done].
      by apply (querySelectorAll_ids name).
    + rewrite (forEachForest_absent (querySelectorAll name k)).
      * by apply IHks.
      * intros x Hx Hin. apply (Hdisj x); [|done].
        by apply (querySelectorAll_ids name). }
  assert (i ∉ ks ≫= querySelectorAll name) as Hi'.
  { intros Hin. apply Hi.
    apply list_elem_of_bind in Hin as (k' & Hxk & Hk').
    apply list_elem_of_bind. exists k'. split; [|done].
    by apply (querySelectorAll_ids name). }
  change (querySelectorAll name (Element i t a c ks))
    with ((if hasAttribute name (Element i t a c ks) then [i] else [])
          ++ (ks ≫= querySelectorAll name)).
  change (sweep (Element i t a c ks))
    with (if hasAttribute name (Element i t a c ks)
          then if keeps (Element i t a c ks)
               then withChildren (sweep <$> ks) (callback (Element i t a c ks))
               else callback (Element i t a c ks)
          else Element i t a c (sweep <$> ks)).
  rewrite forEachElement_app.
  destruct (hasAttribute name (Element i t a c ks)).
  - destruct (callback_shape i t a c ks) as (a' & c' & ks' & Hcb & Hkeep).
    unfold forEachElement at 2. simpl. rewrite Nat.eqb_refl, Hcb.
    destruct (keeps (Element i t a c ks)).
    + subst ks'. rewrite forEachElement_below by done. simpl. by rewrite Hforest.
    + apply forEachElement_absent. intros x Hx. simpl. rewrite Hkeep.
      intros ->%list_elem_of_singleton. done.
  - unfold forEachElement at 2. simpl.
    rewrite forEachElement_below by done. by rewrite Hforest.
Qed.

End Sweep.

(** *** The loops of [revertTranslations] *)

Definition marker (attr : string) : string := "data-original-" +:+ attr.

(** Whether the first callback leaves the children of its element. *)
Definition keepsText (n : node) : bool :=
  negb (JS.truthy_opt (getAttribute "data-original-text" n)
        && negb (String.eqb (textContent n)
                   (default "" (getAttribute "data-original-text" n)))).

Definition sweepText : node -> node :=
  sweep "data-original-text" revertText keepsText.

Definition sweepAttr (attr : string) : node -> node :=
  sweep (marker attr) (revertAttribute attr) (fun _ => true).

Definition sweepAttrs (attrs : list string) (n : node) : node :=
  fold_left (fun doc attr => sweepAttr attr doc) attrs n.

Lemma revertText_shape :
  forall i t a c ks,
  exists a' c' ks',
    revertText (Element i t a c ks) = Element i t a' c' ks'
    /\ (if keepsText (Element i t a c ks) then ks' = ks else ks' ≫= elementIds = []).
Proof.
  intros i t a c ks. unfold revertText, keepsText.
  destruct (JS.truthy_opt _ && negb _) eqn:Hc; simpl.
  - do 3 eexists. split; [reflexivity|]. by destruct (JS.truthy _).
  - do 3 eexists. split; reflexivity.
Qed.

Lemma revertAttribute_shape (attr : string) :
  forall i t a c ks,
  exists a' c' ks',
    revertAttribute attr (Element i t a c ks) = Element i t a' c' ks'
    /\ (if (fun _ : node => true) (Element i t a c ks)
        then ks' = ks else ks' ≫= elementIds = []).
Proof.
  intros i t a c ks. unfold revertAttribute.
  destruct (JS.truthy_opt _); simpl; do 3 eexists; split; reflexivity.
Qed.

(** What the first loop does to one element. *)
Lemma sweepText_root (i : nat) (t : string) (a : gmap string string)
    (c : list string) (ks : list node) :
  sweepText (Element i t a c ks)
  = match a !! "data-original-text" with
    | None => Element i t a c (sweepText <$> ks)
    | Some o =>
        Element i t (delete "data-original-text" a)
          (List.filter (fun x => negb (String.eqb x "translated")) c)
          (if JS.truthy o && negb (String.eqb (textContent (Element i t a c ks)) o)
           then [Text o] else sweepText <$> ks)
    end.
Proof.
  unfold sweepText at 1. simpl. unfold hasAttribute, keepsText, revertText. simpl.
  destruct (a !! "data-original-text") as [o|] eqn:Ho; simpl; [|done].
  destruct (JS.truthy o) eqn:Ht; simpl; [|done].
  destruct (String.eqb _ o); simpl; done.
Qed.

(** What stored value the second loop puts back into the attributes. *)
Definition restoreAttr (attr : string) (a : gmap string string)
  : gmap string string :=
  match a !! marker attr with
  | Some o => if JS.truthy o then delete (marker attr) (<[attr := o]> a) else a
  | None => a
  end.

Lemma sweepAttr_root (attr : string) (i : nat) (t : string)
    (a : gmap string string) (c : list string) (ks : list node) :
  sweepAttr attr (Element i t a c ks)
  = Element i t (restoreAttr attr a) c (sweepAttr attr <$> ks).
Proof.
  unfold sweepAttr at 1. simpl. unfold hasAttribute, revertAttribute, restoreAttr.
  simpl. fold (marker attr).
  destruct (a !! marker attr) as [o|]; simpl; [|done].
  by destruct (JS.truthy o).
Qed.

Definition restoreAttrs (attrs : list string) (a : gmap string string)
  : gmap string string :=
  fold_left (fun a attr => restoreAttr attr a) attrs a.

Lemma sweepAttrs_cons (b : string) (l : list string) (n : node) :
  sweepAttrs (b :: l) n = sweepAttrs l (sweepAttr b n).
Proof. reflexivity. Qed.

Lemma sweepAttrs_root (attrs : list string) :
  forall i t a c ks,
  sweepAttrs attrs (Element i t a c ks)
  = Element i t (restoreAttrs attrs a) c (sweepAttrs attrs <$> ks).
Proof.
  induction attrs as [|b l IH]; intros i t a c ks.
  - simpl. by rewrite list_fmap_id.
  - rewrite sweepAttrs_cons, sweepAttr_root, IH.
    change (restoreAttrs (b :: l) a) with (restoreAttrs l (restoreAttr b a)).
    f_equal.
    rewrite <- list_fmap_compose. apply list_fmap_ext. intros j x _. done.
Qed.

Lemma sweepAttrs_text (attrs : list string) (d : string) :
  sweepAttrs attrs (Text d) = Text d.
Proof. induction attrs as [|b l IH]; [done|]. by rewrite sweepAttrs_cons. Qed.

Lemma textContent_sweepAttrs (attrs : list string) (n : node) :
  textContent (sweepAttrs attrs n) = textContent n.
Proof.
  induction n as [d|i t a c ks IH] using node_ind'.
  - by rewrite sweepAttrs_text.
  - rewrite sweepAttrs_root. simpl.
    induction IH as [|k ks Hk _ IHks]; simpl; [done|]. rewrite Hk. f_equal. exact IHks.
Qed.

(** Under distinct identities [revertTranslations] is the text sweep
    followed by the attribute sweeps. *)
Lemma revertTranslations_sweep (doc : node) :
  NoDup (elementIds doc) ->
  revertTranslations doc = sweepAttrs TRANSLATABLE_ATTRS (sweepText doc).
Proof.
  intros Hnd. unfold revertTranslations.
  rewrite (forEachElement_sweep _ _ _ revertText_shape) by done.
  fold sweepText.
  assert (NoDup (elementIds (sweepText doc))) as Hnd'
    by (by apply sweep_NoDup; [apply revertText_shape|]).
  generalize dependent (sweepText doc). clear Hnd doc.
  unfold sweepAttrs.
  induction TRANSLATABLE_ATTRS as [|b l IH]; intros doc Hnd; simpl; [done|].
  rewrite (forEachElement_sweep _ _ (fun _ => true) (revertAttribute_shape b))
    by done.
  apply IH.
  by apply (sweep_NoDup _ _ (fun _ => true) (revertAttribute_shape b)).
Qed.

Lemma append_empty_r (x : string) : x +:+ "" = x.
Proof.
  induction x as [|ch x IH]; [done|].
  change (String ch (x +:+ "") = String ch x). by rewrite IH.
Qed.

Lemma restoreAttr_other (b : string) (a : gmap string string) (k : string) :
  k <> b -> k <> marker b -> restoreAttr b a !! k = a !! k.
Proof.
  intros H1 H2. unfold restoreAttr.
  destruct (a !! marker b) as [o|]; [|done].
  destruct (JS.truthy o); [|done].
  rewrite lookup_delete_ne by done. by rewrite lookup_insert_ne.
Qed.

Lemma restoreAttr_marker (b : string) (a : gmap string string) (o : string) :
  b <> marker b -> a !! marker b = Some o -> o <> "" ->
  restoreAttr b a !! b = Some o /\ restoreAttr b a !! marker b = None.
Proof.
  intros Hne Ho Ht. unfold restoreAttr. rewrite Ho.
  assert (JS.truthy o = true) as -> by (by destruct o).
  rewrite lookup_delete_eq. split; [|done].
  rewrite lookup_delete_ne by done. by rewrite lookup_insert_eq.
Qed.

Lemma restoreAttrs_other (attrs : list string) (k : string) :
  forall a, (forall b, b ∈ attrs -> k <> b /\ k <> marker b) ->
  restoreAttrs attrs a !! k = a !! k.
Proof.
  induction attrs as [|x l IH]; intros a H; [done|].
  unfold restoreAttrs. simpl. fold (restoreAttrs l (restoreAttr x a)).
  rewrite IH by (intros b Hb; apply H; by right).
  destruct (H x) as [H1 H2]; [left|]. by apply restoreAttr_other.
Qed.

Lemma restoreAttrs_marker (attrs : list string) (b o : string) :
  forall a, NoDup attrs -> b ∈ attrs -> b <> marker b ->
  (forall b', b' ∈ attrs -> b' <> b ->
     b <> marker b' /\ marker b <> b' /\ marker b <> marker b') ->
  a !! marker b = Some o -> o <> "" ->
  restoreAttrs attrs a !! b = Some o /\ restoreAttrs attrs a !! marker b = None.
Proof.
  induction attrs as [|x l IH]; intros a Hnd Hin Hself Hdist Ho Ht;
    [by apply elem_of_nil in Hin|].
  apply NoDup_cons in Hnd as [Hx Hnd].
  unfold restoreAttrs. simpl. fold (restoreAttrs l (restoreAttr x a)).
  destruct (decide (x = b)) as [->|Hne].
  - destruct (restoreAttr_marker b a o Hself Ho Ht) as [H1 H2].
    assert (forall b', b' ∈ l -> b' <> b) as Hl by (intros b' Hb' ->; done).
    rewrite !restoreAttrs_other; [done| |].
    + intros b' Hb'. destruct (Hdist b') as (? & ? & ?); [by right|by apply Hl|].
      done.
    + intros b' Hb'. destruct (Hdist b') as (? & ? & ?); [by right|by apply Hl|].
      split; [|done]. intros ->. by apply (Hl b').
  - apply elem_of_cons in Hin as [->|Hin]; [done|].
    apply IH; try done.
    + intros b' Hb'. apply Hdist. by right.
    + destruct (Hdist x) as (? & ? & ?); [left|done|].
      by rewrite restoreAttr_other.
Qed.

Ltac string_neq := let H := fresh in intros H; vm_compute in H; discriminate H.

Lemma TRANSLATABLE_ATTRS_NoDup : NoDup TRANSLATABLE_ATTRS.
Proof.
  unfold TRANSLATABLE_ATTRS.
  repeat (apply NoDup_cons; split;
          [rewrite ?elem_of_cons, elem_of_nil; intros H;
           repeat (destruct H as [H|H]; [discriminate H|]); exact H|]).
  apply NoDup_nil. done.
Qed.

Lemma attribute_keys_distinct (b : string) :
  b ∈ TRANSLATABLE_ATTRS ->
  b <> marker b
  /\ "data-original-text" <> b
  /\ "data-original-text" <> marker b
  /\ (forall b', b' ∈ TRANSLATABLE_ATTRS -> b' <> b ->
        b <> marker b' /\ marker b <> b' /\ marker b <> marker b').
Proof.
  unfold TRANSLATABLE_ATTRS. rewrite ?elem_of_cons, elem_of_nil.
  intros Hb.
  repeat (destruct Hb as [->|Hb]);
    [| | | | | |done];
    (split; [string_neq|]; split; [string_neq|]; split; [string_neq|];
     intros b'; rewrite ?elem_of_cons, elem_of_nil; intros Hb' Hne;
     repeat (destruct Hb' as [->|Hb']); try done;
     (split; [string_neq|]; split; string_neq)).
Qed.

(** Without a marked element in it, a subtree is left as it is by the
    first loop. *)
Lemma sweepText_unmarked (n : node) :
  (forall d, d ∈ elementsOf n -> hasAttribute "data-original-text" d = false) ->
  sweepText n = n.
Proof.
  induction n as [d|i t a c ks IH] using node_ind'; intros H; [done|].
  rewrite sweepText_root.
  assert (a !! "data-original-text" = None) as ->.
  { specialize (H (Element i t a c ks) ltac:(left)). unfold hasAttribute in H.
    simpl in H. by destruct (a !! "data-original-text"). }
  f_equal.
  assert (forall d, d ∈ ks ≫= elementsOf ->
                    hasAttribute "data-original-text" d = false) as Hks
    by (intros d Hd; apply H; by right).
  clear H. induction IH as [|k ks Hk _ IHks]; [done|].
  rewrite fmap_cons. f_equal.
  - apply Hk. intros d Hd. apply Hks. rewrite bind_cons. apply elem_of_app. by left.
  - apply IHks. intros d Hd. apply Hks. rewrite bind_cons. apply elem_of_app. by right.
Qed.

(** What the two sweeps make of one element. *)
Lemma element_reverted (i : nat) (t : string) (a : gmap string string)
    (c : list string) (ks : list node) :
  let e := Element i t a c ks in
  let e' := sweepAttrs TRANSLATABLE_ATTRS (sweepText e) in
  idOf e' = Some i
  /\ getAttribute "data-original-text" e' = None
  /\ (hasAttribute "data-original-text" e = true -> "translated" ∉ classListOf e')
  /\ (forall o, getAttribute "data-original-text" e = Some o -> o <> "" ->
        textContent e <> o ->
        childNodesOf e' = [Text o] /\ textContent e' = o)
  /\ (forall o, getAttribute "data-original-text" e = Some o -> o <> "" ->
        (forall d, d ∈ ks ≫= elementsOf ->
                   hasAttribute "data-original-text" d = false) ->
        textContent e' = o)
  /\ (forall attr o, attr ∈ TRANSLATABLE_ATTRS ->
        getAttribute (marker attr) e = Some o -> o <> "" ->
        getAttribute attr e' = Some o /\ getAttribute (marker attr) e' = None).
Proof.
  intros e e'. subst e'.
  assert (forall o, a !! "data-original-text" = Some o -> o <> "" ->
          textContent e <> o ->
          sweepText e
          = Element i t (delete "data-original-text" a)
              (List.filter (fun x => negb (String.eqb x "translated")) c)
              [Text o]) as Hrepl.
  { intros o Ho Ht Hne. subst e. rewrite sweepText_root, Ho.
    assert (JS.truthy o = true) as -> by (by destruct o).
    apply String.eqb_neq in Hne. by rewrite Hne. }
  assert (exists a1 c1 ks1,
            sweepText e = Element i t a1 c1 ks1
            /\ a1 !! "data-original-text" = None
            /\ (forall k, k <> "data-original-text" -> a1 !! k = a !! k)
            /\ (hasAttribute "data-original-text" e = true -> "translated" ∉ c1))
    as (a1 & c1 & ks1 & Hst & Hdot & Hrest & Hcls).
  { subst e. rewrite sweepText_root. unfold hasAttribute. simpl.
    destruct (a !! "data-original-text") as [o|] eqn:Ho.
    - do 3 eexists. split; [reflexivity|]. split; [apply lookup_delete_eq|].
      split; [intros k Hk; by rewrite lookup_delete_ne|].
      intros _ Hin. apply list_elem_of_In, filter_In in Hin as [_ Hf].
      by rewrite String.eqb_refl in Hf.
    - do 3 eexists. split; [reflexivity|]. split; [done|]. split; [done|].
      discriminate. }
  assert (sweepAttrs TRANSLATABLE_ATTRS (sweepText e)
          = Element i t (restoreAttrs TRANSLATABLE_ATTRS a1) c1
              (sweepAttrs TRANSLATABLE_ATTRS <$> ks1)) as Hfin
    by (by rewrite Hst, sweepAttrs_root).
  split; [by rewrite Hfin|]. split.
  { rewrite Hfin. cbn [getAttribute].
    rewrite restoreAttrs_other; [done|].
    intros b Hb. destruct (attribute_keys_distinct b Hb) as (_ & ? & ? & _). done. }
  split; [by rewrite Hfin|]. split.
  { intros o Ho Ht Hne. rewrite textContent_sweepAttrs.
    rewrite (Hrepl o Ho Ht Hne), sweepAttrs_root.
    cbn [childNodesOf]. rewrite fmap_cons, sweepAttrs_text.
    split; [done|]. simpl. apply append_empty_r. }
  split.
  { intros o Ho Ht Hfree. rewrite textContent_sweepAttrs.
    destruct (decide (textContent e = o)) as [Heq|Hne].
    - subst e. rewrite sweepText_root. cbn [getAttribute] in Ho. rewrite Ho.
      rewrite Heq, String.eqb_refl, andb_false_r.
      assert (sweepText <$> ks = ks) as ->; [|exact Heq].
      clear -Hfree. induction ks as [|k ks IH]; [done|].
      rewrite fmap_cons. f_equal.
      + apply sweepText_unmarked. intros d Hd. apply Hfree.
        rewrite bind_cons. apply elem_of_app. by left.
      + apply IH. intros d Hd. apply Hfree.
        rewrite bind_cons. apply elem_of_app. by right.
    - rewrite (Hrepl o Ho Ht Hne). simpl. apply append_empty_r. }
  intros attr o Hattr Ho Ht. cbn [getAttribute] in Ho.
  destruct (attribute_keys_distinct attr Hattr) as (Hself & Hd1 & Hd2 & Hdist).
  rewrite Hfin. cbn [getAttribute].
  apply restoreAttrs_marker; try done.
  - apply TRANSLATABLE_ATTRS_NoDup.
  - rewrite Hrest by done. exact Ho.
Qed.

(** The elements that stay in the document: an element does, and so do
    the elements kept below it unless its children are replaced. *)
Fixpoint kept (n : node) : list node :=
  match n with
  | Text _ => []
  | Element _ _ _ _ childNodes =>
      n :: (if keepsText n then childNodes ≫= kept else [])
  end.

Lemma keepsText_root (i : nat) (t : string) (a : gmap string string)
    (c : list string) (ks : list node) :
  keepsText (Element i t a c ks)
  = match a !! "data-original-text" with
    | None => true
    | Some o => negb (JS.truthy o
                      && negb (String.eqb (textContent (Element i t a c ks)) o))
    end.
Proof. unfold keepsText. simpl. by destruct (a !! "data-original-text"). Qed.

Lemma elementsOf_sweepText (n : node) :
  elementsOf (sweepText n) = sweepText <$> kept n.
Proof.
  induction n as [d|i t a c ks IH] using node_ind'; [done|].
  assert ((sweepText <$> ks) ≫= elementsOf = sweepText <$> (ks ≫= kept)) as Hks.
  { induction IH as [|k ks Hk _ IHks]; [done|].
    rewrite fmap_cons, !bind_cons, fmap_app. by rewrite Hk, IHks. }
  cbn [kept]. rewrite fmap_cons, keepsText_root.
  rewrite (sweepText_root i t a c ks).
  destruct (a !! "data-original-text") as [o|]; cbn [elementsOf].
  - destruct (JS.truthy o && negb _); simpl; [done|]. by rewrite Hks.
  - by rewrite Hks.
Qed.

Lemma elementsOf_sweepAttrs_eq (attrs : list string) (n : node) :
  elementsOf (sweepAttrs attrs n) = sweepAttrs attrs <$> elementsOf n.
Proof.
  induction n as [d|i t a c ks IH] using node_ind';
    [by rewrite sweepAttrs_text|].
  rewrite sweepAttrs_root. cbn [elementsOf]. rewrite fmap_cons.
  rewrite sweepAttrs_root. f_equal.
  induction IH as [|k ks Hk _ IHks]; [done|].
  rewrite fmap_cons, !bind_cons, fmap_app. by rewrite Hk, IHks.
Qed.

Lemma kept_elementsOf (n : node) : forall e, e ∈ kept n -> e ∈ elementsOf n.
Proof.
  induction n as [d|i t a c ks IH] using node_ind'; intros e; [done|].
  cbn [kept elementsOf]. rewrite !elem_of_cons. intros [->|Hin]; [by left|].
  right. destruct (keepsText _); [|by apply elem_of_nil in Hin].
  apply list_elem_of_bind in Hin as (k & Hek & Hk).
  apply list_elem_of_bind. exists k. split; [|done].
  rewrite Forall_forall in IH. by apply IH.
Qed.

Lemma kept_is_element (n e : node) :
  e ∈ kept n -> exists i t a c ks, e = Element i t a c ks.
Proof.
  induction n as [d|i t a c ks IH] using node_ind'; [by intros ?%elem_of_nil|].
  cbn [kept]. rewrite elem_of_cons. intros [->|Hin]; [by do 5 eexists|].
  destruct (keepsText _); [|by apply elem_of_nil in Hin].
  apply list_elem_of_bind in Hin as (k & Hek & Hk).
  rewrite Forall_forall in IH. by apply (IH k).
Qed.

(** How an element [e'] of the reverted document relates to the element
    [e] of the document it comes from. *)
Definition revertedFrom (e e' : node) : Prop :=
  idOf e' = idOf e
  /\ getAttribute "data-original-text" e' = None
  /\ (hasAttribute "data-original-text" e = true -> "translated" ∉ classListOf e')
  /\ (forall o, getAttribute "data-original-text" e = Some o -> o <> "" ->
        textContent e <> o ->
        childNodesOf e' = [Text o] /\ textContent e' = o)
  /\ (forall o, getAttribute "data-original-text" e = Some o -> o <> "" ->
        (forall d, d ∈ childNodesOf e ≫= elementsOf ->
                   hasAttribute "data-original-text" d = false) ->
        textContent e' = o)
  /\ (forall attr o, attr ∈ TRANSLATABLE_ATTRS ->
        getAttribute ("data-original-" +:+ attr) e = Some o -> o <> "" ->
        getAttribute attr e' = Some o
        /\ getAttribute ("data-original-" +:+ attr) e' = None).

(** What the switch to the default language does achieve. The effect run
    for "en" after the first mount, whatever the previous language, schedules
    nothing and reverts the document: the elements of the new document are,
    in document order, the elements that stay (those not below an element
    whose children are replaced), each with its identity; none carries
    [data-original-text] any more; an element that carried it has lost the
    class "translated", and if the stored text is non-empty and differs
    from its text content, its children are replaced by one text node
    holding the stored text; a marked element with a non-empty stored text
    and no marked element below it ends with exactly the stored text; and
    every translatable attribute with a non-empty stored value has that
    value again and has lost its marker. *)
Theorem revert_on_switch_to_default (t : translator) :
  isInitialMountRef t = false ->
  NoDup (elementIds (document t)) ->
  let t' := (languageEffect "en" t).1 in
  (languageEffect "en" t).2 = []
  /\ previousLanguageRef t' = "en"
  /\ document t' = revertTranslations (document t)
  /\ Forall2 revertedFrom (kept (document t)) (elementsOf (document t'))
  /\ (forall e, e ∈ kept (document t) -> e ∈ elementsOf (document t)).
Proof.
  intros Hmount Hnd t'. subst t'. unfold languageEffect. rewrite Hmount. simpl.
  split; [done|]. split; [done|]. split; [done|].
  split; [|apply kept_elementsOf].
  rewrite revertTranslations_sweep by done.
  rewrite elementsOf_sweepAttrs_eq, elementsOf_sweepText.
  rewrite <- list_fmap_compose. apply Forall2_fmap_r, Forall2_same_length_lookup.
  split; [done|]. intros j e e0 He He0. rewrite He in He0. injection He0 as <-.
  destruct (kept_is_element (document t) e) as (i & tg & a & c & ks & ->);
    [by eapply list_elem_of_lookup_2|].
  apply (element_reverted i tg a c ks).
Qed.

End DomFacts.

Definition nestedDoc : Dom.node :=
  Dom.Element 1 "DIV" {[ "data-original-text" := "ab cd" ]} ["translated"]
    [ Dom.Text "ab";
      Dom.Element 2 "SPAN" {[ "data-original-text" := "xy" ]} ["translated"]
        [ Dom.Text " cd" ] ].

(** The property of the claim: after the switch every element that
    carried a marker shows its stored text and stored attribute values and
    has lost its markers. *)
Definition restoredAsStored (t : Dom.translator) : Prop :=
  forall e e',
    e ∈ Dom.elementsOf (Dom.document t) ->
    e' ∈ Dom.elementsOf (Dom.document (Dom.languageEffect "en" t).1) ->
    Dom.idOf e' = Dom.idOf e ->
    (forall o, Dom.getAttribute "data-original-text" e = Some o ->
               Dom.textContent e' = o)
    /\ (forall attr o, attr ∈ Dom.TRANSLATABLE_ATTRS ->
          Dom.getAttribute ("data-original-" +:+ attr) e = Some o ->
          Dom.getAttribute attr e' = Some o
          /\ Dom.getAttribute ("data-original-" +:+ attr) e' = None).

(** The translator showing [nestedDoc] in Spanish. *)
Definition nestedPage : Dom.translator :=
  {| Dom.document := nestedDoc;
     Dom.previousLanguageRef := "es";
     Dom.isInitialMountRef := false |}.

(** C4, at a document where the code departs from it. [nestedDoc] is what
    translating "ab cd" to "ab" and "xy" to " cd" makes of
    [<div>ab cd<span>xy</span></div>]: both elements carry their stored
    text and the class "translated". On the switch to the default language
    [revertTranslations] compares the text content of the outer element,
    "ab" followed by " cd", with its stored text "ab cd", finds them equal
    and leaves its children alone; it then restores the inner element, and
    the outer element reads "abxy". The markers of both elements are
    cleared, but the translation "ab" stays in the document and the stored
    text "ab cd" is not restored. *)
Theorem revert_keeps_a_translation :
  let reverted := Dom.document (Dom.languageEffect "en" nestedPage).1 in
  Dom.getAttribute "data-original-text" nestedDoc = Some "ab cd"
  /\ Dom.textContent nestedDoc = "ab cd"
  /\ reverted
     = Dom.Element 1 "DIV" ∅ []
         [ Dom.Text "ab"; Dom.Element 2 "SPAN" ∅ [] [ Dom.Text "xy" ] ]
  /\ Dom.textContent reverted = "abxy"
  /\ Dom.childNodesOf reverted !! 0%nat = Some (Dom.Text "ab")
  /\ ~ restoredAsStored nestedPage
  /\ ~ (forall t, Dom.isInitialMountRef t = false ->
                  NoDup (Dom.elementIds (Dom.document t)) ->
                  restoredAsStored t).
Proof.
  assert (~ restoredAsStored nestedPage) as Hno.
  { intros H.
    destruct (H nestedDoc
                (Dom.Element 1 "DIV" ∅ []
                   [ Dom.Text "ab"; Dom.Element 2 "SPAN" ∅ [] [ Dom.Text "xy" ] ]))
      as [Htext _].
    - vm_compute. left.
    - vm_compute. left.
    - reflexivity.
    - specialize (Htext "ab cd" eq_refl). vm_compute in Htext. discriminate Htext. }
  do 5 (split; [vm_compute; reflexivity|]).
  split; [exact Hno|].
  intros H. apply Hno, H; [reflexivity|].
  vm_compute.
  repeat (apply NoDup_cons_2; [rewrite ?elem_of_cons, elem_of_nil; lia|]).
  apply NoDup_nil_2.
Qed.

Definition translatedPage : Dom.translator :=
  {| Dom.document :=
       Dom.Element 0 "BODY" ∅ []
         [ Dom.Element 1 "P" {[ "data-original-text" := "Hello world" ]} ["translated"]
             [ Dom.Text "Hola mundo" ];
           Dom.Element 2 "IMG" {[ "alt" := "Gato"; "data-original-alt" := "Cat" ]} []
             [] ];
     Dom.previousLanguageRef := "es";
     Dom.isInitialMountRef := false |}.

(** The switch on a page in which no marked element lies inside another. *)
Lemma revert_on_switch_to_default_witness :
  Dom.document (Dom.languageEffect "en" translatedPage).1
  = Dom.Element 0 "BODY" ∅ []
      [ Dom.Element 1 "P" ∅ [] [ Dom.Text "Hello world" ];
        Dom.Element 2 "IMG" {[ "alt" := "Cat" ]} [] [] ]
  /\ Forall2 revertedFrom (kept (Dom.document translatedPage))
       (Dom.elementsOf (Dom.document (Dom.languageEffect "en" translatedPage).1)).
Proof.
  split; [vm_compute; reflexivity|].
  apply (revert_on_switch_to_default translatedPage).
  - reflexivity.
  - vm_compute.
    repeat (apply NoDup_cons_2; [rewrite ?elem_of_cons, elem_of_nil; lia|]).
    apply NoDup_nil_2.
Defined.

(** * Further properties *)

(** ** Further properties of the server side *)

Section ServerFacts.
Variable hashContent : string -> string.
Variable env : Cache.db_env.
Hypothesis read_ok : Cache.read_throws env = false.
Hypothesis write_ok : Cache.write_throws env = false.
Local Arguments String.eqb : simpl never.

(** The unique key under which [setCachedTranslation] stores a row. *)
Definition rowKey (params : Cache.SetCachedTranslationParams)
  : string * string * string * string :=
  (Cache.p_entityType params, Cache.p_entityId params,
   Cache.p_fieldName params, Cache.p_targetLanguage params).

(** Reading the key just written. *)
Lemma getCachedTranslationWithHash_written
    (db : gmap (string * string * string * string) Cache.translation_row)
    (params : Cache.SetCachedTranslationParams) (hash : string) :
  Cache.getCachedTranslationWithHash env
    (Cache.setCachedTranslation env db params)
    (Cache.p_entityType params) (Cache.p_entityId params)
    (Cache.p_fieldName params) (Cache.p_targetLanguage params) hash
  = (if String.eqb (Cache.p_sourceHash params) hash
     then Some (Cache.p_translatedContent params) else None).
Proof.
  unfold Cache.getCachedTranslationWithHash, Cache.setCachedTranslation.
  rewrite read_ok, write_ok. rewrite lookup_insert_eq. reflexivity.
Qed.

(** X1. With a working database, a row written by [setCachedTranslation]
    is read back by [getCachedTranslationWithHash] exactly when the hash
    asked for is the hash stored: the same hash gives the stored content,
    any other hash a miss; the rows under every other key read as before. *)
Theorem setCachedTranslation_getCachedTranslationWithHash
    (db : gmap (string * string * string * string) Cache.translation_row)
    (params : Cache.SetCachedTranslationParams) (hash : string) :
  Cache.getCachedTranslationWithHash env
    (Cache.setCachedTranslation env db params)
    (Cache.p_entityType params) (Cache.p_entityId params)
    (Cache.p_fieldName params) (Cache.p_targetLanguage params) hash
  = (if String.eqb (Cache.p_sourceHash params) hash
     then Some (Cache.p_translatedContent params) else None)
  /\ forall entityType entityId fieldName targetLanguage,
       (entityType, entityId, fieldName, targetLanguage) <> rowKey params ->
       Cache.getCachedTranslationWithHash env
         (Cache.setCachedTranslation env db params)
         entityType entityId fieldName targetLanguage hash
       = Cache.getCachedTranslationWithHash env db
           entityType entityId fieldName targetLanguage hash.
Proof.
  split; [apply getCachedTranslationWithHash_written|].
  unfold Cache.getCachedTranslationWithHash, Cache.setCachedTranslation, rowKey.
  rewrite read_ok, write_ok.
  intros et eid fn tl Hne. rewrite lookup_insert_ne by congruence. reflexivity.
Qed.

Section Repeat.
Variables (DEEPL_API_KEY DEEPL_API_KEY' : option string).
Variables (toUpperCase toUpperCase' : string -> string).
Variables (fetch fetch' : DeepL.deepl_request -> DeepL.deepl_reply).

(** [translateForUser] is [translateForUserStarted] with its write landed. *)
Lemma translateForUser_landed
    (db : gmap (string * string * string * string) Cache.translation_row)
    (params : Translation.TranslateForUserParams) :
  Translation.translateForUser hashContent DEEPL_API_KEY toUpperCase fetch env
    db params
  = let r := Translation.translateForUserStarted hashContent DEEPL_API_KEY
               toUpperCase fetch env db params in
    (r.1, Translation.landed env r.2 db).
Proof.
  unfold Translation.translateForUser, Translation.translateForUserStarted.
  destruct (String.eqb _ _); [reflexivity|].
  destruct (negb (JS.truthy (Translation.content params)) || _); [reflexivity|].
  destruct (JS.truthy_opt _); reflexivity.
Qed.

(** X2. [translateForUser] does not await its cache write. With a working
    database, once the write started by a call that returned a non-empty
    text has landed, the same call made again returns the same text and
    starts no write, whatever the provider would now reply. (So the
    original content cached after a provider failure keeps being served
    once the provider works again.) A repeat that runs before the write
    has landed finds the table as the first call found it, and returns
    what the provider replies to it. *)
Theorem translateForUser_repeat
    (db : gmap (string * string * string * string) Cache.translation_row)
    (params : Translation.TranslateForUserParams) :
  let first := Translation.translateForUserStarted hashContent DEEPL_API_KEY
                 toUpperCase fetch env db params in
  JS.truthy first.1 = true ->
  Translation.translateForUserStarted hashContent DEEPL_API_KEY' toUpperCase'
    fetch' env (Translation.landed env first.2 db) params
  = (first.1, None)
  /\ (first.2 <> None ->
      (Translation.translateForUserStarted hashContent DEEPL_API_KEY'
         toUpperCase' fetch' env db params).1
      = (DeepL.translateText DEEPL_API_KEY' toUpperCase' fetch'
           (Translation.content params) (Translation.sourceLanguage params)
           (Translation.targetLanguage params)).1).
Proof.
  cbv zeta. unfold Translation.translateForUserStarted.
  destruct (String.eqb _ _) eqn:Hlang; [by split|].
  destruct (negb (JS.truthy (Translation.content params)) || _) eqn:Hblank;
    [by split|].
  destruct (JS.truthy_opt (Cache.getCachedTranslationWithHash env db _ _ _ _ _))
    eqn:Hhit.
  - cbn [fst snd Translation.landed]. intros _. rewrite Hhit. by split.
  - cbn [fst snd Translation.landed]. intros Htr. split; [|done].
    pose proof (getCachedTranslationWithHash_written db
      {| Cache.p_entityType := Translation.entityType params;
         Cache.p_entityId := Translation.entityId params;
         Cache.p_fieldName := Translation.fieldName params;
         Cache.p_sourceLanguage := Translation.sourceLanguage params;
         Cache.p_sourceHash := hashContent (Translation.content params);
         Cache.p_targetLanguage := Translation.targetLanguage params;
         Cache.p_translatedContent :=
           (DeepL.translateText DEEPL_API_KEY toUpperCase fetch
              (Translation.content params) (Translation.sourceLanguage params)
              (Translation.targetLanguage params)).1;
         Cache.p_modelProvider := Translation.MODEL_PROVIDER;
         Cache.p_modelVersion := Translation.MODEL_VERSION;
         Cache.p_confidenceScore := None |}
      (hashContent (Translation.content params))) as Hget.
    cbn [Cache.p_entityType Cache.p_entityId Cache.p_fieldName
         Cache.p_targetLanguage Cache.p_sourceHash Cache.p_translatedContent]
      in Hget.
    rewrite String.eqb_refl in Hget. rewrite Hget.
    cbn [JS.truthy_opt default]. rewrite Htr. reflexivity.
Qed.
End Repeat.

(** X3. With a working database, [deleteCachedTranslations] leaves no row
    of the entity behind, whatever the field and the target language, and
    touches no row of another entity. *)
Theorem deleteCachedTranslations_entity
    (db : gmap (string * string * string * string) Cache.translation_row)
    (entityType entityId : string) :
  (forall fieldName targetLanguage,
     Cache.getCachedTranslation env
       (Cache.deleteCachedTranslations env db entityType entityId)
       entityType entityId fieldName targetLanguage = None
     /\ forall hash,
          Cache.getCachedTranslationWithHash env
            (Cache.deleteCachedTranslations env db entityType entityId)
            entityType entityId fieldName targetLanguage hash = None)
  /\ forall entityType' entityId' fieldName targetLanguage,
       (entityType', entityId') <> (entityType, entityId) ->
       Cache.deleteCachedTranslations env db entityType entityId
         !! (entityType', entityId', fieldName, targetLanguage)
       = db !! (entityType', entityId', fieldName, targetLanguage).
Proof.
  unfold Cache.deleteCachedTranslations, Cache.getCachedTranslation,
    Cache.getCachedTranslationWithHash.
  rewrite read_ok, write_ok. split.
  - intros fn tl.
    assert (filter
              (fun kv : (string * string * string * string) * Cache.translation_row =>
                 ~ (kv.1.1.1.1 = entityType /\ kv.1.1.1.2 = entityId)) db
              !! (entityType, entityId, fn, tl) = None) as ->.
    { apply map_lookup_filter_None. right. intros x _ H. apply H. done. }
    done.
  - intros et' eid' fn tl Hne.
    destruct (db !! (et', eid', fn, tl)) as [row|] eqn:Hrow.
    + apply map_lookup_filter_Some. split; [done|].
      cbn. intros [-> ->]. done.
    + apply map_lookup_filter_None. by left.
Qed.

End ServerFacts.
Section DetectFacts.
Variable DEEPL_API_KEY : option string.
Variable fetch : DeepL.deepl_request -> DeepL.deepl_reply.
Local Arguments String.eqb : simpl never.

(** A language code in the form the rest of the system compares: not
    empty, in lower case, and without a region suffix. *)
Definition plainCode (code : string) : Prop :=
  code <> "" /\ JS.toLowerCase code = code /\ JS.splitDash0 code = code.

Lemma fromDeepLLanguage_lower (code : string) :
  JS.toLowerCase (DeepL.fromDeepLLanguage code) = DeepL.fromDeepLLanguage code.
Proof.
  unfold DeepL.fromDeepLLanguage.
  induction code as [|c r IH]; [done|].
  rewrite splitDash0_cons. destruct (Ascii.eqb c "-"); [done|].
  cbn [JS.toLowerCase]. by rewrite lowerChar_idem, IH.
Qed.

Lemma fromDeepLLanguage_base (code : string) :
  JS.splitDash0 (DeepL.fromDeepLLanguage code) = DeepL.fromDeepLLanguage code.
Proof.
  unfold DeepL.fromDeepLLanguage.
  induction code as [|c r IH]; [done|].
  rewrite splitDash0_cons. destruct (Ascii.eqb c "-") eqn:Hc; [done|].
  cbn [JS.toLowerCase]. rewrite splitDash0_cons, lowerChar_dash, Hc.
  by rewrite IH.
Qed.

Lemma slice0_length (n : nat) (s : string) :
  (String.length (JS.slice0 n s) <= n)%nat.
Proof.
  unfold JS.slice0. revert s.
  induction n as [|n IH]; intros [|c r]; simpl; try lia.
  specialize (IH r). lia.
Qed.

Lemma slice0_prefix (n : nat) (s : string) :
  String.prefix (JS.slice0 n s) s = true.
Proof.
  unfold JS.slice0. revert s.
  induction n as [|n IH]; intros [|c r]; simpl; try done.
  rewrite IH. by destruct (ascii_dec c c).
Qed.

Lemma slice0_idem (n : nat) (s : string) :
  JS.slice0 n (JS.slice0 n s) = JS.slice0 n s.
Proof.
  unfold JS.slice0. revert s.
  induction n as [|n IH]; intros [|c r]; simpl; try done.
  by rewrite IH.
Qed.

(** The request [detectLanguageViaTranslation] sends for [text]. *)
Definition detectionRequest (text : string) : DeepL.deepl_request :=
  {| DeepL.req_text := [JS.slice0 200 text];
     DeepL.req_source_lang := None;
     DeepL.req_target_lang := "EN-US" |}.

(** X4. [detectLanguage] always answers with a usable language code: it
    is never empty, it is in lower case and it carries no region suffix,
    whatever the provider replies. It sends the provider nothing or one
    request, which carries the first 200 code units of the text at most;
    and without a credential or for a blank text it sends nothing and
    answers "en". *)
Theorem detectLanguage_code (text : string) :
  let r := DeepL.detectLanguage DEEPL_API_KEY fetch text in
  plainCode r.1
  /\ (r.2 = [] \/ r.2 = [detectionRequest text])
  /\ (String.length (JS.slice0 200 text) <= 200)%nat
  /\ String.prefix (JS.slice0 200 text) text = true
  /\ (JS.truthy_opt DEEPL_API_KEY = false \/ JS.truthy (JS.trim text) = false ->
      r = ("en", [])).
Proof.
  cbv zeta.
  assert (plainCode "en") as Hen by (repeat split; done).
  assert (forall code, plainCode (JS.or_else (DeepL.fromDeepLLanguage code) "en"))
    as Hcode.
  { intros code. unfold JS.or_else.
    destruct (JS.truthy (DeepL.fromDeepLLanguage code)) eqn:Ht; [|done].
    split; [by intros E; rewrite E in Ht|].
    split; [apply fromDeepLLanguage_lower | apply fromDeepLLanguage_base]. }
  split; [|split; [|split; [apply slice0_length|split; [apply slice0_prefix|]]]].
  - unfold DeepL.detectLanguage, DeepL.detectLanguageViaTranslation.
    destruct (negb (JS.truthy text) || negb (JS.truthy (JS.trim text))); [done|].
    destruct (negb (JS.truthy_opt DEEPL_API_KEY)); [done|].
    destruct (negb (JS.truthy (JS.trim (JS.slice0 200 text)))); [done|].
    destruct (fetch _) as [| |[[|t ts]|]]; try done.
    cbn [fst]. destruct (DeepL.detected_source_language t) as [d|]; [|done].
    cbn [JS.truthy_opt]. destruct (JS.truthy d) eqn:Hd; [|done].
    apply Hcode.
  - unfold DeepL.detectLanguage, DeepL.detectLanguageViaTranslation.
    destruct (negb (JS.truthy text) || negb (JS.truthy (JS.trim text)));
      [by left|].
    destruct (negb (JS.truthy_opt DEEPL_API_KEY)); [by left|].
    destruct (negb (JS.truthy (JS.trim (JS.slice0 200 text)))); [by left|].
    rewrite slice0_idem. fold (detectionRequest text).
    right. by destruct (fetch _) as [| |[[|t ts]|]].
  - unfold DeepL.detectLanguage, DeepL.detectLanguageViaTranslation.
    intros [Hkey|Hblank].
    + rewrite Hkey. cbn [negb].
      by destruct (negb (JS.truthy text) || negb (JS.truthy (JS.trim text))).
    + rewrite Hblank. cbn [negb]. by rewrite orb_true_r.
Qed.

End DetectFacts.
Section EntityFacts.
Variable hashContent : string -> string.
Variable DEEPL_API_KEY : option string.
Variable toUpperCase : string -> string.
Variable fetch : DeepL.deepl_request -> DeepL.deepl_reply.
Variable env : Cache.db_env.
Local Arguments String.eqb : simpl never.

Local Abbreviation translateForUser :=
  (Translation.translateForUser hashContent DEEPL_API_KEY toUpperCase fetch env).
Local Abbreviation translatePostForUser :=
  (Translation.translatePostForUser hashContent DEEPL_API_KEY toUpperCase fetch env).
Local Abbreviation translateCommentForUser :=
  (Translation.translateCommentForUser hashContent DEEPL_API_KEY toUpperCase fetch env).
Local Abbreviation translateUIText :=
  (Translation.translateUIText hashContent DEEPL_API_KEY toUpperCase fetch env).

(** A field that is absent, [null] or empty. *)
Definition missing (field : option string) : Prop := JS.truthy_opt field = false.

(** [translateForUser] changes the table at one key at most: the key of
    its parameters. *)
Lemma translateForUser_frame
    (db : gmap (string * string * string * string) Cache.translation_row)
    (params : Translation.TranslateForUserParams)
    (k : string * string * string * string) :
  k <> (Translation.entityType params, Translation.entityId params,
        Translation.fieldName params, Translation.targetLanguage params) ->
  (translateForUser db params).2 !! k = db !! k.
Proof.
  intros Hk. unfold Translation.translateForUser.
  destruct (String.eqb _ _); [done|].
  destruct (negb _ || _); [done|].
  destruct (JS.truthy_opt _); [done|].
  cbn [snd]. unfold Cache.setCachedTranslation.
  destruct (Cache.write_throws env); [done|].
  cbn [Cache.p_entityType Cache.p_entityId Cache.p_fieldName
       Cache.p_targetLanguage].
  by rewrite lookup_insert_ne.
Qed.

(** X5. [translatePostForUser] returns a post with the same id, language
    code and other fields; a [plainText] or [title] that is missing or
    empty comes back as it was, so no field appears or disappears; a post
    already in the user's language comes back unchanged with the table
    untouched; and the only rows of the table that can differ afterwards
    are the two of this post for the user's language. *)
Theorem translatePostForUser_preserves {R : Type}
    (db : gmap (string * string * string * string) Cache.translation_row)
    (post : Translation.TranslatablePost R) (userLanguage : string) :
  let r := translatePostForUser db post userLanguage in
  Translation.post_id r.1 = Translation.post_id post
  /\ Translation.post_languageCode r.1 = Translation.post_languageCode post
  /\ Translation.post_rest r.1 = Translation.post_rest post
  /\ (missing (Translation.plainText post) ->
      Translation.plainText r.1 = Translation.plainText post)
  /\ (missing (Translation.title post) ->
      Translation.title r.1 = Translation.title post)
  /\ (Translation.plainText r.1 = None <-> Translation.plainText post = None)
  /\ (Translation.title r.1 = None <-> Translation.title post = None)
  /\ (JS.or_else (default "" (Translation.post_languageCode post)) "en"
      = userLanguage -> r = (post, db))
  /\ forall entityType entityId fieldName targetLanguage,
       ~ (entityType = "Post" /\ entityId = Translation.post_id post
          /\ (fieldName = "plainText" \/ fieldName = "title")
          /\ targetLanguage = userLanguage) ->
       r.2 !! (entityType, entityId, fieldName, targetLanguage)
       = db !! (entityType, entityId, fieldName, targetLanguage).
Proof.
  cbv zeta. unfold Translation.translatePostForUser, missing.
  destruct (String.eqb _ userLanguage) eqn:Hlang.
  { repeat split; try done. }
  apply String.eqb_neq in Hlang.
  destruct (JS.truthy_opt (Translation.plainText post)) eqn:Hp;
    destruct (JS.truthy_opt (Translation.title post)) eqn:Ht.
  all: repeat match goal with
       | |- context [translateForUser ?d ?p] =>
           let t := fresh "t" in let d' := fresh "db" in
           let E := fresh "E" in
           destruct (translateForUser d p) as [t d'] eqn:E
       end.
  all: cbn [fst snd Translation.post_id Translation.post_languageCode
            Translation.post_rest Translation.plainText Translation.title].
  all: repeat (split; [try done|]).
  all: try (intros E'; rewrite E' in *; discriminate).
  all: try (intros E'; by rewrite E' in Hp).
  all: try (intros E'; by rewrite E' in Ht).
  all: try (intros E'; by exfalso).
  all: intros et eid fn tl Hk.
  all: repeat match goal with
       | E : translateForUser ?d ?p = (_, ?d') |- context [?d' !! ?k] =>
           replace d' with (translateForUser d p).2 by (by rewrite E);
           rewrite (translateForUser_frame d p k);
           [clear E|cbn; intros [= -> -> -> ->]; apply Hk; tauto]
       end.
  all: done.
Qed.

(** X6. [translateCommentForUser] returns a comment with the same id,
    language code and other fields; a blank content and a comment already
    in the user's language come back unchanged with the table untouched;
    and the only row of the table that can differ afterwards is the one of
    this comment for the user's language. *)
Theorem translateCommentForUser_preserves {R : Type}
    (db : gmap (string * string * string * string) Cache.translation_row)
    (comment : Translation.TranslatableComment R) (userLanguage : string) :
  let r := translateCommentForUser db comment userLanguage in
  Translation.comment_id r.1 = Translation.comment_id comment
  /\ Translation.comment_languageCode r.1
     = Translation.comment_languageCode comment
  /\ Translation.comment_rest r.1 = Translation.comment_rest comment
  /\ (JS.truthy (JS.trim (Translation.comment_content comment)) = false ->
      Translation.comment_content r.1 = Translation.comment_content comment
      /\ r.2 = db)
  /\ (JS.or_else (default "" (Translation.comment_languageCode comment)) "en"
      = userLanguage -> r = (comment, db))
  /\ forall k,
       k <> ("Comment", Translation.comment_id comment, "content", userLanguage) ->
       r.2 !! k = db !! k.
Proof.
  cbv zeta. unfold Translation.translateCommentForUser.
  destruct (String.eqb _ userLanguage) eqn:Hlang.
  { repeat split; done. }
  apply String.eqb_neq in Hlang.
  destruct (translateForUser db _) as [t db'] eqn:E.
  cbn [fst snd Translation.comment_id Translation.comment_languageCode
       Translation.comment_rest Translation.comment_content].
  do 3 (split; [done|]). split; [|split; [done|]].
  - intros Hblank. unfold Translation.translateForUser in E.
    cbn [Translation.content Translation.sourceLanguage
         Translation.targetLanguage] in E.
    destruct (String.eqb _ _); [by inversion E|].
    rewrite Hblank in E. cbn [negb] in E. rewrite orb_true_r in E.
    by inversion E.
  - intros k Hk.
    replace db' with (translateForUser db
      {| Translation.entityType := "Comment";
         Translation.entityId := Translation.comment_id comment;
         Translation.fieldName := "content";
         Translation.content := Translation.comment_content comment;
         Translation.sourceLanguage :=
           JS.or_else (default "" (Translation.comment_languageCode comment)) "en";
         Translation.targetLanguage := userLanguage |}).2 by (by rewrite E).
    by apply translateForUser_frame.
Qed.

Lemma replaceSpaces_chars (s : string) :
  Forall (fun c => JS.lowerChar c = c) (list_ascii_of_string s) ->
  Forall (fun c => JS.isWhiteSpace c = false /\ JS.lowerChar c = c)
    (list_ascii_of_string (JS.replaceSpaces s)).
Proof.
  induction s as [|c r IH]; [constructor|].
  intros H. apply Forall_cons in H as [Hc Hr]. specialize (IH Hr).
  cbn [JS.replaceSpaces].
  destruct (JS.isWhiteSpace c) eqn:Hw.
  - destruct r as [|c' r']; [by repeat constructor|].
    destruct (JS.isWhiteSpace c'); [exact IH|].
    cbn [list_ascii_of_string]. by constructor.
  - cbn [list_ascii_of_string]. by constructor.
Qed.

Lemma toLowerCase_chars (s : string) :
  Forall (fun c => JS.lowerChar c = c) (list_ascii_of_string (JS.toLowerCase s)).
Proof.
  induction s as [|c r IH]; [constructor|].
  cbn. constructor; [apply lowerChar_idem | exact IH].
Qed.

Lemma slice0_chars (P : ascii -> Prop) (n : nat) (s : string) :
  Forall P (list_ascii_of_string s) ->
  Forall P (list_ascii_of_string (JS.slice0 n s)).
Proof.
  unfold JS.slice0. revert s.
  induction n as [|n IH]; intros [|c r] H; cbn; try constructor.
  - by apply Forall_cons in H as [? ?].
  - apply IH. by apply Forall_cons in H as [? ?].
Qed.

(** X7. The row under which [translateUIText] caches a text is named by
    at most 50 code units, none of them white space or an upper-case
    letter; a blank text and equal languages return the text with the
    table untouched; and no other row of the table is changed. *)
Theorem translateUIText_row
    (db : gmap (string * string * string * string) Cache.translation_row)
    (text sourceLanguage targetLanguage context : string) :
  let r := translateUIText db text sourceLanguage targetLanguage context in
  (String.length (Translation.uiFieldName text) <= 50)%nat
  /\ Forall (fun c => JS.isWhiteSpace c = false /\ JS.lowerChar c = c)
       (list_ascii_of_string (Translation.uiFieldName text))
  /\ (sourceLanguage = targetLanguage \/ JS.truthy (JS.trim text) = false ->
      r = (text, db))
  /\ forall k,
       k <> ("UI", context, Translation.uiFieldName text, targetLanguage) ->
       r.2 !! k = db !! k.
Proof.
  cbv zeta. split; [apply slice0_length|].
  split; [apply slice0_chars, replaceSpaces_chars, toLowerCase_chars|].
  unfold Translation.translateUIText. split.
  - intros [->|Hblank].
    + by rewrite String.eqb_refl.
    + rewrite Hblank. cbn [negb]. by rewrite orb_true_r.
  - intros k Hk. destruct (_ || _); [done|].
    by apply translateForUser_frame.
Qed.

End EntityFacts.
Definition germanReply : DeepL.deepl_request -> DeepL.deepl_reply :=
  fun _ => DeepL.JsonBody
             (Some [ {| DeepL.tr_text := "Hallo Welt";
                        DeepL.detected_source_language := Some "EN" |} ]).

Definition sampleRow : Cache.SetCachedTranslationParams :=
  {| Cache.p_entityType := "Post";
     Cache.p_entityId := "p1";
     Cache.p_fieldName := "plainText";
     Cache.p_sourceLanguage := "en";
     Cache.p_sourceHash := "h1";
     Cache.p_targetLanguage := "de";
     Cache.p_translatedContent := "Hallo Welt";
     Cache.p_modelProvider := "deepl";
     Cache.p_modelVersion := "v2";
     Cache.p_confidenceScore := None |}.

Lemma setCachedTranslation_getCachedTranslationWithHash_witness :
  Cache.getCachedTranslationWithHash dbUp
    (Cache.setCachedTranslation dbUp ∅ sampleRow) "Post" "p1" "plainText" "de" "h1"
  = Some "Hallo Welt"
  /\ Cache.getCachedTranslationWithHash dbUp
       (Cache.setCachedTranslation dbUp ∅ sampleRow) "Post" "p1" "plainText" "de" "h2"
     = None.
Proof.
  split.
  - exact (proj1 (setCachedTranslation_getCachedTranslationWithHash dbUp
                    eq_refl eq_refl ∅ sampleRow "h1")).
  - exact (proj1 (setCachedTranslation_getCachedTranslationWithHash dbUp
                    eq_refl eq_refl ∅ sampleRow "h2")).
Defined.

Lemma translateForUser_repeat_witness :
  let first :=
    Translation.translateForUserStarted id (Some "key") id
      (fun _ => DeepL.NetworkError) dbUp ∅ sampleParams in
  first.1 = Translation.content sampleParams
  /\ Translation.translateForUserStarted id (Some "key") id germanReply dbUp
       (Translation.landed dbUp first.2 ∅) sampleParams
     = (Translation.content sampleParams, None)
  /\ (Translation.translateForUserStarted id (Some "key") id germanReply dbUp
        ∅ sampleParams).1 = "Hallo Welt".
Proof.
  cbv zeta. split; [reflexivity|].
  destruct (translateForUser_repeat id dbUp eq_refl eq_refl (Some "key")
              (Some "key") id id (fun _ => DeepL.NetworkError) germanReply ∅
              sampleParams) as [Hafter Hbefore].
  - vm_compute. reflexivity.
  - split; [exact Hafter|]. rewrite Hbefore; [reflexivity|discriminate].
Defined.

Lemma deleteCachedTranslations_entity_witness :
  Cache.getCachedTranslation dbUp
    (Cache.deleteCachedTranslations dbUp
       (Cache.setCachedTranslation dbUp ∅ sampleRow) "Post" "p1")
    "Post" "p1" "plainText" "de" = None.
Proof.
  exact (proj1 (proj1 (deleteCachedTranslations_entity dbUp eq_refl eq_refl
                         (Cache.setCachedTranslation dbUp ∅ sampleRow) "Post" "p1")
                  "plainText" "de")).
Defined.

Lemma detectLanguage_code_witness :
  plainCode (DeepL.detectLanguage (Some "key") germanReply "Hello world").1
  /\ DeepL.detectLanguage None germanReply "Hello world" = ("en", []).
Proof.
  split.
  - exact (proj1 (detectLanguage_code (Some "key") germanReply "Hello world")).
  - destruct (detectLanguage_code None germanReply "Hello world")
      as (_ & _ & _ & _ & H).
    apply H. left. reflexivity.
Defined.

Definition samplePost : Translation.TranslatablePost unit :=
  {| Translation.post_id := "p1";
     Translation.plainText := Some "Hello world";
     Translation.title := None;
     Translation.post_languageCode := None;
     Translation.post_rest := tt |}.

Lemma translatePostForUser_preserves_witness :
  Translation.title
    (Translation.translatePostForUser id (Some "key") id germanReply dbUp ∅
       samplePost "de").1 = None
  /\ Translation.translatePostForUser id (Some "key") id germanReply dbUp ∅
       samplePost "en" = (samplePost, ∅).
Proof.
  destruct (translatePostForUser_preserves id (Some "key") id germanReply dbUp ∅
              samplePost "de") as (_ & _ & _ & _ & H & _).
  destruct (translatePostForUser_preserves id (Some "key") id germanReply dbUp ∅
              samplePost "en") as (_ & _ & _ & _ & _ & _ & _ & H' & _).
  split.
  - apply H. reflexivity.
  - apply H'. reflexivity.
Defined.

Definition sampleComment : Translation.TranslatableComment unit :=
  {| Translation.comment_id := "c1";
     Translation.comment_content := "   ";
     Translation.comment_languageCode := Some "fr";
     Translation.comment_rest := tt |}.

Lemma translateCommentForUser_preserves_witness :
  Translation.comment_content
    (Translation.translateCommentForUser id (Some "key") id germanReply dbUp ∅
       sampleComment "de").1 = "   "
  /\ Translation.translateCommentForUser id (Some "key") id germanReply dbUp ∅
       sampleComment "fr" = (sampleComment, ∅).
Proof.
  destruct (translateCommentForUser_preserves id (Some "key") id germanReply dbUp
              ∅ sampleComment "de") as (_ & _ & _ & H & _).
  destruct (translateCommentForUser_preserves id (Some "key") id germanReply dbUp
              ∅ sampleComment "fr") as (_ & _ & _ & _ & H' & _).
  split.
  - apply H. reflexivity.
  - apply H'. reflexivity.
Defined.

Lemma translateUIText_row_witness :
  Translation.translateUIText id (Some "key") id germanReply dbUp ∅
    "Save changes" "en" "en" "button" = ("Save changes", ∅)
  /\ Translation.uiFieldName "Save  my Changes" = "save_my_changes".
Proof.
  destruct (translateUIText_row id (Some "key") id germanReply dbUp ∅
              "Save changes" "en" "en" "button") as (_ & _ & H & _).
  split.
  - apply H. left. reflexivity.
  - reflexivity.
Defined.

(** ** Further properties of the client cache *)

Section ClientCacheFacts.
Import CacheClient.
Local Arguments String.eqb : simpl never.

Lemma append_inj_l (p a b : string) : p +:+ a = p +:+ b -> a = b.
Proof. induction p as [|c p IH]; cbn; [done|]. intros [= H]. by apply IH. Qed.

Lemma prefix_append (p s : string) : String.prefix p (p +:+ s) = true.
Proof.
  induction p as [|c p IH]; [by destruct s|].
  change (String.prefix (String c p) (String c (p +:+ s)) = true).
  simpl. destruct (ascii_dec c c); [exact IH | done].
Qed.

(** X8. A hit of [getFromCache] is stable: it leaves the browser storage
    as it was, and from then on the same lookup gives the same translation
    and the same cache even when the storage has become unreadable, since
    a value found in the storage is copied to memory. *)
Theorem getFromCache_hit_stable (getItemThrows : bool) (c c' : client_cache)
    (text targetLang value : string) :
  getFromCache getItemThrows c text targetLang = (Some value, c') ->
  localStorage c' = localStorage c
  /\ forall getItemThrows',
       getFromCache getItemThrows' c' text targetLang = (Some value, c').
Proof.
  unfold getFromCache.
  destruct (JS.truthy_opt (MEMORY_CACHE c !! _)) eqn:Hm.
  - intros [= Hv <-]. split; [done|]. intros g'. rewrite Hm. rewrite Hv. reflexivity.
  - destruct (localStorage c) as [items|] eqn:Hs; [|discriminate].
    destruct getItemThrows; [discriminate|].
    destruct (JS.truthy_opt (items !! _)) eqn:Hi; [|discriminate].
    intros [= Hv <-]. cbn [localStorage MEMORY_CACHE]. split; [done|].
    intros g'. rewrite lookup_insert_eq, Hv. cbn [default from_option id JS.truthy_opt].
    rewrite Hv in Hi. cbn [JS.truthy_opt] in Hi. by rewrite Hi.
Qed.

(** X9. A write by [setToCache] is seen by exactly the lookups whose
    synchronous key collides with the written one: a lookup under a
    different key answers as before the write, and a lookup under the same
    key answers with the written translation (when that is not empty),
    whichever text and language it asks for. *)
Theorem setToCache_other_lookups (setItemThrows getItemThrows : bool)
    (c : client_cache) (text targetLang translation text' targetLang' : string) :
  (generateSyncCacheKey text' targetLang' <> generateSyncCacheKey text targetLang ->
   (getFromCache getItemThrows
      (setToCache setItemThrows c text targetLang translation)
      text' targetLang').1
   = (getFromCache getItemThrows c text' targetLang').1)
  /\ (generateSyncCacheKey text' targetLang' = generateSyncCacheKey text targetLang ->
      JS.truthy translation = true ->
      (getFromCache getItemThrows
         (setToCache setItemThrows c text targetLang translation)
         text' targetLang').1
      = Some translation).
Proof.
  unfold getFromCache, setToCache. split.
  - intros Hk.
    assert (CACHE_PREFIX +:+ generateSyncCacheKey text targetLang
            <> CACHE_PREFIX +:+ generateSyncCacheKey text' targetLang') as Hp.
    { intros E. apply append_inj_l in E. congruence. }
    destruct (localStorage c) as [items|]; [destruct setItemThrows|];
      cbn [MEMORY_CACHE localStorage]; rewrite lookup_insert_ne by congruence;
      destruct (JS.truthy_opt (MEMORY_CACHE c !! _)); try done;
      destruct getItemThrows; try done;
      rewrite ?lookup_insert_ne by done;
      by destruct (JS.truthy_opt (items !! _)).
  - intros Hk Ht. rewrite Hk.
    destruct (localStorage c) as [items|]; [destruct setItemThrows|];
      cbn [MEMORY_CACHE localStorage]; rewrite lookup_insert_eq;
      cbn [JS.truthy_opt]; by rewrite Ht.
Qed.

(** X10. After [clearCache] with a working storage every lookup misses
    and the statistics are zero, while every storage entry whose key does
    not start with the cache prefix is still there. When the storage
    raises, the memory tier is emptied all the same and the storage is
    left as it is. *)
Theorem clearCache_spec (c : client_cache) :
  (forall getItemThrows text targetLang,
     getFromCache getItemThrows (clearCache false c) text targetLang
     = (None, clearCache false c))
  /\ getCacheStats false (clearCache false c) = (0%nat, 0%nat)
  /\ (forall items key,
        localStorage c = Some items ->
        String.prefix CACHE_PREFIX key = false ->
        exists items', localStorage (clearCache false c) = Some items'
                       /\ items' !! key = items !! key)
  /\ MEMORY_CACHE (clearCache true c) = ∅
  /\ localStorage (clearCache true c) = localStorage c.
Proof.
  split; [|split; [|split; [|split]]].
  - intros g text lang. unfold getFromCache, clearCache.
    cbn [MEMORY_CACHE localStorage]. rewrite lookup_empty. cbn [JS.truthy_opt].
    destruct (localStorage c) as [items|]; [|done].
    destruct g; [done|].
    rewrite (proj2 (map_lookup_filter_None _ _ _)); [done|].
    right. intros x _. cbn. by rewrite prefix_append.
  - unfold getCacheStats, clearCache. cbn [MEMORY_CACHE localStorage].
    rewrite map_size_empty. f_equal.
    destruct (localStorage c) as [items|]; [|done].
    apply map_size_empty_iff, map_empty. intros k.
    apply map_lookup_filter_None. right. intros x Hx Hp.
    apply map_lookup_filter_Some in Hx as [_ Hq]. cbn in *. congruence.
  - intros items key Hs Hp. unfold clearCache. rewrite Hs.
    cbn [localStorage]. eexists. split; [done|].
    destruct (items !! key) as [x|] eqn:Hx.
    + apply map_lookup_filter_Some. done.
    + apply map_lookup_filter_None. by left.
  - done.
  - unfold clearCache. cbn. by destruct (localStorage c).
Qed.

End ClientCacheFacts.
(** ** Further properties of the client translator *)

Section ClientBatchFacts.
Import LanguageCodes CacheClient DeepLClient.
Local Arguments String.eqb : simpl never.

(** A text [translateBatch] and [translateText] would send on. *)
Definition notBlank (text : string) : Prop := JS.truthy (JS.trim text) = true.

Lemma uncachedTexts_sublist (cacheResults : gmap string (option string))
    (texts : list string) :
  sublist (uncachedTexts cacheResults texts) texts
  /\ Forall notBlank (uncachedTexts cacheResults texts).
Proof.
  unfold uncachedTexts. split; [apply sublist_filter|].
  apply Forall_forall. intros t Ht.
  apply list_elem_of_filter in Ht as [[Hb _] _]. exact Hb.
Qed.

(** X11. The client's [translateBatch] returns as many texts as it was
    given. It sends one request at most; the texts of that request are a
    non-empty subsequence of the input without blank texts. When a request
    was sent, every blank input is returned unchanged at its index; and
    when that request fails, the whole input is returned unchanged. *)
Theorem client_translateBatch_shape (getItemThrows setItemThrows : bool)
    (reply : api_reply) (c : client_cache) (texts : list string)
    (targetLang : string) (sourceLang : option string) :
  let r := translateBatch getItemThrows setItemThrows reply c texts targetLang
             sourceLang in
  length r.1.1 = length texts
  /\ (r.2 = []
      \/ exists toTranslate,
           r.2 = [requestBody toTranslate targetLang sourceLang]
           /\ toTranslate <> []
           /\ sublist toTranslate texts
           /\ Forall notBlank toTranslate
           /\ (forall i text,
                 texts !! i = Some text -> ~ notBlank text ->
                 r.1.1 !! i = Some text)
           /\ (fetchTranslations toTranslate reply = None -> r.1.1 = texts)).
Proof.
  cbv zeta. unfold translateBatch.
  case_bool_decide as Hlen.
  { split; [done|]. by left. }
  destruct (JS.truthy_opt sourceLang && _).
  { split; [done|]. by left. }
  destruct (getBatchFromCache _ _ _ _) as [cacheResults c1].
  case_bool_decide as Hnone.
  { cbn [fst snd]. split; [by rewrite length_fmap|]. by left. }
  pose proof (uncachedTexts_sublist cacheResults texts) as [Hsub Hnb].
  destruct (fetchTranslations _ reply) as [translations|] eqn:Hfetch.
  - destruct (recordTranslations _ _ _ _) as [cacheItems cacheResults'].
    cbn [fst snd]. split; [by rewrite length_fmap|].
    right. exists (uncachedTexts cacheResults texts).
    split; [done|]. split; [by intros E; rewrite E in Hnone|].
    split; [done|]. split; [done|]. split; [|by rewrite Hfetch].
    intros i text Hi Hblank. rewrite list_lookup_fmap, Hi. cbn.
    unfold notBlank in Hblank. by destruct (JS.truthy (JS.trim text)).
  - cbn [fst snd]. split; [done|].
    right. exists (uncachedTexts cacheResults texts).
    split; [done|]. split; [by intros E; rewrite E in Hnone|].
    done.
Qed.

(** The [Map] of [getBatchFromCache] when every lookup misses. *)
Definition nulls (texts : list string) (m : gmap string (option string))
  : gmap string (option string) :=
  fold_left (fun m text => <[text := None]> m) texts m.

Lemma nulls_lookup (texts : list string) (m : gmap string (option string))
    (text : string) :
  text ∈ texts -> nulls texts m !! text = Some None.
Proof.
  unfold nulls. revert m. induction texts as [|t ts IH] using rev_ind; intros m Hin.
  - by apply elem_of_nil in Hin.
  - rewrite fold_left_app. cbn.
    destruct (decide (text = t)) as [->|Hne]; [by rewrite lookup_insert_eq|].
    rewrite lookup_insert_ne by done. apply IH.
    apply elem_of_app in Hin as [?|Hin]; [done|].
    by apply list_elem_of_singleton in Hin.
Qed.

Lemma getBatchFromCache_misses (getItemThrows : bool) (c : client_cache)
    (texts : list string) (targetLang : string) :
  Forall (fun text => (getFromCache getItemThrows c text targetLang).1 = None)
    texts ->
  getBatchFromCache getItemThrows c texts targetLang = (nulls texts ∅, c).
Proof.
  unfold getBatchFromCache, nulls. generalize (∅ : gmap string (option string)).
  induction texts as [|t ts IH]; intros m Hall; [done|].
  apply Forall_cons in Hall as [Ht Hts]. cbn [fold_left fst snd].
  assert (getFromCache getItemThrows c t targetLang = (None, c)) as ->.
  { revert Ht. unfold getFromCache.
    destruct (JS.truthy_opt (MEMORY_CACHE c !! _)) eqn:Hm.
    { cbn. intros E. by rewrite E in Hm. }
    destruct (localStorage c) as [items|]; [|done].
    destruct getItemThrows; [done|].
    destruct (JS.truthy_opt (items !! _)) eqn:Hs; [|done].
    cbn. intros E. by rewrite E in Hs. }
  by apply IH.
Qed.

Lemma recordTranslations_lookup (texts translations : list string)
    (targetLang : string) (m : gmap string (option string)) (i : nat)
    (text : string) :
  NoDup texts -> texts !! i = Some text ->
  (recordTranslations texts translations targetLang m).2 !! text
  = match translations !! i with
    | Some translation => Some (Some translation)
    | None => m !! text
    end.
Proof.
  intros Hnd Hi. unfold recordTranslations. cbn [snd].
  induction translations as [|tr trs IH] using rev_ind; [done|].
  rewrite imap_app, fold_left_app. cbn [imap fold_left fst snd].
  rewrite Nat.add_0_r.
  destruct (decide (i = length trs)) as [->|Hne].
  - rewrite Hi, lookup_insert_eq.
    by rewrite lookup_app_r, Nat.sub_diag by lia.
  - assert ((trs ++ [tr]) !! i = trs !! i) as ->.
    { destruct (decide (i < length trs)%nat).
      - by rewrite lookup_app_l.
      - rewrite lookup_app_r by lia.
        rewrite (lookup_ge_None_2 trs) by lia.
        apply lookup_ge_None_2. cbn. lia. }
    destruct (texts !! length trs) as [o|] eqn:Ho; [|exact IH].
    rewrite lookup_insert_ne; [exact IH|].
    intros ->. apply Hne. symmetry. eapply NoDup_lookup; eauto.
Qed.

Lemma filter_all {A : Type} (P : A -> Prop) `{forall x, Decision (P x)}
    (l : list A) :
  Forall P l -> filter P l = l.
Proof.
  induction 1 as [|x l Hx Hl IH]; [done|].
  rewrite filter_cons_True by done. by rewrite IH.
Qed.

(** X12. When the languages differ and the texts are pairwise distinct,
    not blank and not cached, the client's [translateBatch] sends them all
    in one request and answers position by position: index [i] of the
    result is index [i] of the reply, or the original text where the reply
    is too short or holds an empty string. *)
Theorem client_translateBatch_positions (getItemThrows setItemThrows : bool)
    (reply : api_reply) (c : client_cache) (texts translations : list string)
    (targetLang : string) (sourceLang : option string) :
  texts <> [] ->
  JS.truthy_opt sourceLang
  && String.eqb (getBaseLanguage (default "" sourceLang))
       (getBaseLanguage targetLang) = false ->
  NoDup texts ->
  Forall notBlank texts ->
  Forall (fun text => (getFromCache getItemThrows c text targetLang).1 = None)
    texts ->
  fetchTranslations texts reply = Some translations ->
  let r := translateBatch getItemThrows setItemThrows reply c texts targetLang
             sourceLang in
  r.1.1 = imap (fun i text => JS.or_else (default "" (translations !! i)) text)
            texts
  /\ r.2 = [requestBody texts targetLang sourceLang].
Proof.
  intros Hne Hlang Hnd Hnb Hmiss Hfetch. cbv zeta. unfold translateBatch.
  case_bool_decide as Hlen; [by destruct texts|].
  rewrite Hlang, getBatchFromCache_misses by done.
  assert (uncachedTexts (nulls texts ∅) texts = texts) as Hall.
  { unfold uncachedTexts. apply filter_all.
    apply Forall_forall. intros t Ht. split.
    - by eapply Forall_forall in Hnb.
    - by apply nulls_lookup. }
  rewrite Hall. case_bool_decide as Hnone; [by destruct texts|].
  rewrite Hfetch.
  destruct (recordTranslations texts translations targetLang (nulls texts ∅))
    as [cacheItems cacheResults'] eqn:Hrec.
  cbn [fst snd]. split; [|done].
  apply list_eq. intros i. rewrite list_lookup_fmap, list_lookup_imap.
  destruct (texts !! i) as [text|] eqn:Hi; [|done]. cbn. f_equal.
  assert (notBlank text) as Ht.
  { eapply Forall_forall in Hnb; [done|]. by eapply list_elem_of_lookup_2. }
  unfold notBlank in Ht. rewrite Ht. cbn [negb]. unfold cachedOr.
  replace cacheResults'
    with (recordTranslations texts translations targetLang (nulls texts ∅)).2
    by (by rewrite Hrec).
  rewrite (recordTranslations_lookup _ _ _ _ i) by done.
  destruct (translations !! i); [done|].
  rewrite nulls_lookup; [done|]. by eapply list_elem_of_lookup_2.
Qed.

End ClientBatchFacts.
Section ClientSendFacts.
Import LanguageCodes CacheClient DeepLClient.
Local Arguments String.eqb : simpl never.














End ClientSendFacts.
Section ClientCountFacts.
Import LanguageCodes CacheClient DeepLClient.
Local Arguments String.eqb : simpl never.
Local Arguments Nat.div : simpl never.

Lemma chunksFrom_length (l : list QueuedRequest) :
  forall fuel i, (length l - i <= fuel)%nat ->
  length (chunksFrom fuel i l) = ((length l - i + 49) / 50)%nat.
Proof.
  induction fuel as [|fuel IH]; intros i Hf; cbn [chunksFrom].
  - replace (length l - i)%nat with 0%nat by lia. done.
  - destruct (i <? length l)%nat eqn:Hi.
    + apply Nat.ltb_lt in Hi. cbn [length].
      rewrite IH by (unfold MAX_BATCH_SIZE; lia). unfold MAX_BATCH_SIZE.
      destruct (decide (length l - i <= 50)%nat) as [Hsmall|Hbig].
      * replace (length l - (i + 50))%nat with 0%nat by lia.
        change ((0 + 49) / 50)%nat with 0%nat.
        apply (Nat.div_unique _ _ 1 (length l - i - 1)); lia.
      * replace (length l - i + 49)%nat
          with (length l - (i + 50) + 49 + 1 * 50)%nat by lia.
        rewrite Nat.div_add by lia. lia.
    + apply Nat.ltb_ge in Hi.
      replace (length l - i)%nat with 0%nat by lia. done.
Qed.

Lemma byLanguage_one (lang : string) (requests : list QueuedRequest) :
  requests <> [] ->
  Forall (fun req => targetLang req = lang) requests ->
  byLanguage requests = [(lang, requests)].
Proof.
  intros Hne Hall. unfold byLanguage.
  assert (forall l group,
            Forall (fun req => targetLang req = lang) l ->
            fold_left (fun groups req => addToGroup req groups) l [(lang, group)]
            = [(lang, group ++ l)]) as Hfold.
  { induction l as [|r l IH]; intros group Hl; cbn [fold_left].
    - by rewrite app_nil_r.
    - apply Forall_cons in Hl as [Hr Hl]. cbn [addToGroup].
      rewrite Hr, String.eqb_refl, IH by done. by rewrite <- app_assoc. }
  destruct requests as [|r l]; [done|].
  apply Forall_cons in Hall as [Hr Hl]. cbn [fold_left addToGroup].
  rewrite Hr. by rewrite Hfold.
Qed.

(** X14. A flush of [n] queued requests that all ask for the same target
    language sends them in the order they were queued, in [ceil(n / 50)]
    requests. *)
Theorem flush_request_count (lang : string) (requests : list QueuedRequest) :
  requests <> [] ->
  Forall (fun req => targetLang req = lang) requests ->
  length (chunksOfFlush requests) = ((length requests + 49) / 50)%nat
  /\ concat (body_texts <$> (chunkRequest <$> chunksOfFlush requests))
     = text <$> requests.
Proof.
  intros Hne Hall. unfold chunksOfFlush.
  rewrite (byLanguage_one lang) by done. cbn [flat_map fst snd].
  rewrite app_nil_r. split.
  - rewrite length_fmap. unfold chunksOf.
    rewrite chunksFrom_length by lia. by rewrite Nat.sub_0_r.
  - rewrite <- (chunksOf_concat requests) at 2.
    generalize (chunksOf requests). intros chunks.
    induction chunks as [|ch chunks IH]; [done|].
    cbn [fmap list_fmap concat]. rewrite fmap_app. f_equal. exact IH.
Qed.

End ClientCountFacts.
Definition storedCache : CacheClient.client_cache :=
  {| CacheClient.MEMORY_CACHE := ∅;
     CacheClient.localStorage :=
       Some {[ "deepl_cache_v1_rt53qm" := "Hola mundo"; "theme" := "dark" ]} |}.

Lemma getFromCache_hit_stable_witness :
  CacheClient.getFromCache true
    (CacheClient.getFromCache false storedCache "Hello world" "es").2
    "Hello world" "es"
  = (Some "Hola mundo",
     (CacheClient.getFromCache false storedCache "Hello world" "es").2).
Proof.
  apply (getFromCache_hit_stable false storedCache _ "Hello world" "es"
           "Hola mundo").
  vm_compute. reflexivity.
Defined.

Lemma setToCache_other_lookups_witness :
  (CacheClient.getFromCache false
     (CacheClient.setToCache false storedCache "Hello" "es" "Hola")
     "Hello world" "es").1
  = (CacheClient.getFromCache false storedCache "Hello world" "es").1
  /\ (CacheClient.getFromCache false
        (CacheClient.setToCache false storedCache "Aa" "es" "x") "BB" "es").1
     = Some "x".
Proof.
  split.
  - apply (setToCache_other_lookups false false storedCache "Hello" "es" "Hola"
             "Hello world" "es").
    vm_compute. discriminate.
  - apply (setToCache_other_lookups false false storedCache "Aa" "es" "x"
             "BB" "es").
    + vm_compute. reflexivity.
    + reflexivity.
Defined.

Lemma clearCache_spec_witness :
  exists items',
    CacheClient.localStorage (CacheClient.clearCache false storedCache) = Some items'
    /\ items' !! "theme" = Some "dark".
Proof.
  destruct (clearCache_spec storedCache) as (_ & _ & H & _).
  destruct (H {[ "deepl_cache_v1_rt53qm" := "Hola mundo"; "theme" := "dark" ]}
              "theme" eq_refl eq_refl) as (items' & H1 & H2).
  exists items'. split; [exact H1|]. rewrite H2. vm_compute. reflexivity.
Defined.

Definition coldCache : CacheClient.client_cache :=
  {| CacheClient.MEMORY_CACHE := ∅; CacheClient.localStorage := Some ∅ |}.

Lemma client_translateBatch_shape_witness :
  (DeepLClient.translateBatch false false DeepLClient.FetchRejects coldCache
     ["Hello"; "  "; "World"] "es" None).1.1
  = ["Hello"; "  "; "World"].
Proof.
  destruct (client_translateBatch_shape false false DeepLClient.FetchRejects
              coldCache ["Hello"; "  "; "World"] "es" None) as [_ [H|H]].
  - vm_compute in H. discriminate H.
  - destruct H as (toTranslate & Hreq & _ & _ & _ & _ & Hfail).
    apply Hfail. reflexivity.
Defined.

Lemma client_translateBatch_positions_witness :
  (DeepLClient.translateBatch false false
     (DeepLClient.Reply true None false (Some ["Hola"; ""]))
     coldCache ["Hello"; "World"] "es" None).1.1
  = ["Hola"; "World"].
Proof.
  refine (proj1 (client_translateBatch_positions false false
           (DeepLClient.Reply true None false (Some ["Hola"; ""]))
           coldCache ["Hello"; "World"] ["Hola"; ""] "es" None _ _ _ _ _ _)).
  - discriminate.
  - reflexivity.
  - apply (bool_decide_unpack _). vm_compute. reflexivity.
  - repeat constructor.
  - repeat constructor.
  - reflexivity.
Defined.

Definition twoRequests : list DeepLClient.QueuedRequest :=
  [ {| DeepLClient.text := "Hello"; DeepLClient.targetLang := "es";
       DeepLClient.promise := 0 |};
    {| DeepLClient.text := "World"; DeepLClient.targetLang := "es";
       DeepLClient.promise := 1 |} ].

Lemma flush_request_count_witness :
  length (DeepLClient.chunksOfFlush twoRequests) = 1%nat.
Proof.
  refine (proj1 (flush_request_count "es" twoRequests _ _)).
  - discriminate.
  - repeat constructor.
Defined.

(** ** Further properties of the language codes *)

Section LanguageCodeFacts.
Import LanguageCodes.
Local Arguments String.eqb : simpl never.

Lemma assoc_In (k v : string) (l : list (string * string)) :
  JS.assoc k l = Some v -> In (k, v) l.
Proof.
  induction l as [|[k' v'] l IH]; cbn [JS.assoc]; [done|].
  destruct (String.eqb k k') eqn:E.
  - apply String.eqb_eq in E. intros [= ->]. left. by rewrite E.
  - intros H. right. by apply IH.
Qed.

(** Every entry of the target table whose key has a registry code as its
    base maps to a DeepL code of that base. *)
Lemma DEEPL_TARGET_MAP_bases :
  forallb (fun kv => implb (JS.mem (JS.splitDash0 kv.1) registryCodes)
                       (String.eqb (fromDeepLCode kv.2) (JS.splitDash0 kv.1)))
    DEEPL_TARGET_MAP = true.
Proof. vm_compute. reflexivity. Qed.

(** Every registry code is a key of the target table, and the table gives
    it the DeepL code the registry records. *)
Lemma SUPPORTED_LANGUAGES_mapped :
  forallb (fun entry => match JS.assoc entry.1 DEEPL_TARGET_MAP with
                        | Some code => String.eqb code (deeplCode entry.2)
                        | None => false
                        end)
    SUPPORTED_LANGUAGES = true.
Proof. vm_compute. reflexivity. Qed.

(** No registry code is a member of [Object.prototype]. *)
Lemma objectPrototypeKeys_registry :
  forallb (fun k => negb (JS.mem k registryCodes)) JS.objectPrototypeKeys = true.
Proof. vm_compute. reflexivity. Qed.

Lemma registry_assoc (base : string) :
  base ∈ registryCodes ->
  exists info code,
    In (base, info) SUPPORTED_LANGUAGES
    /\ JS.assoc base DEEPL_TARGET_MAP = Some code /\ code = deeplCode info.
Proof.
  intros Hb. unfold registryCodes in Hb.
  apply list_elem_of_fmap in Hb as ([k info] & -> & Hin).
  apply list_elem_of_In in Hin.
  pose proof (proj1 (forallb_forall _ _) SUPPORTED_LANGUAGES_mapped _ Hin) as H.
  cbn [fst snd] in *. destruct (JS.assoc k DEEPL_TARGET_MAP) as [code|]; [|done].
  apply String.eqb_eq in H. by exists info, code.
Qed.

(** X15. For every locale whose base language (after lower-casing and
    trimming) is a registry code, [toDeepLTarget] yields a DeepL code that
    [fromDeepLCode] maps back to that base language: a region is kept or
    dropped, never the language changed. A registry code itself is mapped
    to the DeepL code its registry entry records. *)
Theorem toDeepLTarget_fromDeepLCode (locale : string) :
  let normalized := JS.trim (JS.toLowerCase locale) in
  JS.splitDash0 normalized ∈ registryCodes ->
  (exists code,
     toDeepLTarget locale = JS.Str code
     /\ fromDeepLCode code = JS.splitDash0 normalized)
  /\ forall info,
       In (normalized, info) SUPPORTED_LANGUAGES ->
       toDeepLTarget locale = JS.Str (deeplCode info).
Proof.
  cbv zeta. intros Hbase.
  destruct (registry_assoc _ Hbase) as (info & code & Hreg & Hcode & ->).
  unfold toDeepLTarget, JS.getProp.
  destruct (JS.assoc (JS.trim (JS.toLowerCase locale)) DEEPL_TARGET_MAP)
    as [v|] eqn:Ha.
  - split.
    + exists v. split; [done|].
      pose proof (proj1 (forallb_forall _ _) DEEPL_TARGET_MAP_bases _
                    (assoc_In _ _ _ Ha)) as H.
      cbn [fst snd] in H. rewrite (proj2 (mem_true _ _) Hbase) in H.
      by apply String.eqb_eq in H.
    + intros info' Hin.
      pose proof (proj1 (forallb_forall _ _) SUPPORTED_LANGUAGES_mapped _ Hin)
        as H.
      cbn [fst snd] in H. rewrite Ha in H. apply String.eqb_eq in H.
      by rewrite H.
  - assert (forall info', ~ In (JS.trim (JS.toLowerCase locale), info')
                             SUPPORTED_LANGUAGES) as Hnot.
    { intros info' Hin.
      pose proof (proj1 (forallb_forall _ _) SUPPORTED_LANGUAGES_mapped _ Hin)
        as H.
      cbn [fst snd] in H. by rewrite Ha in H. }
    split; [|intros info' Hin; by apply Hnot in Hin].
    destruct (JS.mem (JS.trim (JS.toLowerCase locale)) JS.objectPrototypeKeys)
      eqn:Hp.
    + exfalso. apply mem_true, list_elem_of_In in Hp.
      pose proof (proj1 (forallb_forall _ _) objectPrototypeKeys_registry _ Hp)
        as H.
      apply negb_true_iff in H.
      assert (JS.splitDash0 (JS.trim (JS.toLowerCase locale))
              = JS.trim (JS.toLowerCase locale)) as Hsame.
      { clear -Hp. apply list_elem_of_In in Hp. unfold JS.objectPrototypeKeys in Hp.
        repeat (apply elem_of_cons in Hp as [->|Hp]; [reflexivity|]).
        by apply elem_of_nil in Hp. }
      rewrite Hsame in Hbase. apply mem_true in Hbase. congruence.
    + rewrite Hcode. exists (deeplCode info). split; [done|].
      pose proof (proj1 (forallb_forall _ _) DEEPL_TARGET_MAP_bases _
                    (assoc_In _ _ _ Hcode)) as H.
      cbn [fst snd] in H.
      assert (JS.splitDash0 (JS.splitDash0 (JS.trim (JS.toLowerCase locale)))
              = JS.splitDash0 (JS.trim (JS.toLowerCase locale))) as Hidem.
      { generalize (JS.trim (JS.toLowerCase locale)). intros s.
        induction s as [|c r IH]; [done|].
        rewrite splitDash0_cons. destruct (Ascii.eqb c "-") eqn:Hc; [done|].
        rewrite splitDash0_cons, Hc. by rewrite IH. }
      rewrite Hidem, (proj2 (mem_true _ _) Hbase) in H.
      by apply String.eqb_eq in H.
Qed.

End LanguageCodeFacts.

Lemma toDeepLTarget_fromDeepLCode_witness :
  exists code,
    LanguageCodes.toDeepLTarget " pt-PT " = JS.Str code
    /\ LanguageCodes.fromDeepLCode code = "pt".
Proof.
  refine (proj1 (toDeepLTarget_fromDeepLCode " pt-PT " _)).
  apply mem_true. vm_compute. reflexivity.
Defined.
(** ** Further properties of the API route *)

Section RouteMoreFacts.
Import Route.
Variable DEEPL_API_KEY : option string.
Variable toUpperCase : string -> string.
Variable fetch : DeepL.deepl_request -> DeepL.deepl_reply.
Local Abbreviation POST := (POST DEEPL_API_KEY toUpperCase fetch).
Local Abbreviation handleAllowed := (handleAllowed DEEPL_API_KEY toUpperCase fetch).
Local Arguments String.eqb : simpl never.

(** The DeepL codes the client's [toDeepLTarget] can produce are kept by
    the route's [toDeepLTarget], except ZH-HANT. *)
Lemma client_codes_on_route :
  forallb (fun code =>
             match toDeepLTarget code with
             | JS.Str code' =>
                 String.eqb code' code
                 || String.eqb code "ZH-HANT" && String.eqb code' "ZH-HANS"
             | JS.Inherited _ => false
             end)
    ("EN-US" :: LanguageCodes.DEEPL_TARGET_MAP.*2) = true.
Proof. vm_compute. reflexivity. Qed.

(** X16. The route normalises the target code it receives with its own
    table. For every locale, the DeepL code the client computes and posts
    is mapped by the route to itself, with one exception: ZH-HANT
    (Traditional Chinese, which the client computes for zh-TW and zh-Hant)
    is mapped to ZH-HANS. *)
Theorem route_keeps_client_target (locale code : string) :
  LanguageCodes.toDeepLTarget locale = JS.Str code ->
  (code <> "ZH-HANT" -> toDeepLTarget code = JS.Str code)
  /\ (code = "ZH-HANT" -> toDeepLTarget code = JS.Str "ZH-HANS").
Proof.
  intros Hclient.
  assert (In code ("EN-US" :: LanguageCodes.DEEPL_TARGET_MAP.*2)) as Hin.
  { revert Hclient. unfold LanguageCodes.toDeepLTarget, JS.getProp.
    assert (forall k v, JS.assoc k LanguageCodes.DEEPL_TARGET_MAP = Some v ->
                        In v ("EN-US" :: LanguageCodes.DEEPL_TARGET_MAP.*2)) as Hv.
    { intros k v Ha. right. apply list_elem_of_In, list_elem_of_fmap.
      exists (k, v). split; [done|]. by apply list_elem_of_In, assoc_In. }
    destruct (JS.assoc (JS.trim _) _) as [v|] eqn:Ha.
    { intros [= <-]. by eapply Hv. }
    destruct (JS.mem (JS.trim _) _); [done|].
    destruct (JS.assoc (JS.splitDash0 _) _) as [v|] eqn:Hb.
    { intros [= <-]. by eapply Hv. }
    destruct (JS.mem (JS.splitDash0 _) _); [done|].
    intros [= <-]. by left. }
  split; [|intros ->; vm_compute; reflexivity].
  intros Hne.
  pose proof (proj1 (forallb_forall _ _) client_codes_on_route _ Hin) as H.
  cbn beta in H. destruct (toDeepLTarget code) as [code'|]; [|done].
  apply orb_true_iff in H as [H|H].
  - by apply String.eqb_eq in H as ->.
  - apply andb_true_iff in H as [H _]. by apply String.eqb_eq in H.
Qed.

Lemma translateBatch_length (texts : list string) (sourceLang : option string)
    (targetLang : string) :
  length (DeepL.translateBatch DEEPL_API_KEY toUpperCase fetch texts sourceLang
            targetLang).1 = length texts.
Proof.
  destruct (translateBatch_cases DEEPL_API_KEY toUpperCase fetch texts sourceLang
              targetLang)
    as [[-> _]|(request & _ & _ & _ & _ & [[-> _]|(trs & _ & _ & ->)])];
    cbn [fst]; [done|done|apply merge_length].
Qed.

Lemma callProvider_length (texts : list string) (source : option map_value)
    (target : map_value) :
  length (callProvider DEEPL_API_KEY toUpperCase fetch texts source target)
  = length texts.
Proof.
  unfold callProvider.
  destruct target; [|done].
  destruct source as [[|]|]; [apply translateBatch_length|done|
                              apply translateBatch_length].
Qed.

(** The translations a response carries, if any. *)
Definition translationsOf (resp : response) : option (list string) :=
  match body resp with
  | Skipped translations => Some translations
  | Translated translations _ _ => Some translations
  | Unavailable translations => Some translations
  | ErrorBody _ | Rejected => None
  end.

Local Ltac listed := rewrite !elem_of_cons; auto 6.

(** A response that is not a success and carries nothing. *)
Local Ltac refused :=
  right; cbn [status translationsOf body];
  split; [done|]; split; [listed|]; split; [intros [=]|];
  split; [done|intros [=]].

(** A success. *)
Local Ltac succeeded :=
  right; cbn [status translationsOf body];
  split; [done|]; split; [listed|];
  split; [intros _|split; [intros [[=]|[=]]|intros [=]]].

(** X17. [POST] rejects, which it does only once the body of the request
    has been read, or it answers with status 200, 400, 429 or 500. A
    response with status 200 answers a body whose [texts] holds between 1
    and 100 entries and whose [targetLang] is a non-empty string, and it
    carries exactly as many translations as there were texts. A response
    with status 400 or 429 carries no translations. The response with
    status 500, built by the [catch] block, is given only to a request
    without a body, and its list of translations is empty. *)
Theorem POST_response (now : Z) (requestCounts : gmap string rate_record)
    (req : request) :
  let resp := (POST now requestCounts req).1 in
  (body resp = Rejected /\ (json req = None -> hasBody req = true))
  \/ (body resp <> Rejected
      /\ status resp ∈ [200; 400; 429; 500]
      /\ (status resp = 200 ->
          exists payload texts_ translations,
            json req = Some payload /\ texts payload = Some texts_
            /\ (1 <= length texts_ <= 100)%nat
            /\ JS.truthy_opt (targetLang payload) = true
            /\ translationsOf resp = Some translations
            /\ length translations = length texts_)
      /\ (status resp = 400 \/ status resp = 429 -> translationsOf resp = None)
      /\ (status resp = 500 ->
          body resp = Unavailable [] /\ json req = None /\ hasBody req = false)).
Proof.
  cbv zeta. unfold Route.POST.
  destruct (getRateLimitInfo now requestCounts (clientIp req)) as [rateLimit counts'].
  destruct (negb (allowed rateLimit)); [cbn [fst]; refused|].
  cbn [fst]. unfold Route.handleAllowed.
  destruct (json req) as [payload|].
  2:{ unfold serverError, rejects. destruct (hasBody req); [by left|].
      right. cbn [status translationsOf body texts default].
      split; [done|]. split; [listed|]. split; [intros [=]|].
      split; [intros [[=]|[=]]|done]. }
  destruct (texts payload) as [[|x l]|] eqn:Htexts; [refused| |refused].
  destruct (JS.truthy_opt (targetLang payload)) eqn:Htarget; cbn [negb];
    [|refused].
  destruct (100 <? length (x :: l))%nat eqn:Hlen; [refused|].
  apply Nat.ltb_ge in Hlen.
  assert (forall source target,
            exists payload0 texts_ translations,
              Some payload = Some payload0 /\ texts payload0 = Some texts_
              /\ (1 <= length texts_ <= 100)%nat
              /\ JS.truthy_opt (targetLang payload0) = true
              /\ Some (callProvider DEEPL_API_KEY toUpperCase fetch (x :: l)
                         source target) = Some translations
              /\ length translations = length texts_) as Hok.
  { intros source target. exists payload, (x :: l). eexists.
    repeat (split; [done || (cbn [length] in *; lia)|]).
    apply callProvider_length. }
  destruct (JS.truthy_opt (sourceLang payload)).
  - destruct (baseOf (toDeepLTarget (default "" (targetLang payload))));
      [|left; split; [done|intros [=]]].
    destruct (baseOf (toDeepLTarget (default "" (sourceLang payload))));
      [|left; split; [done|intros [=]]].
    destruct (String.eqb _ _).
    + succeeded.
      exists payload, (x :: l), (x :: l).
      repeat (split; [done || (cbn [length] in *; lia)|]). done.
    + succeeded. apply Hok.
  - succeeded. apply Hok.
Qed.

(** Every recorded count lies between 1 and the limit. *)
Definition countsOk (requestCounts : gmap string rate_record) : Prop :=
  forall ip record,
    requestCounts !! ip = Some record -> 1 <= count record <= RATE_LIMIT.

(** X18. [POST] changes [requestCounts] at the caller's address only and
    never removes an address. It refuses with 429 exactly when the
    caller's record is inside its window with a count at the limit, and
    then leaves the table as it is. Counts that lie between 1 and the
    limit stay there, and the end of a window never moves back. *)
Theorem POST_requestCounts (now : Z) (requestCounts : gmap string rate_record)
    (req : request) :
  let r := POST now requestCounts req in
  (forall ip, ip <> clientIp req -> r.2 !! ip = requestCounts !! ip)
  /\ (forall ip, is_Some (requestCounts !! ip) -> is_Some (r.2 !! ip))
  /\ is_Some (r.2 !! clientIp req)
  /\ (status r.1 = 429 <->
      exists record, requestCounts !! clientIp req = Some record
                     /\ now <= resetTime record /\ RATE_LIMIT <= count record)
  /\ (status r.1 = 429 -> r.2 = requestCounts)
  /\ (countsOk requestCounts -> countsOk r.2)
  /\ forall ip record record',
       requestCounts !! ip = Some record -> r.2 !! ip = Some record' ->
       resetTime record <= resetTime record'.
Proof.
  cbv zeta.
  pose proof (handleAllowed_status DEEPL_API_KEY toUpperCase fetch) as Hst.
  assert (forall (record : rate_record),
            (forall ip, ip <> clientIp req ->
               <[clientIp req := record]> requestCounts !! ip = requestCounts !! ip)
            /\ (forall ip, is_Some (requestCounts !! ip) ->
                  is_Some (<[clientIp req := record]> requestCounts !! ip))
            /\ is_Some (<[clientIp req := record]> requestCounts !! clientIp req))
    as Hins.
  { intros record. split; [by intros ip Hip; rewrite lookup_insert_ne|].
    split; [|by rewrite lookup_insert_eq].
    intros ip Hip. destruct (decide (ip = clientIp req)) as [->|Hne];
      [by rewrite lookup_insert_eq | by rewrite lookup_insert_ne]. }
  assert (forall (record : rate_record),
            1 <= count record <= RATE_LIMIT ->
            countsOk requestCounts ->
            countsOk (<[clientIp req := record]> requestCounts)) as Hok.
  { intros record Hc Hall ip rec'.
    destruct (decide (ip = clientIp req)) as [->|Hne].
    - rewrite lookup_insert_eq. by intros [= <-].
    - rewrite lookup_insert_ne by done. apply Hall. }
  assert (forall (record : rate_record),
            (forall old, requestCounts !! clientIp req = Some old ->
                         resetTime old <= resetTime record) ->
            forall ip old record',
              requestCounts !! ip = Some old ->
              <[clientIp req := record]> requestCounts !! ip = Some record' ->
              resetTime old <= resetTime record') as Hmono.
  { intros record Hold ip old record' Hip.
    destruct (decide (ip = clientIp req)) as [->|Hne].
    - rewrite lookup_insert_eq. intros [= <-]. by apply Hold.
    - rewrite lookup_insert_ne by done. rewrite Hip. intros [= <-]. lia. }
  unfold Route.POST, getRateLimitInfo.
  unfold RATE_LIMIT, RATE_WINDOW in *.
  destruct (requestCounts !! clientIp req) as [record|] eqn:Hrec.
  - destruct (now >? resetTime record) eqn:Hnow;
      [|destruct (count record >=? 100) eqn:Hc];
      cbn [negb allowed fst snd status].
    + destruct (Hins {| count := 1; resetTime := now + 60 * 1000 |})
        as (H1 & H2 & H3).
      split; [done|]. split; [done|]. split; [done|].
      split. { split; [by intros H; apply Hst in H|].
               intros (rec' & [= <-] & Hle & _). lia. }
      split; [by intros H; apply Hst in H|].
      split; [apply Hok; cbn; lia|].
      apply Hmono. intros old [= <-]. cbn. lia.
    + split; [done|]. split; [done|]. split; [by rewrite Hrec|].
      split. { split; [|done]. intros _. exists record. split; [done|]. lia. }
      split; [done|]. split; [done|].
      intros ip old record' Hold. rewrite Hold. intros [= <-]. lia.
    + destruct (Hins {| count := count record + 1; resetTime := resetTime record |})
        as (H1 & H2 & H3).
      split; [done|]. split; [done|]. split; [done|].
      split. { split; [by intros H; apply Hst in H|].
               intros (rec' & [= <-] & _ & Hle). lia. }
      split; [by intros H; apply Hst in H|].
      split.
      * intros Hall. apply Hok; [|done]. cbn. specialize (Hall _ _ Hrec). lia.
      * apply Hmono. intros old [= <-]. cbn. lia.
  - cbn [negb allowed fst snd status].
    destruct (Hins {| count := 1; resetTime := now + 60 * 1000 |})
      as (H1 & H2 & H3).
    split; [done|]. split; [done|]. split; [done|].
    split. { split; [by intros H; apply Hst in H|]. by intros (rec' & [=] & _). }
    split; [by intros H; apply Hst in H|].
    split; [apply Hok; cbn; lia|].
    apply Hmono. by intros old [=].
Qed.

End RouteMoreFacts.
Lemma route_keeps_client_target_witness :
  LanguageCodes.toDeepLTarget "zh-TW" = JS.Str "ZH-HANT"
  /\ Route.toDeepLTarget "ZH-HANT" = JS.Str "ZH-HANS"
  /\ Route.toDeepLTarget "PT-PT" = JS.Str "PT-PT".
Proof.
  split; [reflexivity|]. split.
  - apply (route_keeps_client_target "zh-TW" "ZH-HANT"); reflexivity.
  - apply (route_keeps_client_target "pt-PT" "PT-PT"); [reflexivity|discriminate].
Defined.

Lemma POST_response_witness :
  exists translations,
    translationsOf
      (Route.POST None id germanReply 0 ∅ sampleRequest).1 = Some translations
    /\ length translations = 1%nat.
Proof.
  destruct (POST_response None id germanReply 0 ∅ sampleRequest)
    as [[Hrej _]|(_ & _ & H & _)]; [discriminate Hrej|].
  destruct H as (payload & texts_ & translations & Hj & Ht & _ & _ & Htr & Hlen).
  - reflexivity.
  - exists translations. split; [exact Htr|].
    rewrite Hlen. vm_compute in Hj. injection Hj as <-.
    vm_compute in Ht. injection Ht as <-. reflexivity.
Defined.

Lemma POST_requestCounts_witness :
  countsOk (Route.POST None id germanReply 0 ∅ sampleRequest).2.
Proof.
  destruct (POST_requestCounts None id germanReply 0 ∅ sampleRequest)
    as (_ & _ & _ & _ & _ & H & _).
  apply H. intros ip record Hip. by rewrite lookup_empty in Hip.
Defined.

(** ** Further properties of the language preference *)

Section PersistenceFacts.
Import LanguageCodes TranslationContext.
Local Arguments String.eqb : simpl never.

(** The states of a provider mounted in a browser whose storage accepts
    every write. *)
Inductive persisting : provider -> Prop :=
| persisting_mount serverLanguage window items :
    persisting (mount false serverLanguage window (Some items))
| persisting_setLanguage lang p :
    persisting p -> persisting (setLanguage false lang p)
| persisting_triggerRetranslation p :
    persisting p -> persisting (triggerRetranslation p)
| persisting_setIsTranslating value p :
    persisting p -> persisting (setIsTranslating value p).

(** The storage holds the current language under [STORAGE_KEY]. *)
Definition stored (p : provider) : Prop :=
  exists items, localStorage p = Some items
                /\ items !! STORAGE_KEY = Some (currentLanguage p).

Lemma persisting_reachable (p : provider) : persisting p -> reachable p.
Proof. induction 1; by constructor. Qed.

Lemma persistEffect_stored (p : provider) :
  is_Some (localStorage p) -> stored (persistEffect false p).
Proof.
  intros [items Hs]. unfold persistEffect, stored. rewrite Hs.
  cbn [localStorage currentLanguage]. eexists. split; [done|].
  apply lookup_insert_eq.
Qed.

Lemma render_stored (previous : string) (p : provider) (items : gmap string string) :
  localStorage p = Some items -> items !! STORAGE_KEY = Some previous ->
  stored (render false previous p).
Proof.
  intros Hs Hk. unfold render.
  destruct (String.eqb (currentLanguage p) previous) eqn:E.
  - apply String.eqb_eq in E. exists items. by rewrite E.
  - apply persistEffect_stored. by rewrite Hs.
Qed.

Lemma persisting_stored (p : provider) : persisting p -> stored p.
Proof.
  induction 1 as [sl w items|lang p _ IH|p _ IH|v p _ IH].
  - by apply persistEffect_stored.
  - destruct IH as (items & Hs & Hk). unfold setLanguage.
    destruct (negb (isLanguageSupported (getBaseLanguage lang))).
    + by apply (render_stored _ _ items).
    + destruct (negb (String.eqb _ _)); [|by exists items].
      by apply (render_stored _ _ items).
  - exact IH.
  - exact IH.
Qed.

(** X19. In a browser whose storage accepts every write, the current
    language is at every moment the one stored under [STORAGE_KEY]; and a
    provider mounted again over that storage, without a server-side
    preference, starts in the same language whatever the browser's own
    language is. *)
Theorem preference_survives_reload (p : provider) :
  persisting p ->
  exists items,
    localStorage p = Some items
    /\ items !! STORAGE_KEY = Some (currentLanguage p)
    /\ forall window,
         storedItem window = Some (items !! STORAGE_KEY) ->
         getInitialLanguage None (Some window) = currentLanguage p.
Proof.
  intros Hp. destruct (persisting_stored p Hp) as (items & Hs & Hk).
  exists items. split; [done|]. split; [done|].
  intros w Hw. unfold getInitialLanguage. cbn [JS.truthy_opt andb].
  rewrite Hw, Hk. cbn [default from_option id JS.truthy_opt].
  destruct (reachable_checked p (persisting_reachable p Hp)) as [Hsup Hbase].
  rewrite Hsup, Hbase.
  destruct (currentLanguage p); [discriminate Hsup|done].
Qed.

End PersistenceFacts.

Lemma preference_survives_reload_witness :
  TranslationContext.getInitialLanguage None
    (Some {| TranslationContext.storedItem := Some (Some "es");
             TranslationContext.navigatorLanguage := Some "de-DE";
             TranslationContext.navigatorUserLanguage := None |})
  = "es".
Proof.
  destruct (preference_survives_reload
              (TranslationContext.setLanguage false "es-MX"
                 (TranslationContext.mount false None None (Some ∅))))
    as (items & Hs & Hk & H).
  - apply persisting_setLanguage, persisting_mount.
  - apply (H {| TranslationContext.storedItem := Some (Some "es");
               TranslationContext.navigatorLanguage := Some "de-DE";
               TranslationContext.navigatorUserLanguage := None |}).
    cbn [TranslationContext.storedItem]. rewrite Hk. reflexivity.
Defined.

(** ** Further properties of the DOM translator *)

Section DomMoreFacts.
Import Dom.
Local Arguments String.eqb : simpl never.

Lemma restoreAttrs_quiet_id (attrs : list string) :
  forall a,
  (forall b, b ∈ attrs -> JS.truthy_opt (a !! marker b) = false) ->
  restoreAttrs attrs a = a.
Proof.
  induction attrs as [|x l IH]; intros a Hq; [done|].
  unfold restoreAttrs. cbn [fold_left]. fold (restoreAttrs l (restoreAttr x a)).
  assert (restoreAttr x a = a) as ->.
  { unfold restoreAttr. specialize (Hq x ltac:(left)).
    destruct (a !! marker x) as [o|]; [|done].
    cbn [JS.truthy_opt] in Hq. by rewrite Hq. }
  apply IH. intros b Hb. apply Hq. by right.
Qed.

Lemma restoreAttrs_marker_quiet (attrs : list string) (b : string) :
  forall a,
  (forall b', b' ∈ attrs -> b' <> b -> marker b <> b' /\ marker b <> marker b') ->
  JS.truthy_opt (a !! marker b) = false ->
  restoreAttrs attrs a !! marker b = a !! marker b.
Proof.
  induction attrs as [|x l IH]; intros a Hdist Hq; [done|].
  unfold restoreAttrs. cbn [fold_left]. fold (restoreAttrs l (restoreAttr x a)).
  assert (restoreAttr x a !! marker b = a !! marker b) as Hx.
  { destruct (decide (x = b)) as [->|Hne].
    - unfold restoreAttr. destruct (a !! marker b) as [o|] eqn:Ho; [|done].
      cbn [JS.truthy_opt] in Hq. by rewrite Hq.
    - destruct (Hdist x) as [? ?]; [left|done|]. by apply restoreAttr_other. }
  rewrite IH; [done| |by rewrite Hx].
  intros b' Hb'. apply Hdist. by right.
Qed.

Lemma restoreAttrs_quiet (a : gmap string string) (b : string) :
  b ∈ TRANSLATABLE_ATTRS ->
  JS.truthy_opt (restoreAttrs TRANSLATABLE_ATTRS a !! marker b) = false.
Proof.
  intros Hb. destruct (attribute_keys_distinct b Hb) as (Hself & _ & _ & Hdist).
  destruct (JS.truthy_opt (a !! marker b)) eqn:Hq.
  - destruct (a !! marker b) as [o|] eqn:Ho; [|done].
    destruct (restoreAttrs_marker TRANSLATABLE_ATTRS b o a
                TRANSLATABLE_ATTRS_NoDup Hb Hself Hdist Ho) as [_ ->]; [|done].
    intros ->. done.
  - rewrite restoreAttrs_marker_quiet; [done| |done].
    intros b' Hb' Hne. destruct (Hdist b' Hb' Hne) as (_ & ? & ?). done.
Qed.

Lemma sweepAttrs_idem (n : node) :
  sweepAttrs TRANSLATABLE_ATTRS (sweepAttrs TRANSLATABLE_ATTRS n)
  = sweepAttrs TRANSLATABLE_ATTRS n.
Proof.
  induction n as [d|i t a c ks IH] using node_ind'.
  - by rewrite !sweepAttrs_text.
  - rewrite !sweepAttrs_root. f_equal.
    + apply restoreAttrs_quiet_id. intros b Hb. by apply restoreAttrs_quiet.
    + rewrite <- list_fmap_compose. apply Forall_fmap_ext_1.
      eapply Forall_impl; [exact IH|]. intros x Hx. exact Hx.
Qed.

Lemma sweepAttrs_ids (attrs : list string) :
  forall n,
  elementIds (sweepAttrs attrs n) `sublist_of` elementIds n
  /\ (NoDup (elementIds n) -> NoDup (elementIds (sweepAttrs attrs n))).
Proof.
  induction attrs as [|b l IH]; intros n; [done|].
  rewrite sweepAttrs_cons. destruct (IH (sweepAttr b n)) as [Hs Hn].
  split.
  - etrans; [exact Hs|].
    apply (sweep_ids _ _ (fun _ => true) (revertAttribute_shape b)).
  - intros Hnd. apply Hn.
    by apply (sweep_NoDup _ _ (fun _ => true) (revertAttribute_shape b)).
Qed.

Lemma reverted_unmarked (doc d : node) :
  d ∈ elementsOf (sweepAttrs TRANSLATABLE_ATTRS (sweepText doc)) ->
  hasAttribute "data-original-text" d = false.
Proof.
  rewrite elementsOf_sweepAttrs_eq, elementsOf_sweepText, <- list_fmap_compose.
  intros (e & -> & He)%list_elem_of_fmap.
  destruct (kept_is_element _ _ He) as (i & t & a & c & ks & ->).
  destruct (element_reverted i t a c ks) as (_ & Hm & _).
  unfold hasAttribute. cbn [compose]. by rewrite Hm.
Qed.

(** Reverting a second time changes nothing. *)
Lemma revertTranslations_twice (doc : node) :
  NoDup (elementIds doc) ->
  revertTranslations (revertTranslations doc) = revertTranslations doc
  /\ NoDup (elementIds (revertTranslations doc))
  /\ elementIds (revertTranslations doc) `sublist_of` elementIds doc.
Proof.
  intros Hnd. rewrite (revertTranslations_sweep doc Hnd).
  assert (NoDup (elementIds (sweepText doc))) as Hnd1
    by (by apply sweep_NoDup; [apply revertText_shape|]).
  destruct (sweepAttrs_ids TRANSLATABLE_ATTRS (sweepText doc)) as [Hsub Hnd2].
  split; [|split; [by apply Hnd2|]].
  - rewrite revertTranslations_sweep by (by apply Hnd2).
    rewrite (sweepText_unmarked (sweepAttrs _ _)).
    + apply sweepAttrs_idem.
    + intros d Hd. by apply (reverted_unmarked doc).
  - etrans; [exact Hsub|]. apply (sweep_ids _ _ _ revertText_shape).
Qed.

(** X20. On a document whose elements are distinct, [revertTranslations]
    is idempotent: reverting a reverted document changes nothing. It adds
    no element and keeps the remaining elements in document order. *)
Theorem revertTranslations_idempotent (doc : node) :
  NoDup (elementIds doc) ->
  revertTranslations (revertTranslations doc) = revertTranslations doc
  /\ elementIds (revertTranslations doc) `sublist_of` elementIds doc.
Proof.
  intros Hnd. destruct (revertTranslations_twice doc Hnd) as (H1 & _ & H2).
  by split.
Qed.

(** X21. Running the language effect again for the language it has just
    handled leaves the document and the refs as they are and schedules no
    scan. (For English this needs the first run not to be the initial
    mount, which does not revert.) *)
Theorem languageEffect_rerun (currentLanguage : string) (t : translator) :
  NoDup (elementIds (document t)) ->
  currentLanguage <> "en" \/ isInitialMountRef t = false ->
  languageEffect currentLanguage (languageEffect currentLanguage t).1
  = ((languageEffect currentLanguage t).1, []).
Proof.
  intros Hnd Hcase. unfold languageEffect at 2 3.
  destruct (String.eqb currentLanguage "en") eqn:Hen.
  - apply String.eqb_eq in Hen as ->.
    destruct Hcase as [?|Hm]; [done|]. rewrite Hm. cbn [negb fst].
    unfold languageEffect.
    cbn [document previousLanguageRef isInitialMountRef negb].
    rewrite String.eqb_refl.
    by rewrite (proj1 (revertTranslations_twice _ Hnd)).
  - assert (forall doc sched,
              languageEffect currentLanguage
                ({| document := doc; previousLanguageRef := currentLanguage;
                    isInitialMountRef := false |}, sched : list scheduled).1
              = ({| document := doc; previousLanguageRef := currentLanguage;
                    isInitialMountRef := false |}, [])) as Hrun.
    { intros doc sched. unfold languageEffect.
      cbn [fst document previousLanguageRef isInitialMountRef negb].
      by rewrite Hen, String.eqb_refl. }
    destruct (isInitialMountRef t); [apply Hrun|].
    destruct (negb (String.eqb (previousLanguageRef t) currentLanguage));
      [|apply Hrun].
    destruct (negb (String.eqb (previousLanguageRef t) "en")); apply Hrun.
Qed.






















End DomMoreFacts.
Lemma translatedPage_NoDup :
  NoDup (Dom.elementIds (Dom.document translatedPage)).
Proof.
  vm_compute.
  repeat (apply NoDup_cons_2; [rewrite ?elem_of_cons, elem_of_nil; lia|]).
  apply NoDup_nil_2.
Defined.

Lemma revertTranslations_idempotent_witness :
  Dom.revertTranslations (Dom.revertTranslations (Dom.document translatedPage))
  = Dom.revertTranslations (Dom.document translatedPage).
Proof.
  exact (proj1 (revertTranslations_idempotent (Dom.document translatedPage)
                  translatedPage_NoDup)).
Defined.

Lemma languageEffect_rerun_witness :
  Dom.languageEffect "en" (Dom.languageEffect "en" translatedPage).1
  = ((Dom.languageEffect "en" translatedPage).1, []).
Proof.
  apply (languageEffect_rerun "en" translatedPage translatedPage_NoDup).
  right. reflexivity.
Defined.


(** ** Properties of the profile endpoint *)

Section UserLanguageFacts.
Import LanguageCodes TranslationContext.
Local Arguments String.eqb : simpl never.

Lemma toLowerCase_length (s : string) :
  String.length (JS.toLowerCase s) = String.length s.
Proof. induction s as [|c r IH]; [done|]. cbn. by rewrite IH. Qed.

Lemma lowerChar_letter (c : ascii) :
  UserLanguage.isAsciiLetter c = true ->
  UserLanguage.isAsciiLetter (JS.lowerChar c) = true.
Proof. destruct c as [[] [] [] [] [] [] [] []]; vm_compute; congruence. Qed.

Lemma toLowerCase_validFormat (s : string) :
  UserLanguage.validFormat s = true ->
  UserLanguage.validFormat (JS.toLowerCase s) = true.
Proof.
  unfold UserLanguage.validFormat. rewrite toLowerCase_length.
  intros [Hlen Hall]%andb_true_iff. rewrite Hlen. cbn [andb].
  clear Hlen. induction s as [|c r IH]; [done|].
  cbn in Hall |- *. apply andb_true_iff in Hall as [Hc Hr].
  by rewrite lowerChar_letter, IH.
Qed.

Lemma toLowerCase_idem (s : string) :
  JS.toLowerCase (JS.toLowerCase s) = JS.toLowerCase s.
Proof. induction s as [|c r IH]; [done|]. cbn. by rewrite lowerChar_idem, IH. Qed.

(** X23. When the profile endpoint reports a language as saved, a later
    [GET] for the same session returns it: the code posted, in lower case,
    which is made of two or three ASCII letters. The call was made by a
    logged-in user with a row and changed the row of that user only. *)
Theorem profile_round_trip (session : option string) (body : option (option string))
    (dbThrows : bool) (users users' : gmap string (option string)) :
  UserLanguage.POST session body dbThrows users = (UserLanguage.Success true, users') ->
  exists userId languageCode,
    session = Some userId /\ body = Some (Some languageCode)
    /\ is_Some (users !! userId)
    /\ UserLanguage.validFormat (JS.toLowerCase languageCode) = true
    /\ JS.toLowerCase (JS.toLowerCase languageCode) = JS.toLowerCase languageCode
    /\ UserLanguage.GET session false users' = Some (JS.toLowerCase languageCode)
    /\ forall other, other <> userId -> users' !! other = users !! other.
Proof.
  unfold UserLanguage.POST, UserLanguage.GET.
  destruct session as [userId|]; [|discriminate].
  cbn [JS.truthy_opt default from_option id].
  destruct (JS.truthy userId); cbn [negb]; [|discriminate].
  destruct body as [[languageCode|]|]; try discriminate.
  cbn [JS.truthy_opt default from_option id].
  destruct (JS.truthy languageCode); cbn [negb]; [|discriminate].
  destruct (UserLanguage.validFormat languageCode) eqn:Hvalid; cbn [negb];
    [|discriminate].
  destruct (users !! userId) as [old|] eqn:Hrow; [|discriminate].
  destruct dbThrows; [discriminate|]. intros [= <-].
  exists userId, languageCode.
  split; [done|]. split; [done|]. split; [done|].
  pose proof (toLowerCase_validFormat _ Hvalid) as Hlow.
  split; [done|]. split; [apply toLowerCase_idem|]. split.
  - rewrite lookup_insert_eq. cbn [default from_option id]. unfold JS.or_else.
    destruct (JS.toLowerCase languageCode) eqn:E; [|done].
    by vm_compute in Hlow.
  - intros other Hne. by rewrite lookup_insert_ne.
Qed.

Lemma setLanguage_syncs (setItemThrows : bool) (lang l : string) (p : provider) :
  SyncToProfile l ∈ effects (setLanguage setItemThrows lang p) ->
  SyncToProfile l ∈ effects p
  \/ (l = getBaseLanguage lang /\ isLanguageSupported l = true).
Proof.
  unfold setLanguage, render, persistEffect.
  destruct (isLanguageSupported (getBaseLanguage lang)) eqn:Hs; cbn [negb].
  - destruct (String.eqb (getBaseLanguage lang) (currentLanguage p)); cbn [negb];
      [by left|].
    cbn [currentLanguage localStorage effects isTranslating translationVersion
         bumpVersion emit setCurrentLanguage].
    destruct (String.eqb _ _); [|destruct (localStorage p)];
      simpl; rewrite ?elem_of_app, ?elem_of_cons, ?elem_of_nil;
      intros H; decompose [or] H; try done; try (by left);
      right; split; congruence.
  - cbn [currentLanguage localStorage effects isTranslating translationVersion
         emit setCurrentLanguage].
    destruct (String.eqb _ _); [|destruct (localStorage p)];
      simpl; rewrite ?elem_of_app, ?elem_of_cons, ?elem_of_nil;
      intros H; decompose [or] H; try done; by left.
Qed.

(** The codes of the registry pass the format check of the endpoint and
    are in lower case. *)
Lemma registryCodes_valid :
  forallb (fun code => UserLanguage.validFormat code
                       && String.eqb (JS.toLowerCase code) code)
    registryCodes = true.
Proof. vm_compute. reflexivity. Qed.

(** X24. Every language the provider ever asks the profile endpoint to
    save is either a code of the registry, which the endpoint stores
    unchanged for a logged-in user with a row, or one of the two inherited
    property names the support test lets through, which the endpoint
    refuses with status 400. *)
Theorem synced_language_is_stored (p : provider) (l : string) :
  reachable p -> SyncToProfile l ∈ effects p ->
  forall userId old users,
    JS.truthy userId = true -> users !! userId = Some old ->
    (l ∈ registryCodes
     /\ UserLanguage.POST (Some userId) (Some (Some l)) false users
        = (UserLanguage.Success true, <[userId := Some l]> users))
    \/ ((l = "constructor" \/ l = "__proto__")
        /\ UserLanguage.POST (Some userId) (Some (Some l)) false users
           = (UserLanguage.Failure 400 "Invalid language code format", users)).
Proof.
  intros Hreach Hin userId old users Hid Hrow.
  assert (isLanguageSupported l = true /\ getBaseLanguage l = l) as [Hsup Hbase].
  { induction Hreach as [f sl w st|f lang p _ IH|p _ IH|v p _ IH].
    - exfalso. revert Hin. unfold mount, persistEffect. cbn [localStorage].
      destruct st; cbn [effects]; rewrite ?elem_of_app, ?elem_of_cons, ?elem_of_nil;
        intros H; decompose [or] H; done.
    - apply setLanguage_syncs in Hin as [Hin|[-> Hs]]; [by apply IH|].
      split; [done|apply getBaseLanguage_idem].
    - by apply IH.
    - by apply IH. }
  unfold UserLanguage.POST. cbn [JS.truthy_opt default from_option id].
  rewrite Hid, Hrow. cbn [negb].
  destruct (isLanguageSupported_inv l Hsup) as [Hreg|Hproto];
    rewrite Hbase in *.
  - left. split; [done|].
    pose proof (proj1 (forallb_forall _ _) registryCodes_valid l
                  (proj1 (list_elem_of_In _ _) Hreg)) as Hv.
    apply andb_true_iff in Hv as [Hv Hl]. apply String.eqb_eq in Hl.
    rewrite Hl, Hv.
    destruct l; [by vm_compute in Hv|]. done.
  - right. split; [done|]. by destruct Hproto as [->| ->].
Qed.

End UserLanguageFacts.

Definition oneUser : gmap string (option string) := {[ "u1" := None ]}.

Lemma profile_round_trip_witness :
  UserLanguage.GET (Some "u1") false
    (UserLanguage.POST (Some "u1") (Some (Some "DE")) false oneUser).2
  = Some "de".
Proof.
  destruct (profile_round_trip (Some "u1") (Some (Some "DE")) false oneUser
              (UserLanguage.POST (Some "u1") (Some (Some "DE")) false oneUser).2)
    as (userId & code & _ & Hbody & _ & _ & _ & Hget & _).
  - vm_compute. reflexivity.
  - injection Hbody as <-. exact Hget.
Defined.

Lemma synced_language_is_stored_witness :
  UserLanguage.POST (Some "u1") (Some (Some "es")) false oneUser
  = (UserLanguage.Success true, <[ "u1" := Some "es" ]> oneUser).
Proof.
  assert (TranslationContext.SyncToProfile "es"
          ∈ TranslationContext.effects
              (TranslationContext.setLanguage false "es-MX"
                 (TranslationContext.mount false None None (Some ∅)))) as Hin.
  { apply list_elem_of_In. vm_compute. auto 10. }
  assert (oneUser !! "u1" = Some None) as Hrow by (vm_compute; reflexivity).
  destruct (synced_language_is_stored _ "es"
              (TranslationContext.reach_setLanguage _ _ _
                 (TranslationContext.reach_mount _ _ _ _))
              Hin "u1" None oneUser eq_refl Hrow)
    as [[_ H]|[[H|H] _]].
  - exact H.
  - discriminate H.
  - discriminate H.
Defined.

Section StaleCacheFacts.
Variable hashContent : string -> string.
Variable DEEPL_API_KEY : option string.
Variable toUpperCase : string -> string.
Variable fetch : DeepL.deepl_request -> DeepL.deepl_reply.
Variable env : Cache.db_env.
Hypothesis read_ok : Cache.read_throws env = false.
Hypothesis write_ok : Cache.write_throws env = false.
Local Arguments String.eqb : simpl never.

(** X25. With a working database, a cached translation is never served
    for content it was not made from. When the row of the requested field
    holds another source hash than the content's, [translateForUser] asks
    the provider, returns what the provider path returns, and replaces the
    row: the table then holds the content's hash with that result, and
    every other row is as before. *)
Theorem translateForUser_refreshes_stale
    (db : gmap (string * string * string * string) Cache.translation_row)
    (params : Translation.TranslateForUserParams) (row : Cache.translation_row) :
  Translation.sourceLanguage params <> Translation.targetLanguage params ->
  JS.truthy (JS.trim (Translation.content params)) = true ->
  db !! (Translation.entityType params, Translation.entityId params,
         Translation.fieldName params, Translation.targetLanguage params)
  = Some row ->
  Cache.sourceHash row <> hashContent (Translation.content params) ->
  let r := Translation.translateForUser hashContent DEEPL_API_KEY toUpperCase
             fetch env db params in
  r.1 = (DeepL.translateText DEEPL_API_KEY toUpperCase fetch
           (Translation.content params) (Translation.sourceLanguage params)
           (Translation.targetLanguage params)).1
  /\ (exists row',
        r.2 !! (Translation.entityType params, Translation.entityId params,
                Translation.fieldName params, Translation.targetLanguage params)
        = Some row'
        /\ Cache.sourceHash row' = hashContent (Translation.content params)
        /\ Cache.translatedContent row' = r.1)
  /\ forall k,
       k <> (Translation.entityType params, Translation.entityId params,
             Translation.fieldName params, Translation.targetLanguage params) ->
       r.2 !! k = db !! k.
Proof.
  intros Hlang Hcontent Hrow Hhash. cbv zeta.
  split; [|split; [|intros k Hk; by apply translateForUser_frame]].
  - unfold Translation.translateForUser.
    apply String.eqb_neq in Hlang. rewrite Hlang.
    assert (JS.truthy (Translation.content params) = true) as Hc.
    { destruct (Translation.content params); [done|done]. }
    rewrite Hc, Hcontent. cbn [negb orb].
    unfold Cache.getCachedTranslationWithHash. rewrite read_ok, Hrow.
    apply String.eqb_neq in Hhash. by rewrite Hhash.
  - unfold Translation.translateForUser.
    apply String.eqb_neq in Hlang. rewrite Hlang.
    assert (JS.truthy (Translation.content params) = true) as Hc.
    { destruct (Translation.content params); [done|done]. }
    rewrite Hc, Hcontent. cbn [negb orb].
    unfold Cache.getCachedTranslationWithHash. rewrite read_ok, Hrow.
    apply String.eqb_neq in Hhash. rewrite Hhash. cbn [JS.truthy_opt fst snd].
    unfold Cache.setCachedTranslation. rewrite write_ok.
    cbn [Cache.p_entityType Cache.p_entityId Cache.p_fieldName
         Cache.p_targetLanguage].
    eexists. split; [apply lookup_insert_eq|]. done.
Qed.

End StaleCacheFacts.

Definition staleDb : gmap (string * string * string * string) Cache.translation_row :=
  {[ ("Post", "p1", "plainText", "de") :=
       {| Cache.sourceLanguage := "en";
          Cache.sourceHash := "Hello";
          Cache.translatedContent := "Hallo";
          Cache.modelProvider := "deepl";
          Cache.modelVersion := "v2";
          Cache.confidenceScore := None |} ]}.

Lemma translateForUser_refreshes_stale_witness :
  (Translation.translateForUser id (Some "key") id germanReply dbUp staleDb
     sampleParams).1 = "Hallo Welt".
Proof.
  assert (staleDb !! ("Post", "p1", "plainText", "de")
          = Some {| Cache.sourceLanguage := "en";
                    Cache.sourceHash := "Hello";
                    Cache.translatedContent := "Hallo";
                    Cache.modelProvider := "deepl";
                    Cache.modelVersion := "v2";
                    Cache.confidenceScore := None |}) as Hrow
    by (vm_compute; reflexivity).
  destruct (translateForUser_refreshes_stale id (Some "key") id germanReply dbUp
              eq_refl eq_refl staleDb sampleParams _
              ltac:(discriminate) eq_refl Hrow ltac:(discriminate)) as [H _].
  rewrite H. reflexivity.
Defined.

(** ** Properties of the text filter and of target extraction *)

Section RegexFacts.
Import Regex.

(** The strings a regular expression denotes. *)
Inductive lang : regex -> string -> Prop :=
| lang_Empty : lang Empty ""
| lang_Class p c : p c = true -> lang (Class p) (String c "")
| lang_Seq r s u v : lang r u -> lang s v -> lang (Seq r s) (u +:+ v)
| lang_Alt_l r s u : lang r u -> lang (Alt r s) u
| lang_Alt_r r s u : lang s u -> lang (Alt r s) u
| lang_Star_nil r : lang (Star r) ""
| lang_Star_cons r u v : lang r u -> lang (Star r) v -> lang (Star r) (u +:+ v).

Lemma append_nil_inv (u v : string) : u +:+ v = "" -> u = "" /\ v = "".
Proof. destruct u; [done|]. discriminate. Qed.

Lemma nullable_lang (r : regex) : nullable r = true <-> lang r "".
Proof.
  split.
  - induction r as [| |p|r IHr s IHs|r IHr s IHs|r IHr]; cbn; intros H;
      try discriminate.
    + constructor.
    + apply andb_true_iff in H as [Hr Hs].
      change "" with ("" +:+ ""). constructor; auto.
    + apply orb_true_iff in H as [H|H]; [apply lang_Alt_l|apply lang_Alt_r]; auto.
    + constructor.
  - intros H. remember "" as e eqn:He.
    induction H as [|p c Hc|r s u v Hu IHu Hv IHv|r s u Hu IHu|r s u Hu IHu
                    |r|r u v Hu IHu Hv IHv]; cbn; try done.
    + apply append_nil_inv in He as [-> ->]. by rewrite IHu, IHv.
    + by rewrite IHu.
    + rewrite IHu by done. apply orb_true_r.
Qed.

Lemma deriv_lang (c : ascii) (r : regex) (s : string) :
  lang (deriv c r) s <-> lang r (String c s).
Proof.
  split.
  - revert s. induction r as [| |p|r IHr t IHt|r IHr t IHt|r IHr]; cbn; intros s H.
    + inversion H.
    + inversion H.
    + destruct (p c) eqn:Hp; inversion H; subst. by constructor.
    + destruct (nullable r) eqn:Hn.
      * inversion H as [| | | ? ? ? H1 | ? ? ? H1 | |]; subst.
        -- inversion H1 as [| |? ? u v Hu Hv| | | |]; subst.
           change (String c (u +:+ v)) with (String c u +:+ v).
           constructor; auto.
        -- change (String c s) with ("" +:+ String c s).
           constructor; [by apply nullable_lang|auto].
      * inversion H as [| |? ? u v Hu Hv| | | |]; subst.
        change (String c (u +:+ v)) with (String c u +:+ v).
        constructor; auto.
    + inversion H; subst; [apply lang_Alt_l|apply lang_Alt_r]; auto.
    + inversion H as [| |? ? u v Hu Hv| | | |]; subst.
      change (String c (u +:+ v)) with (String c u +:+ v).
      constructor; auto.
  - intros H. remember (String c s) as cs eqn:Hcs. revert s Hcs.
    induction H as [|p c' Hc|r t u v Hu IHu Hv IHv|r t u Hu IHu|r t u Hu IHu
                    |r|r u v Hu IHu Hv IHv]; intros s0 Hcs; cbn; try discriminate.
    + injection Hcs as -> <-. rewrite Hc. constructor.
    + destruct u as [|c' u'].
      * change ("" +:+ v) with v in Hcs. subst v.
        assert (nullable r = true) as -> by (by apply nullable_lang).
        apply lang_Alt_r. by apply IHv.
      * change (String c' u' +:+ v) with (String c' (u' +:+ v)) in Hcs.
        injection Hcs as -> <-.
        destruct (nullable r); [apply lang_Alt_l|]; constructor; auto.
    + apply lang_Alt_l. by apply IHu.
    + apply lang_Alt_r. by apply IHu.
    + destruct u as [|c' u'].
      * change ("" +:+ v) with v in Hcs. by apply IHv.
      * change (String c' u' +:+ v) with (String c' (u' +:+ v)) in Hcs.
        injection Hcs as -> <-. constructor; auto.
Qed.

(** The matcher decides the denotation. *)
Lemma matches_lang (r : regex) (s : string) : matches r s = true <-> lang r s.
Proof.
  revert r. induction s as [|c s IH]; intros r; cbn.
  - apply nullable_lang.
  - rewrite IH. apply deriv_lang.
Qed.

Definition allChars (p : ascii -> bool) (s : string) : Prop :=
  forallb p (list_ascii_of_string s) = true.

Definition startsWith (p s : string) : Prop := exists rest, s = p +:+ rest.

Lemma append_assoc' (a b c : string) : (a +:+ b) +:+ c = a +:+ (b +:+ c).
Proof.
  induction a as [|x a IH]; [done|].
  change (String x ((a +:+ b) +:+ c) = String x (a +:+ (b +:+ c))). by rewrite IH.
Qed.

Lemma allChars_append (p : ascii -> bool) (u v : string) :
  allChars p (u +:+ v) <-> allChars p u /\ allChars p v.
Proof.
  unfold allChars. induction u as [|c u IH]; cbn.
  - change ("" +:+ v) with v. tauto.
  - change (String c u +:+ v) with (String c (u +:+ v)). cbn.
    rewrite !andb_true_iff, IH. tauto.
Qed.

Lemma lang_Star_Class (p : ascii -> bool) (s : string) :
  lang (Star (Class p)) s <-> allChars p s.
Proof.
  split.
  - intros H. remember (Star (Class p)) as r eqn:Hr.
    induction H as [| | | | |r|r u v Hu _ Hv IHv]; try discriminate; [done|].
    injection Hr as ->. apply allChars_append. split; [|by apply IHv].
    inversion Hu; subst. unfold allChars. cbn. by rewrite H0.
  - unfold allChars. induction s as [|c s IH]; cbn; [constructor|].
    intros [Hc Hs]%andb_true_iff.
    change (String c s) with (String c "" +:+ s).
    constructor; [by constructor|by apply IH].
Qed.

Lemma lang_Plus_Class (p : ascii -> bool) (s : string) :
  lang (Plus (Class p)) s <-> s <> "" /\ allChars p s.
Proof.
  unfold Plus. split.
  - intros H. inversion H as [| |? ? u v Hu Hv| | | |]; subst.
    inversion Hu; subst. split; [done|].
    apply allChars_append. split; [|by apply lang_Star_Class].
    unfold allChars. cbn. by rewrite H1.
  - intros [Hne Hall]. destruct s as [|c s]; [done|].
    unfold allChars in Hall. cbn in Hall.
    apply andb_true_iff in Hall as [Hc Hs].
    change (String c s) with (String c "" +:+ s).
    constructor; [by constructor|by apply lang_Star_Class].
Qed.

Lemma lang_Lit (p s : string) : lang (Lit p) s <-> s = p.
Proof.
  revert s. induction p as [|c p IH]; intros s; cbn.
  - split; [by inversion 1|intros ->; constructor].
  - split.
    + intros H. inversion H as [| |? ? u v Hu Hv| | | |]; subst.
      inversion Hu; subst. apply Ascii.eqb_eq in H1 as ->.
      apply IH in Hv as ->. done.
    + intros ->. change (String c p) with (String c "" +:+ p).
      constructor; [constructor; apply Ascii.eqb_refl|by apply IH].
Qed.

Lemma lang_Star_Any (s : string) : lang (Star Any) s.
Proof. apply lang_Star_Class. unfold allChars. by induction s. Qed.

Lemma lang_Seq_inv (r t : regex) (s : string) :
  lang (Seq r t) s <-> exists u v, s = u +:+ v /\ lang r u /\ lang t v.
Proof.
  split.
  - intros H. inversion H; subst. by eauto.
  - intros (u & v & -> & Hu & Hv). by constructor.
Qed.

Lemma lang_prefix (p s : string) :
  lang (Seq (Lit p) (Star Any)) s <-> startsWith p s.
Proof.
  rewrite lang_Seq_inv. split.
  - intros (u & v & -> & ->%lang_Lit & _). by exists v.
  - intros [rest ->]. exists p, rest. split; [done|].
    split; [by apply lang_Lit|apply lang_Star_Any].
Qed.

Lemma lang_urlStart (s : string) :
  lang Targets.urlStart s <-> startsWith "http://" s \/ startsWith "https://" s.
Proof.
  unfold Targets.urlStart. rewrite lang_Seq_inv. split.
  - intros (u & v & -> & ->%lang_Lit & Hv).
    apply lang_Seq_inv in Hv as (o & w & -> & Ho & Hw).
    apply lang_prefix in Hw as [rest ->].
    inversion Ho as [| | |? ? ? Hs|? ? ? He| |]; subst.
    + apply (lang_Lit "s") in Hs as ->. right. by exists rest.
    + inversion He; subst. left. by exists rest.
  - intros [[rest ->]|[rest ->]].
    + exists "http", ("://" +:+ rest). split; [done|]. split; [by apply lang_Lit|].
      apply lang_Seq_inv. exists "", ("://" +:+ rest). split; [done|].
      split; [apply lang_Alt_r; constructor|].
      apply lang_prefix. by exists rest.
    + exists "http", ("s://" +:+ rest). split; [done|]. split; [by apply lang_Lit|].
      apply lang_Seq_inv. exists "s", ("://" +:+ rest). split; [done|].
      split; [apply lang_Alt_l; by apply lang_Lit|].
      apply lang_prefix. by exists rest.
Qed.

(** A character of the local part or the domain of an address. *)
Definition isAddressChar (c : ascii) : bool :=
  isWord c || Ascii.eqb c "." || Ascii.eqb c "-".

(** The shape [local@domain.tld]. *)
Definition emailShape (s : string) : Prop :=
  exists local domain tld,
    s = local +:+ "@" +:+ domain +:+ "." +:+ tld
    /\ local <> "" /\ allChars isAddressChar local
    /\ domain <> "" /\ allChars isAddressChar domain
    /\ tld <> "" /\ allChars isWord tld.

Lemma lang_emailLike (s : string) : lang Targets.emailLike s <-> emailShape s.
Proof.
  unfold Targets.emailLike, emailShape. cbv zeta. fold isAddressChar.
  change (fun c => isWord c || Ascii.eqb c "." || Ascii.eqb c "-")
    with isAddressChar.
  rewrite lang_Seq_inv. split.
  - intros (l & v & -> & [Hl1 Hl2]%lang_Plus_Class & Hv).
    apply lang_Seq_inv in Hv as (a & v2 & -> & ->%lang_Lit & Hv).
    apply lang_Seq_inv in Hv as (d & v3 & -> & [Hd1 Hd2]%lang_Plus_Class & Hv).
    apply lang_Seq_inv in Hv as (dot & t & -> & ->%lang_Lit & [Ht1 Ht2]%lang_Plus_Class).
    exists l, d, t. done.
  - intros (l & d & t & -> & Hl1 & Hl2 & Hd1 & Hd2 & Ht1 & Ht2).
    exists l, ("@" +:+ d +:+ "." +:+ t). split; [done|].
    split; [by apply lang_Plus_Class|].
    apply lang_Seq_inv. exists "@", (d +:+ "." +:+ t). split; [done|].
    split; [by apply lang_Lit|].
    apply lang_Seq_inv. exists d, ("." +:+ t). split; [done|].
    split; [by apply lang_Plus_Class|].
    apply lang_Seq_inv. exists ".", t. split; [done|].
    split; [by apply lang_Lit|by apply lang_Plus_Class].
Qed.

(** A code unit that is a digit, white space, punctuation or a symbol. *)
Definition isMark (c : ascii) : bool :=
  isDigit c || JS.isWhiteSpace c || isPunctuation c || isSymbol c.

(** X26. What the text filter lets through, without regular expressions:
    [shouldTranslateText] accepts a text exactly when, after trimming, it
    has at least two code units, not all of them digits, white space,
    punctuation or symbols; does not start with "http://", "https://" or
    "www."; and does not have the shape [local@domain.tld] of an address
    (word characters, dots and hyphens around one "@", a dot and a final
    run of word characters). *)
Theorem shouldTranslateText_spec (text : string) :
  Targets.shouldTranslateText text = true <->
  (2 <= String.length (JS.trim text))%nat
  /\ ~ allChars isMark (JS.trim text)
  /\ ~ startsWith "http://" (JS.trim text)
  /\ ~ startsWith "https://" (JS.trim text)
  /\ ~ startsWith "www." (JS.trim text)
  /\ ~ emailShape (JS.trim text).
Proof.
  unfold Targets.shouldTranslateText, Targets.MIN_TEXT_LENGTH. cbv zeta.
  generalize (JS.trim text). intros s.
  destruct (String.length s <? 2)%nat eqn:Hlen.
  { apply Nat.ltb_lt in Hlen. split; [done|]. intros [? _]. lia. }
  apply Nat.ltb_ge in Hlen.
  assert (s <> "") as Hne by (intros ->; cbn in Hlen; lia).
  assert (matches Targets.onlyMarks s = true <-> allChars isMark s) as Hmarks.
  { rewrite matches_lang. unfold Targets.onlyMarks. fold isMark.
    change (fun c => isDigit c || JS.isWhiteSpace c || isPunctuation c || isSymbol c)
      with isMark.
    rewrite lang_Plus_Class. tauto. }
  assert (matches Targets.urlStart s = true <->
          startsWith "http://" s \/ startsWith "https://" s) as Hurl
    by (rewrite matches_lang; apply lang_urlStart).
  assert (matches Targets.wwwStart s = true <-> startsWith "www." s) as Hwww
    by (rewrite matches_lang; apply lang_prefix).
  assert (matches Targets.emailLike s = true <-> emailShape s) as Hmail
    by (rewrite matches_lang; apply lang_emailLike).
  destruct (matches Targets.onlyMarks s);
    [split; [done|]; intros (_ & H & _); exfalso; apply H; by apply Hmarks|].
  destruct (matches Targets.urlStart s); cbn [orb].
  { split; [done|]. intros (_ & _ & H1 & H2 & _).
    destruct (proj1 Hurl eq_refl); tauto. }
  destruct (matches Targets.wwwStart s).
  { split; [done|]. intros (_ & _ & _ & _ & H & _). exfalso. apply H.
    by apply Hwww. }
  destruct (matches Targets.emailLike s).
  { split; [done|]. intros (_ & _ & _ & _ & _ & H). exfalso. apply H.
    by apply Hmail. }
  split; [|done]. intros _.
  split; [done|]. split; [by intros H%Hmarks|].
  split; [intros H; by assert (false = true) by (apply Hurl; by left)|].
  split; [intros H; by assert (false = true) by (apply Hurl; by right)|].
  split; [by intros H%Hwww|by intros H%Hmail].
Qed.

End RegexFacts.
Section TargetFacts.
Import Dom Targets.
Variable translatedNodes : gmap (list nat) string.
Variable currentLanguage : string.
Local Arguments String.eqb : simpl never.

Local Abbreviation walk := (walk translatedNodes currentLanguage).
Local Abbreviation extractTargets := (extractTargets translatedNodes currentLanguage).

(** The node at a path below [n]. *)
Fixpoint nodeAt (path : list nat) (n : Dom.node) : option Dom.node :=
  match path with
  | [] => Some n
  | i :: rest =>
      match childNodesOf n !! i with
      | Some k => nodeAt rest k
      | None => None
      end
  end.

(** An element that is not opted out by itself: its tag is not one of
    [SKIP_ELEMENTS], it carries neither [data-no-translate] nor the class
    "notranslate", and it is not [contenteditable="true"]. *)
Definition accepted (e : Dom.node) : Prop := shouldSkipElement false e = false.

(** The three kinds of target an element at [path] gives rise to: a text
    node among its children, one of its translatable attributes, and the
    extra target of an [OPTION]. *)
Definition textTarget (path : list nat) (e : Dom.node) (t : TranslationTarget) : Prop :=
  exists i data,
    childNodesOf e !! i = Some (Text data)
    /\ shouldTranslateText data = true
    /\ translatedNodes !! (path ++ [i]) <> Some currentLanguage
    /\ t = {| type := text; node := path ++ [i]; element := None;
              attribute_ := None;
              originalText :=
                JS.or_else (default "" (getAttribute "data-original-text" e))
                  data |}.

Definition attributeTarget (path : list nat) (e : Dom.node) (t : TranslationTarget)
  : Prop :=
  exists attr value,
    attr ∈ TRANSLATABLE_ATTRS
    /\ getAttribute attr e = Some value
    /\ shouldTranslateText value = true
    /\ t = {| type := attribute; node := path; element := Some path;
              attribute_ := Some attr;
              originalText :=
                JS.or_else
                  (default "" (getAttribute ("data-original-" +:+ attr) e))
                  value |}.

Definition optionTarget (path : list nat) (e : Dom.node) (t : TranslationTarget)
  : Prop :=
  tagNameOf e = "OPTION"
  /\ shouldTranslateText (textContent e) = true
  /\ t = {| type := text;
            node := match childNodesOf e with [] => path | _ :: _ => path ++ [0%nat] end;
            element := Some path;
            attribute_ := None;
            originalText :=
              JS.or_else (default "" (getAttribute "data-original-text" e))
                (textContent e) |}.

Fixpoint walkForest (blocked : bool) (parent : Dom.node) (path : list nat) (i : nat)
    (ks : list Dom.node) : list TranslationTarget :=
  match ks with
  | [] => []
  | k :: ks' =>
      walk blocked parent (path ++ [i]) k
      ++ walkForest blocked parent path (S i) ks'
  end.

Lemma walkForest_fix (blocked : bool) (parent : Dom.node) (path : list nat)
    (ks : list Dom.node) :
  forall j,
  (fix children (i : nat) (ks : list Dom.node) {struct ks}
     : list TranslationTarget :=
     match ks with
     | [] => []
     | k :: ks' =>
         walk blocked parent (path ++ [i]) k ++ children (S i) ks'
     end) j ks
  = walkForest blocked parent path j ks.
Proof.
  induction ks as [|k ks IH]; intros j; [done|].
  cbn [walkForest]. f_equal. apply IH.
Qed.

Lemma walk_Element (blocked : bool) (parent : Dom.node) (path : list nat)
    (i : nat) (t : string) (a : gmap string string) (c : list string)
    (ks : list Dom.node) :
  walk blocked parent path (Element i t a c ks)
  = if shouldSkipElement blocked (Element i t a c ks) then []
    else attributeTargets path (Element i t a c ks)
         ++ optionTargets path (Element i t a c ks)
         ++ walkForest (blocked || skipsBelow (Element i t a c ks))
              (Element i t a c ks) path 0 ks.
Proof.
  cbn [Targets.walk]. destruct (shouldSkipElement _ _); [done|].
  do 2 f_equal. apply walkForest_fix.
Qed.

Lemma extractTargets_forest (blocked : bool) (root : Dom.node) :
  extractTargets blocked root
  = walkForest (blocked || skipsBelow root) root [] 0 (childNodesOf root).
Proof. unfold Targets.extractTargets. apply (walkForest_fix _ _ []). Qed.

Lemma walkForest_elem (blocked : bool) (parent : Dom.node) (path : list nat)
    (t : TranslationTarget) (ks : list Dom.node) :
  forall i,
  t ∈ walkForest blocked parent path i ks
  <-> exists j k, ks !! j = Some k
                  /\ t ∈ walk blocked parent (path ++ [(i + j)%nat]) k.
Proof.
  induction ks as [|k ks IH]; intros i; cbn [walkForest].
  - split; [by intros ?%elem_of_nil|]. by intros (j & k & ? & _).
  - rewrite elem_of_app, IH. split.
    + intros [H|(j & k' & Hj & H)].
      * exists 0%nat, k. by rewrite Nat.add_0_r.
      * exists (S j), k'. split; [done|].
        by replace (i + S j)%nat with (S i + j)%nat by lia.
    + intros ([|j] & k' & Hj & H).
      * left. cbn in Hj. injection Hj as <-. by rewrite Nat.add_0_r in H.
      * right. exists j, k'. split; [done|].
        by replace (S i + j)%nat with (i + S j)%nat by lia.
Qed.

Lemma shouldSkipElement_false (blocked : bool) (e : Dom.node) :
  shouldSkipElement blocked e = false <-> blocked = false /\ accepted e.
Proof.
  unfold accepted, shouldSkipElement.
  destruct (JS.mem (tagNameOf e) _); [intuition congruence|].
  destruct (hasAttribute _ _); [intuition congruence|].
  destruct (JS.mem "notranslate" _); [intuition congruence|].
  destruct (getAttribute "contenteditable" e) as [v|];
    [destruct (String.eqb v "true")|]; intuition congruence.
Qed.

Lemma accepted_skipsBelow (e : Dom.node) : accepted e -> skipsBelow e = false.
Proof.
  unfold accepted, shouldSkipElement, skipsBelow.
  destruct (JS.mem (tagNameOf e) _); [done|].
  destruct (hasAttribute _ _); [done|].
  by destruct (JS.mem "notranslate" _).
Qed.

Lemma attributeTargets_elem (path : list nat) (e : Dom.node) (t : TranslationTarget) :
  t ∈ attributeTargets path e <-> attributeTarget path e t.
Proof.
  unfold attributeTargets, attributeTarget. rewrite list_elem_of_bind. split.
  - intros (attr & Ht & Hattr).
    destruct (getAttribute attr e) as [value|] eqn:Hv;
      [|by apply elem_of_nil in Ht].
    cbn [JS.truthy_opt default from_option id] in Ht.
    destruct (JS.truthy value && shouldTranslateText value) eqn:Hc;
      [|by apply elem_of_nil in Ht].
    apply andb_true_iff in Hc as [_ Hs].
    apply list_elem_of_singleton in Ht as ->. by exists attr, value.
  - intros (attr & value & Hattr & Hv & Hs & ->). exists attr. split; [|done].
    rewrite Hv. cbn [JS.truthy_opt default from_option id]. rewrite Hs.
    assert (JS.truthy value = true) as ->.
    { destruct value; [|done]. by vm_compute in Hs. }
    apply list_elem_of_singleton. done.
Qed.

Lemma optionTargets_elem (path : list nat) (e : Dom.node) (t : TranslationTarget) :
  t ∈ optionTargets path e <-> optionTarget path e t.
Proof.
  unfold optionTargets, optionTarget. split.
  - destruct (String.eqb _ _ && _) eqn:Hc; [|by intros ?%elem_of_nil].
    apply andb_true_iff in Hc as [Ht%String.eqb_eq Hs].
    by intros ->%list_elem_of_singleton.
  - intros (Ht & Hs & ->). rewrite Ht, Hs, String.eqb_refl.
    by apply list_elem_of_singleton.
Qed.

(** The targets found at a node and below it. *)
Lemma walk_spec (n : Dom.node) :
  forall blocked parent path t,
  t ∈ walk blocked parent path n
  <-> (exists data,
            n = Text data /\ shouldTranslateText data = true
            /\ translatedNodes !! path <> Some currentLanguage
            /\ t = {| type := text; node := path; element := None;
                      attribute_ := None;
                      originalText :=
                        JS.or_else
                          (default "" (getAttribute "data-original-text" parent))
                          data |})
      \/ (blocked = false
          /\ exists a e,
               nodeAt a n = Some e
               /\ (forall q d, q `prefix_of` a -> nodeAt q n = Some d -> accepted d)
               /\ (textTarget (path ++ a) e t
                   \/ attributeTarget (path ++ a) e t
                   \/ optionTarget (path ++ a) e t)).
Proof.
  induction n as [data|i tg at_ c ks IH] using node_ind';
    intros blocked parent path t.
  - cbn [Targets.walk]. split.
    + destruct (shouldTranslateText data) eqn:Hs; [|by intros ?%elem_of_nil].
      case_bool_decide as Htr; [by intros ?%elem_of_nil|].
      intros ->%list_elem_of_singleton. left. by exists data.
    + intros [(d & [= <-] & Hs & Htr & ->)|(_ & a & e & Ha & _ & Hk)].
      * rewrite Hs. rewrite bool_decide_eq_false_2 by done.
        by apply list_elem_of_singleton.
      * exfalso. destruct a as [|j a]; [|done]. injection Ha as <-.
        destruct Hk as [(j & d & Hj & _)|[(attr & v & _ & Hv & _)|(Ht & _)]];
          done.
  - rewrite walk_Element. split.
    + destruct (shouldSkipElement blocked _) eqn:Hskip; [by intros ?%elem_of_nil|].
      apply shouldSkipElement_false in Hskip as [-> Hacc].
      rewrite (accepted_skipsBelow _ Hacc). cbn [orb].
      rewrite !elem_of_app. intros [Ht|[Ht|Ht]]; right; (split; [done|]).
      * exists [], (Element i tg at_ c ks). split; [done|]. split.
        { intros q d [r Hq] Hd. symmetry in Hq. apply app_eq_nil in Hq as [-> _].
          by injection Hd as <-. }
        right. left. rewrite app_nil_r. by apply attributeTargets_elem.
      * exists [], (Element i tg at_ c ks). split; [done|]. split.
        { intros q d [r Hq] Hd. symmetry in Hq. apply app_eq_nil in Hq as [-> _].
          by injection Hd as <-. }
        right. right. rewrite app_nil_r. by apply optionTargets_elem.
      * apply walkForest_elem in Ht as (j & k & Hj & Ht). cbn [Nat.add] in Ht.
        rewrite Forall_forall in IH.
        apply (IH k) in Ht; [|by eapply list_elem_of_lookup_2].
        destruct Ht as [(data & -> & Hs & Htr & ->)|(_ & a & e & Ha & Hq & Hk)].
        -- exists [], (Element i tg at_ c ks). split; [done|]. split.
           { intros q d [r Hq] Hd. symmetry in Hq. apply app_eq_nil in Hq as [-> _].
             by injection Hd as <-. }
           left. rewrite app_nil_r. by exists j, data.
        -- exists (j :: a), e. split; [by cbn; rewrite Hj|]. split.
           { intros q d Hpre Hd. destruct q as [|j' q].
             - by injection Hd as <-.
             - apply prefix_cons_inv_1 in Hpre as Hjj. subst j'.
               apply prefix_cons_inv_2 in Hpre.
               cbn in Hd. rewrite Hj in Hd. by eapply Hq. }
           by rewrite <- app_assoc in Hk.
    + intros [(data & [=] & _)|(-> & a & e & Ha & Hq & Hk)].
      assert (accepted (Element i tg at_ c ks)) as Hacc
        by (apply (Hq []); [apply prefix_nil|done]).
      rewrite (proj2 (shouldSkipElement_false false _)) by done.
      rewrite (accepted_skipsBelow _ Hacc). cbn [orb]. rewrite !elem_of_app.
      destruct a as [|j a].
      * injection Ha as <-. rewrite app_nil_r in Hk.
        destruct Hk as [(j & data & Hj & Hs & Htr & ->)|[Hk|Hk]].
        -- right. right. apply walkForest_elem. exists j, (Text data).
           split; [done|]. cbn [Nat.add Targets.walk]. rewrite Hs.
           rewrite bool_decide_eq_false_2 by done.
           by apply list_elem_of_singleton.
        -- left. by apply attributeTargets_elem.
        -- right. left. by apply optionTargets_elem.
      * cbn in Ha. destruct (ks !! j) as [k|] eqn:Hj; [|done].
        right. right. apply walkForest_elem. exists j, k. split; [done|].
        cbn [Nat.add]. rewrite Forall_forall in IH.
        apply (IH k); [by eapply list_elem_of_lookup_2|].
        right. split; [done|]. exists a, e. split; [done|]. split.
        { intros q d Hpre Hd. apply (Hq (j :: q)); [by apply prefix_cons|].
          cbn. by rewrite Hj. }
        by rewrite <- app_assoc.
Qed.

(** X27. What [extractTargets] finds, exactly. A target is either a text
    node directly below the root of the walk, whatever the root and its
    ancestors carry; or it belongs to an element below the root (a text
    node among its children, one of its translatable attributes, or the
    extra target of an [OPTION]), and then two conditions hold. The root
    and its ancestors pass the three tests of the ancestor loop of
    [shouldSkipElement]: no [data-no-translate], no class "notranslate",
    no tag of [SKIP_ELEMENTS]; that loop does not look at
    [contenteditable]. And every element below the root on the way down
    to that element, itself included, passes the four tests that
    [shouldSkipElement] applies to the element itself: these three, and
    not [contenteditable="true"]. Texts must pass [shouldTranslateText];
    a text node already recorded as translated to the current language
    is left out; the original text is the stored marker when that is not
    empty and the current value otherwise. *)
Theorem extractTargets_spec (blocked : bool) (root : Dom.node)
    (t : TranslationTarget) :
  t ∈ extractTargets blocked root
  <-> textTarget [] root t
      \/ (blocked = false /\ skipsBelow root = false
          /\ exists a e,
               a <> [] /\ nodeAt a root = Some e
               /\ (forall q d, q <> [] -> q `prefix_of` a ->
                     nodeAt q root = Some d -> accepted d)
               /\ (textTarget a e t \/ attributeTarget a e t
                   \/ optionTarget a e t)).
Proof.
  rewrite extractTargets_forest, walkForest_elem. cbn [Nat.add app]. split.
  - intros (j & k & Hj & Ht). apply walk_spec in Ht.
    destruct Ht as [(data & -> & Hs & Htr & ->)|(Hb & a & e & Ha & Hq & Hk)].
    + left. by exists j, data.
    + right. apply orb_false_iff in Hb as [-> ->]. split; [done|]. split; [done|].
      exists (j :: a), e. split; [done|]. split; [by cbn; rewrite Hj|].
      split; [|done].
      intros q d Hne Hpre Hd. destruct q as [|j' q]; [done|].
      apply prefix_cons_inv_1 in Hpre as Hjj. subst j'.
      apply prefix_cons_inv_2 in Hpre.
      cbn in Hd. rewrite Hj in Hd. by eapply Hq.
  - intros [(j & data & Hj & Hs & Htr & ->)
           |(-> & Hroot & a & e & Hne & Ha & Hq & Hk)].
    + exists j, (Text data). split; [done|]. apply walk_spec. left. by exists data.
    + destruct a as [|j a]; [done|]. cbn in Ha.
      destruct (childNodesOf root !! j) as [k|] eqn:Hj; [|done].
      exists j, k. split; [done|]. apply walk_spec. right.
      rewrite Hroot. split; [done|]. exists a, e. split; [done|].
      split; [|done].
      intros q d Hpre Hd. apply (Hq (j :: q)); [done|by apply prefix_cons|].
      cbn. by rewrite Hj.
Qed.

Lemma uniqueFrom_elem (texts : list string) :
  forall seen x, x ∈ uniqueFrom seen texts <-> x ∈ texts /\ x ∉ seen.
Proof.
  induction texts as [|t rest IH]; intros seen x; cbn [uniqueFrom].
  - split; [by intros ?%elem_of_nil|]. by intros [?%elem_of_nil _].
  - destruct (JS.mem t seen) eqn:Hm.
    + apply mem_true in Hm. rewrite IH, elem_of_cons. split; [tauto|].
      intros [[->|?] ?]; [done|tauto].
    + assert (t ∉ seen) as Hn by (intros H%mem_true; congruence).
      rewrite !elem_of_cons, IH, elem_of_cons. split.
      * intros [->|[? ?]]; [tauto|]. split; [tauto|]. tauto.
      * intros [[->|?] ?]; [tauto|].
        destruct (decide (x = t)) as [->|?]; [tauto|]. right. tauto.
Qed.

Lemma uniqueFrom_NoDup (texts : list string) :
  forall seen, NoDup (uniqueFrom seen texts).
Proof.
  induction texts as [|t rest IH]; intros seen; cbn [uniqueFrom];
    [constructor|].
  destruct (JS.mem t seen); [apply IH|].
  constructor; [|apply IH].
  rewrite uniqueFrom_elem. intros [_ H]. apply H. by left.
Qed.

Lemma translationMap_lookup (texts translations : list string) (i : nat)
    (x : string) :
  NoDup texts -> texts !! i = Some x ->
  translationMap texts translations !! x = Some (translations !! i).
Proof.
  unfold translationMap. generalize (∅ : gmap string (option string)).
  induction texts as [|t ts IH] using rev_ind; intros m Hnd Hi; [done|].
  apply NoDup_app in Hnd as (Hnd & Hsep & _).
  rewrite imap_app, fold_left_app. cbn [imap fold_left fst snd].
  rewrite Nat.add_0_r.
  destruct (decide (i < length ts)%nat) as [Hlt|Hge].
  - rewrite lookup_app_l in Hi by done.
    rewrite lookup_insert_ne; [by apply IH|].
    intros <-. apply (Hsep t); [by eapply list_elem_of_lookup_2|by left].
  - rewrite lookup_app_r in Hi by lia.
    destruct (i - length ts)%nat as [|n] eqn:Hn; [|by destruct n].
    injection Hi as ->. assert (i = length ts) as -> by lia.
    by rewrite lookup_insert_eq.
Qed.

(** The translation looked up for a target: the texts sent are pairwise
    distinct, the original text of the target stands at exactly one index
    of them, and the translation is the one at that index of the reply,
    unless that is missing, empty or equal to the original text. *)
Lemma translationFor_index (targets : list TranslationTarget)
    (translations : list string) (t : TranslationTarget) :
  t ∈ targets ->
  NoDup (uniqueTexts targets)
  /\ exists i,
       uniqueTexts targets !! i = Some (originalText t)
       /\ (forall j, uniqueTexts targets !! j = Some (originalText t) -> j = i)
       /\ translationFor (translationMap (uniqueTexts targets) translations) t
          = match translations !! i with
            | Some translation =>
                if negb (JS.truthy translation)
                   || String.eqb translation (originalText t)
                then None else Some translation
            | None => None
            end.
Proof.
  intros Hin. pose proof (uniqueFrom_NoDup (originalText <$> targets) []) as Hnd.
  fold (uniqueTexts targets) in Hnd. split; [done|].
  assert (originalText t ∈ uniqueTexts targets) as Hu.
  { apply uniqueFrom_elem. split; [|by intros ?%elem_of_nil].
    apply list_elem_of_fmap. by exists t. }
  apply list_elem_of_lookup in Hu as [i Hi]. exists i. split; [done|].
  split; [intros j Hj; by eapply NoDup_lookup|].
  unfold translationFor. rewrite (translationMap_lookup _ _ i) by done.
  cbn [mjoin option_join]. done.
Qed.

Lemma client_translateBatch_length (getItemThrows setItemThrows : bool)
    (reply : DeepLClient.api_reply) (c : CacheClient.client_cache)
    (texts : list string) (targetLang : string) (sourceLang : option string) :
  length (DeepLClient.translateBatch getItemThrows setItemThrows reply c texts
            targetLang sourceLang).1.1 = length texts.
Proof.
  unfold DeepLClient.translateBatch.
  case_bool_decide as Hlen; [done|].
  destruct (JS.truthy_opt sourceLang && _); [done|].
  destruct (CacheClient.getBatchFromCache _ _ _ _) as [cacheResults c1].
  case_bool_decide; [cbn [fst]; by rewrite length_fmap|].
  destruct (DeepLClient.fetchTranslations _ reply); [|done].
  destruct (DeepLClient.recordTranslations _ _ _ _).
  cbn [fst]. by rewrite length_fmap.
Qed.

(** X28. [applyTranslations] does nothing at all for the language "en" or
    for no targets: no call of [setIsTranslating], no request, no write.
    Otherwise it brackets its work with [setIsTranslating(true)] and
    [setIsTranslating(false)], hands the distinct original texts to one
    call of the client's [translateBatch] for the current language with no
    source language, gets as many translations back, and goes through the
    targets in order: the original text of a target stands at exactly one
    index of the texts sent, and the target is written with the
    translation returned at that index (the calls of [applyTo]), unless
    that translation is empty or equal to the original text, in which
    case no call is made for the target. *)
Theorem applyTranslations_spec (getItemThrows setItemThrows : bool)
    (reply : DeepLClient.api_reply) (cache : CacheClient.client_cache)
    (language : string) (targets : list TranslationTarget) :
  let r := applyTranslations getItemThrows setItemThrows reply cache language
             targets in
  let sent := DeepLClient.translateBatch getItemThrows setItemThrows reply cache
                (uniqueTexts targets) language None in
  (targets = [] \/ language = "en" -> r = ([], cache, []))
  /\ (targets <> [] -> language <> "en" ->
      NoDup (uniqueTexts targets)
      /\ r.1.2 = sent.1.2 /\ r.2 = sent.2
      /\ length sent.1.1 = length (uniqueTexts targets)
      /\ exists writes,
           r.1.1 = SetIsTranslating true :: concat writes
                   ++ [SetIsTranslating false]
           /\ Forall2
                (fun t calls =>
                   exists i translation,
                     uniqueTexts targets !! i = Some (originalText t)
                     /\ (forall j, uniqueTexts targets !! j
                                   = Some (originalText t) -> j = i)
                     /\ sent.1.1 !! i = Some translation
                     /\ calls
                        = if negb (JS.truthy translation)
                             || String.eqb translation (originalText t)
                          then [] else applyTo language t translation)
                targets writes).
Proof.
  cbv zeta. unfold applyTranslations. split.
  - intros [Ht|Hl]; [by rewrite Ht|]. rewrite Hl. by rewrite orb_true_r.
  - intros Hne Hlang.
    rewrite bool_decide_eq_false_2 by (by destruct targets).
    apply String.eqb_neq in Hlang. rewrite Hlang. cbn [orb].
    pose proof (client_translateBatch_length getItemThrows setItemThrows reply
                  cache (uniqueTexts targets) language None) as Hlen.
    destruct (DeepLClient.translateBatch _ _ _ _ _ _ _)
      as [[translations cache'] requests].
    cbn [fst snd] in *.
    split; [apply (uniqueFrom_NoDup (originalText <$> targets) [])|].
    do 3 (split; [done|]).
    exists ((fun target =>
               match translationFor
                       (translationMap (uniqueTexts targets) translations)
                       target with
               | Some translation => applyTo language target translation
               | None => []
               end) <$> targets).
    split.
    + f_equal. f_equal. clear. generalize (translationMap (uniqueTexts targets)
                                             translations) as m.
      intros m. induction targets as [|t ts IH]; [done|].
      rewrite bind_cons, fmap_cons. cbn [concat]. by rewrite IH.
    + apply Forall2_fmap_r, Forall_Forall2_diag, Forall_forall.
      intros t Hin.
      destruct (translationFor_index targets translations t Hin)
        as (_ & i & Hi & Huniq & Hfor).
      destruct (lookup_lt_is_Some_2 translations i) as [translation Htr].
      { rewrite Hlen. by eapply lookup_lt_Some. }
      exists i, translation. split; [done|]. split; [done|]. split; [done|].
      rewrite Hfor, Htr. by destruct (negb _ || _).
Qed.

End TargetFacts.
Lemma shouldTranslateText_spec_witness :
  Targets.shouldTranslateText "Hello world" = true
  /\ Targets.shouldTranslateText " www.example.com " <> true.
Proof.
  split; [reflexivity|].
  intros H. apply shouldTranslateText_spec in H as (_ & _ & _ & _ & Hwww & _).
  apply Hwww. exists "example.com". reflexivity.
Defined.

Definition optOutPage : Dom.node :=
  Dom.Element 0 "BODY" ∅ []
    [ Dom.Element 1 "P" ∅ [] [ Dom.Text "Hello world" ];
      Dom.Element 2 "DIV" ∅ ["notranslate"] [ Dom.Text "Secret text" ] ].

Lemma extractTargets_spec_witness :
  {| Targets.type := Targets.text; Targets.node := [0; 0]%nat;
     Targets.element := None; Targets.attribute_ := None;
     Targets.originalText := "Hello world" |}
  ∈ Targets.extractTargets ∅ "es" false optOutPage
  /\ forall t, t ∈ Targets.extractTargets ∅ "es" false optOutPage ->
               Targets.originalText t <> "Secret text".
Proof.
  split.
  - apply extractTargets_spec. right. split; [reflexivity|]. split; [reflexivity|].
    exists [0%nat], (Dom.Element 1 "P" ∅ [] [ Dom.Text "Hello world" ]).
    split; [discriminate|]. split; [reflexivity|]. split.
    + intros q d Hne Hpre Hd.
      destruct q as [|j q]; [done|].
      apply prefix_cons_inv_1 in Hpre as Hj. subst j.
      apply prefix_cons_inv_2, prefix_nil_inv in Hpre. subst q.
      injection Hd as <-. reflexivity.
    + left. exists 0%nat, "Hello world".
      split; [reflexivity|]. split; [reflexivity|]. split; [|reflexivity].
      rewrite lookup_empty. discriminate.
  - intros t Ht. vm_compute in Ht.
    apply list_elem_of_In in Ht. destruct Ht as [<-|[]]. discriminate.
Defined.

Definition sampleTargets : list Targets.TranslationTarget :=
  [ {| Targets.type := Targets.text; Targets.node := [0; 0]%nat;
       Targets.element := None; Targets.attribute_ := None;
       Targets.originalText := "Save" |};
    {| Targets.type := Targets.attribute; Targets.node := [1]%nat;
       Targets.element := Some [1]%nat; Targets.attribute_ := Some "title";
       Targets.originalText := "Cancel" |};
    {| Targets.type := Targets.text; Targets.node := [2; 0]%nat;
       Targets.element := None; Targets.attribute_ := None;
       Targets.originalText := "Save" |} ].

Lemma applyTranslations_spec_witness :
  NoDup (Targets.uniqueTexts sampleTargets)
  /\ Targets.uniqueTexts sampleTargets = ["Save"; "Cancel"]
  /\ Targets.applyTranslations false false
       (DeepLClient.Reply true None false (Some ["Guardar"; "Cancel"]))
       coldCache "en" sampleTargets = ([], coldCache, [])
  /\ (Targets.applyTranslations false false
        (DeepLClient.Reply true None false (Some ["Guardar"; "Cancel"]))
        coldCache "es" sampleTargets).1.1
     = [ Targets.SetIsTranslating true;
         Targets.StoreOriginalText [0; 0]%nat "Save";
         Targets.PendingOurMutation [0; 0]%nat;
         Targets.SetTextContent [0; 0]%nat "Guardar";
         Targets.MarkTranslated [0; 0]%nat "es";
         Targets.AddTranslatedClass [0; 0]%nat;
         Targets.StoreOriginalText [2; 0]%nat "Save";
         Targets.PendingOurMutation [2; 0]%nat;
         Targets.SetTextContent [2; 0]%nat "Guardar";
         Targets.MarkTranslated [2; 0]%nat "es";
         Targets.AddTranslatedClass [2; 0]%nat;
         Targets.SetIsTranslating false ].
Proof.
  destruct (applyTranslations_spec false false
              (DeepLClient.Reply true None false (Some ["Guardar"; "Cancel"]))
              coldCache "es" sampleTargets) as [_ Hes].
  destruct Hes as (Hnd & _); [discriminate|discriminate|].
  split; [exact Hnd|]. split; [reflexivity|]. split.
  - apply (applyTranslations_spec false false
             (DeepLClient.Reply true None false (Some ["Guardar"; "Cancel"]))
             coldCache "en" sampleTargets). by right.
  - vm_compute. reflexivity.
Defined.

Section CacheLookupFacts.
Import CacheClient.
Local Arguments String.eqb : simpl never.

(** The lookups of [c'] answer as those of [c], over the same storage. *)
Definition sameAnswers (getItemThrows : bool) (c c' : client_cache) : Prop :=
  localStorage c' = localStorage c
  /\ forall text targetLang,
       (getFromCache getItemThrows c' text targetLang).1
       = (getFromCache getItemThrows c text targetLang).1.

Lemma getFromCache_cache (getItemThrows : bool) (c : client_cache)
    (text targetLang : string) :
  (getFromCache getItemThrows c text targetLang).2 = c
  \/ (getItemThrows = false
      /\ exists items v,
           localStorage c = Some items
           /\ JS.truthy_opt (MEMORY_CACHE c !! generateSyncCacheKey text targetLang)
              = false
           /\ items !! (CACHE_PREFIX +:+ generateSyncCacheKey text targetLang)
              = Some v
           /\ JS.truthy v = true
           /\ (getFromCache getItemThrows c text targetLang).2
              = {| MEMORY_CACHE :=
                     <[generateSyncCacheKey text targetLang := v]> (MEMORY_CACHE c);
                   localStorage := localStorage c |}).
Proof.
  unfold getFromCache.
  destruct (JS.truthy_opt (MEMORY_CACHE c !! _)) eqn:Hm; [by left|].
  destruct (localStorage c) as [items|] eqn:Hs; [|by left].
  destruct getItemThrows; [by left|].
  destruct (items !! _) as [v|] eqn:Hv; [|by left].
  cbn [JS.truthy_opt default from_option id].
  destruct (JS.truthy v) eqn:Ht; [|by left].
  right. split; [done|]. exists items, v. done.
Qed.

Lemma getFromCache_sameAnswers (getItemThrows : bool) (c : client_cache)
    (text targetLang : string) :
  sameAnswers getItemThrows c (getFromCache getItemThrows c text targetLang).2.
Proof.
  destruct (getFromCache_cache getItemThrows c text targetLang)
    as [->|(-> & items & v & Hs & Hm & Hv & Ht & ->)]; [done|].
  split; [done|]. intros text' lang'. unfold getFromCache.
  cbn [MEMORY_CACHE localStorage]. rewrite Hs.
  destruct (decide (generateSyncCacheKey text' lang'
                    = generateSyncCacheKey text targetLang)) as [->|Hne].
  - rewrite lookup_insert_eq, Hm, Hv. cbn [JS.truthy_opt]. by rewrite Ht.
  - rewrite lookup_insert_ne by done.
    destruct (JS.truthy_opt (MEMORY_CACHE c !! generateSyncCacheKey text' lang'));
      [done|].
    by destruct (JS.truthy_opt
                   (items !! (CACHE_PREFIX +:+ generateSyncCacheKey text' lang'))).
Qed.

Lemma getBatchFromCache_answers (getItemThrows : bool) (c : client_cache)
    (texts : list string) (targetLang : string) :
  sameAnswers getItemThrows c
    (getBatchFromCache getItemThrows c texts targetLang).2
  /\ forall text,
       text ∈ texts ->
       (getBatchFromCache getItemThrows c texts targetLang).1 !! text
       = Some (getFromCache getItemThrows c text targetLang).1.
Proof.
  unfold getBatchFromCache.
  assert (forall (acc : gmap string (option string) * client_cache),
            sameAnswers getItemThrows c acc.2 ->
            let r := fold_left
                       (fun acc text =>
                          let '(r, c') :=
                            getFromCache getItemThrows acc.2 text targetLang in
                          (<[text := r]> acc.1, c')) texts acc in
            sameAnswers getItemThrows c r.2
            /\ forall text,
                 (text ∈ texts ->
                  r.1 !! text = Some (getFromCache getItemThrows c text targetLang).1)
                 /\ (text ∉ texts -> r.1 !! text = acc.1 !! text)) as Hfold.
  { induction texts as [|t ts IH]; intros acc Hsame; cbv zeta.
    - cbn [fold_left]. split; [done|]. intros text. split; [|done].
      by intros ?%elem_of_nil.
    - cbn [fold_left].
      destruct (getFromCache getItemThrows acc.2 t targetLang) as [r c'] eqn:Hg.
      assert (sameAnswers getItemThrows c c') as Hsame'.
      { pose proof (getFromCache_sameAnswers getItemThrows acc.2 t targetLang)
          as [Hs1 Hs2].
        rewrite Hg in Hs1, Hs2. cbn [snd] in Hs1, Hs2.
        destruct Hsame as [Ha1 Ha2]. split; [congruence|].
        intros text lang. rewrite Hs2. apply Ha2. }
      destruct (IH (<[t := r]> acc.1, c') Hsame') as [Hr Hl]. cbv zeta in Hr, Hl.
      split; [exact Hr|]. intros text. cbn [fst] in Hl. split.
      + intros Hin. destruct (decide (text ∈ ts)) as [Hts|Hts].
        * by apply Hl.
        * apply elem_of_cons in Hin as [->|?]; [|done].
          rewrite (proj2 (Hl t)) by done. rewrite lookup_insert_eq.
          f_equal. destruct Hsame as [_ Ha2].
          rewrite <- Ha2. by rewrite Hg.
      + intros Hnot. apply not_elem_of_cons in Hnot as [Hne Hts].
        rewrite (proj2 (Hl text)) by done. by rewrite lookup_insert_ne. }
  destruct (Hfold (∅, c)) as [H1 H2]; [by split|]. cbv zeta in H1, H2.
  split; [exact H1|]. intros text Hin. by apply H2.
Qed.

(** X29. Looking a text up in the client cache never changes what the
    cache answers: after [getFromCache], and after any [getBatchFromCache],
    the browser storage is as before and every lookup, for any text and
    language, gives the answer it would have given before (the storage
    being as readable as before). The [Map] that [getBatchFromCache]
    returns holds for each text the answer of its single lookup. *)
Theorem cache_lookups_do_not_interfere (getItemThrows : bool) (c : client_cache)
    (texts : list string) (targetLang : string) :
  let r := getBatchFromCache getItemThrows c texts targetLang in
  localStorage r.2 = localStorage c
  /\ (forall text' targetLang',
        (getFromCache getItemThrows r.2 text' targetLang').1
        = (getFromCache getItemThrows c text' targetLang').1)
  /\ (forall text,
        text ∈ texts ->
        r.1 !! text = Some (getFromCache getItemThrows c text targetLang).1)
  /\ forall text targetLang1 text' targetLang',
       (getFromCache getItemThrows
          (getFromCache getItemThrows c text targetLang1).2 text' targetLang').1
       = (getFromCache getItemThrows c text' targetLang').1.
Proof.
  cbv zeta.
  destruct (getBatchFromCache_answers getItemThrows c texts targetLang)
    as [[H1 H2] H3].
  split; [done|]. split; [done|]. split; [done|].
  intros text lang1 text' lang'.
  apply (getFromCache_sameAnswers getItemThrows c text lang1).
Qed.

End CacheLookupFacts.

Lemma cache_lookups_do_not_interfere_witness :
  (CacheClient.getBatchFromCache false storedCache ["Hello world"; "Bye"] "es").1
  !! "Hello world" = Some (Some "Hola mundo").
Proof.
  destruct (cache_lookups_do_not_interfere false storedCache
              ["Hello world"; "Bye"] "es") as (_ & _ & H & _).
  rewrite H by apply list_elem_of_here. vm_compute. reflexivity.
Defined.

Section RouteFailOpenFacts.
Import Route.
Variable DEEPL_API_KEY : option string.
Variable toUpperCase : string -> string.
Variable fetch : DeepL.deepl_request -> DeepL.deepl_reply.
Local Arguments String.eqb : simpl never.

Lemma translateBatch_blank (texts : list string) (sourceLang : option string)
    (targetLang : string) (i : nat) (t : string) :
  texts !! i = Some t -> JS.truthy (JS.trim t) = false ->
  (DeepL.translateBatch DEEPL_API_KEY toUpperCase fetch texts sourceLang
     targetLang).1 !! i = Some t.
Proof.
  intros Hi Hb.
  destruct (translateBatch_cases DEEPL_API_KEY toUpperCase fetch texts sourceLang
              targetLang)
    as [[-> _]|(request & _ & _ & _ & _ & [[-> _]|(trs & _ & _ & ->)])];
    cbn [fst]; [done|done|by apply merge_blank].
Qed.

Lemma translateBatch_no_key (texts : list string) (sourceLang : option string)
    (targetLang : string) :
  JS.truthy_opt DEEPL_API_KEY = false ->
  (DeepL.translateBatch DEEPL_API_KEY toUpperCase fetch texts sourceLang
     targetLang).1 = texts.
Proof.
  intros Hk.
  destruct (translateBatch_cases DEEPL_API_KEY toUpperCase fetch texts sourceLang
              targetLang)
    as [[-> _]|(request & _ & _ & _ & Hk' & _)]; [done|congruence].
Qed.

(** X30. The translation endpoint fails open on a provider failure, and
    only there. A response that carries translations has status 200 or is
    the answer of the [catch] block. Under status 200 every blank text of
    the request stands unchanged at its index, and when the server has no
    provider credential the translations are the texts of the request as
    they were sent. The answer of the [catch] block has status 500, is
    given to a request without a body, and its translations are the empty
    list: the texts of a request are never handed back by it. *)
Theorem POST_fails_open (now : Z) (requestCounts : gmap string rate_record)
    (req : request) (translations : list string) :
  let resp := (POST DEEPL_API_KEY toUpperCase fetch now requestCounts req).1 in
  translationsOf resp = Some translations ->
  (status resp = 200
   /\ exists payload texts_,
        json req = Some payload /\ texts payload = Some texts_
        /\ (forall i t, texts_ !! i = Some t -> JS.truthy (JS.trim t) = false ->
              translations !! i = Some t)
        /\ (JS.truthy_opt DEEPL_API_KEY = false -> translations = texts_))
  \/ (status resp = 500 /\ body resp = Unavailable [] /\ translations = []
      /\ json req = None /\ hasBody req = false).
Proof.
  cbv zeta. unfold Route.POST.
  destruct (getRateLimitInfo now requestCounts (clientIp req)) as [rateLimit counts'].
  destruct (negb (allowed rateLimit)); [done|].
  cbn [fst]. unfold Route.handleAllowed.
  destruct (json req) as [payload|].
  2:{ unfold serverError, rejects. destruct (hasBody req); [done|].
      cbn [status translationsOf body texts default]. intros [= <-].
      right. done. }
  destruct (texts payload) as [[|x l]|] eqn:Htexts; [done| |done].
  destruct (negb (JS.truthy_opt (targetLang payload))); [done|].
  destruct (100 <? length (x :: l))%nat; [done|].
  assert (forall source target,
            let result := callProvider DEEPL_API_KEY toUpperCase fetch (x :: l)
                            source target in
            (forall i t, (x :: l) !! i = Some t -> JS.truthy (JS.trim t) = false ->
                         result !! i = Some t)
            /\ (JS.truthy_opt DEEPL_API_KEY = false -> result = x :: l)) as Hcall.
  { intros source target. cbv zeta. unfold callProvider.
    destruct target; [|done].
    destruct source as [[s0|k]|]; [|done|];
      (split; [intros i t; apply translateBatch_blank|apply translateBatch_no_key]). }
  destruct (JS.truthy_opt (sourceLang payload)).
  - destruct (baseOf (toDeepLTarget (default "" (targetLang payload)))); [|done].
    destruct (baseOf (toDeepLTarget (default "" (sourceLang payload)))); [|done].
    destruct (String.eqb _ _); cbn [translationsOf body status].
    + intros [= <-]. left. split; [done|]. exists payload, (x :: l). done.
    + intros [= <-]. left. split; [done|]. exists payload, (x :: l).
      split; [done|]. split; [done|]. apply Hcall.
  - cbn [translationsOf body status]. intros [= <-]. left. split; [done|].
    exists payload, (x :: l). split; [done|]. split; [done|]. apply Hcall.
Qed.

End RouteFailOpenFacts.

Lemma POST_fails_open_witness :
  Route.status (Route.POST None id germanReply 0 ∅ sampleRequest).1 = 200.
Proof.
  assert (translationsOf (Route.POST None id germanReply 0 ∅ sampleRequest).1
          = Some ["Hello"]) as Ht by reflexivity.
  destruct (POST_fails_open None id germanReply 0 ∅ sampleRequest ["Hello"] Ht)
    as [[H _]|[H _]]; [exact H|discriminate H].
Defined.
